(** * Ethereum data API: a shallow embedding of the Go backend

    The definitions follow the packages of the backend and of the libraries it
    calls:
    - [strings], [regexp] : the library functions the validator calls
    - [validator]  : pkg/interface/validator (IsValidAddress, FormatAddress)
    - [big]        : the math/big operations of the wei conversions
    - [entity], [repository] : pkg/domain
    - [usecase], [persistence] : GetAddressInfo, the fan-out / fan-in
    - [gin], [response], [handler] : the HTTP handler and its responses
    - [middleware] : RateLimiter, Recovery, Timeout
    They are followed by the notions the properties are stated with, and by
    the proofs, package by package.

    Go strings are byte strings and are modelled by [string] (one [ascii] per
    byte); [int], [uint64] and [big.Int] values by [Z]; [time.Time] and
    [time.Duration] by [Z] (an instant, resp. a length, on one time line). *)

From Stdlib Require Import ZArith QArith Qround Qabs Qpower Lqa Lia Bool List Ascii String.
From Stdlib Require Import DecimalString.
From stdpp Require Import base option list gmap strings.

Import ListNotations.
Local Open Scope Z_scope.

(** ** Bytes *)

Definition byte_val (c : ascii) : Z := Z.of_N (N_of_ascii c).

Definition byte_of (z : Z) : ascii := ascii_of_N (Z.to_N (z mod 256)).

Definition between (lo hi c : ascii) : bool :=
  (byte_val lo <=? byte_val c) && (byte_val c <=? byte_val hi).

(** utf8.RuneSelf = 0x80: bytes below it are the ASCII characters. *)
Definition RuneSelf : Z := 128.

(** ** Package strings (the functions the validator calls) *)

Module strings.

Fixpoint len (s : string) : Z :=
  match s with
  | EmptyString => 0
  | String _ s' => 1 + len s'
  end.

(** [HasPrefix s prefix]: [s] begins with [prefix]. *)
Fixpoint HasPrefix (s prefix : string) {struct prefix} : bool :=
  match prefix, s with
  | EmptyString, _ => true
  | String p prefix', String c s' => Ascii.eqb c p && HasPrefix s' prefix'
  | String _ _, EmptyString => false
  end.

(** The table [asciiSpace]: tab, newline, vertical tab, form feed, carriage
    return and space. *)
Definition asciiSpace (c : ascii) : bool :=
  let v := byte_val c in
  (v =? 9) || (v =? 10) || (v =? 11) || (v =? 12) || (v =? 13) || (v =? 32).

Section unicode.

(** The Unicode-aware slow paths of the standard library are reached only
    when a byte >= [RuneSelf] is met; they are parameters of the model:
    [TrimFunc_IsSpace] is [TrimFunc(s, unicode.IsSpace)],
    [TrimRightFunc_IsSpace] is [TrimRightFunc(s, unicode.IsSpace)] and
    [Map_ToLower] is [Map(unicode.ToLower, s)]. *)
Variable TrimFunc_IsSpace : string -> string.
Variable TrimRightFunc_IsSpace : string -> string.
Variable Map_ToLower : string -> string.

(** Second loop of [TrimSpace]: scan from the end.  The result is the slice
    [s[start:stop]] and whether the scan stopped on a non-ASCII byte (in which
    case the slow path trims that slice). *)
Fixpoint scan_stop (s : string) : string * bool :=
  match s with
  | EmptyString => (EmptyString, false)
  | String c s' =>
      match scan_stop s' with
      | (EmptyString, false) =>
          if RuneSelf <=? byte_val c then (String c EmptyString, true)
          else if asciiSpace c then (EmptyString, false)
          else (String c EmptyString, false)
      | (kept, slow) => (String c kept, slow)
      end
  end.

Definition trim_stop (s : string) : string :=
  match scan_stop s with
  | (kept, true) => TrimRightFunc_IsSpace kept
  | (kept, false) => kept
  end.

(** [TrimSpace]: the first loop looks for the first byte that is not an ASCII
    space, the second (above) for the last one. *)
Fixpoint TrimSpace (s : string) : string :=
  match s with
  | EmptyString => EmptyString
  | String c s' =>
      if RuneSelf <=? byte_val c then TrimFunc_IsSpace s
      else if asciiSpace c then TrimSpace s'
      else trim_stop s
  end.

Fixpoint isASCII (s : string) : bool :=
  match s with
  | EmptyString => true
  | String c s' => (byte_val c <? RuneSelf) && isASCII s'
  end.

Definition isUpper (c : ascii) : bool := between "A" "Z" c.

Fixpoint hasUpper (s : string) : bool :=
  match s with
  | EmptyString => false
  | String c s' => isUpper c || hasUpper s'
  end.

(** [c += 'a' - 'A'] on a byte. *)
Definition lower_byte (c : ascii) : ascii :=
  if isUpper c then byte_of (byte_val c + (byte_val "a" - byte_val "A")) else c.

Fixpoint lower_bytes (s : string) : string :=
  match s with
  | EmptyString => EmptyString
  | String c s' => String (lower_byte c) (lower_bytes s')
  end.

Definition ToLower (s : string) : string :=
  if isASCII s then
    if negb (hasUpper s) then s else lower_bytes s
  else Map_ToLower s.

End unicode.

End strings.

(** ** Package regexp, restricted to the syntax of the one pattern in use

    A pattern is a sequence of nodes, each matching a fixed number of bytes.
    Every atom of the pattern is an ASCII literal or an ASCII class, so a byte
    >= [RuneSelf] (part of a multi-byte or invalid rune) matches none of them
    and matching rune by rune coincides with matching byte by byte. *)

Module regexp.

Inductive atom : Type :=
| Lit (c : ascii)
| Class (ranges : list (ascii * ascii)).

Inductive node : Type :=
| BeginText
| EndText
| One (a : atom)
| Repeat (a : atom) (n : nat).

Definition atom_match (a : atom) (c : ascii) : bool :=
  match a with
  | Lit l => Ascii.eqb c l
  | Class ranges => existsb (fun r => between (fst r) (snd r) c) ranges
  end.

(** [a{n}]: exactly [n] bytes matching [a]; the rest of the input. *)
Fixpoint match_repeat (a : atom) (n : nat) (s : string) : option string :=
  match n with
  | O => Some s
  | S n' =>
      match s with
      | EmptyString => None
      | String c s' => if atom_match a c then match_repeat a n' s' else None
      end
  end.

(** A match of the pattern starting here; [at_start] tells whether this is
    the beginning of the text. *)
Fixpoint match_here (re : list node) (at_start : bool) (s : string) : bool :=
  match re with
  | [] => true
  | BeginText :: re' => at_start && match_here re' at_start s
  | EndText :: re' =>
      match s with
      | EmptyString => match_here re' at_start s
      | String _ _ => false
      end
  | One a :: re' =>
      match s with
      | EmptyString => false
      | String c s' => atom_match a c && match_here re' false s'
      end
  | Repeat a n :: re' =>
      match match_repeat a n s with
      | Some s' => match_here re' (at_start && Nat.eqb n 0) s'
      | None => false
      end
  end.

(** The unanchored search of [MatchString]: a match starting anywhere. *)
Fixpoint search (re : list node) (at_start : bool) (s : string) : bool :=
  match_here re at_start s ||
  match s with
  | EmptyString => false
  | String _ s' => search re false s'
  end.

Definition MatchString (re : list node) (s : string) : bool := search re true s.

End regexp.

(** ** Package validator *)

Module validator.

Import strings regexp.

(** The pattern ["^0x[0-9a-fA-F]{40}$"]. *)
Definition address_pattern : list node :=
  [ BeginText; One (Lit "0"); One (Lit "x");
    Repeat (Class [("0", "9"); ("a", "f"); ("A", "F")]%char) 40;
    EndText ].

Definition IsValidAddress (address : string) : bool :=
  if negb (len address =? 42) then false
  else if negb (HasPrefix address "0x") then false
  else MatchString address_pattern address.

Section FormatAddress.

Variable TrimFunc_IsSpace : string -> string.
Variable TrimRightFunc_IsSpace : string -> string.
Variable Map_ToLower : string -> string.

Definition FormatAddress (address : string) : string :=
  let address := TrimSpace TrimFunc_IsSpace TrimRightFunc_IsSpace address in
  let address := ToLower Map_ToLower address in
  if negb (HasPrefix address "0x") then ("0x" +:+ address) else address.

End FormatAddress.

End validator.

(** ** Package math/big: the operations the aggregation calls

    A finite [big.Float] is its precision (in bits) and its exact value, a
    rational; rounding is to nearest, ties to even (the default mode). *)

Module big.

Local Open Scope Q_scope.

(** [x.BitLen()]: the number of bits of [|x|]; 0 for 0. *)
Definition BitLen (x : Z) : Z :=
  if (x =? 0)%Z then 0%Z else (Z.log2 (Z.abs x) + 1)%Z.

(** [ilog2 x] is the exponent of the leading bit of a positive rational:
    [2^(ilog2 x) <= x < 2^(ilog2 x + 1)]. *)
Definition ilog2 (x : Q) : Z :=
  let l := (Z.log2 (Qnum x) - Z.log2 (Zpos (Qden x)))%Z in
  if Qle_bool (2 ^ l) x then l else (l - 1)%Z.

(** Nearest integer, ties to even. *)
Definition nearest_even (y : Q) : Z :=
  let q := Qfloor y in
  match Qcompare (y - inject_Z q) (1 # 2) with
  | Lt => q
  | Gt => (q + 1)%Z
  | Eq => if Z.even q then q else (q + 1)%Z
  end.

(** Rounding of a positive value to [prec] significant bits. *)
Definition round_pos (prec : Z) (x : Q) : Q :=
  let e := (ilog2 x - (prec - 1))%Z in
  Qred (inject_Z (nearest_even (x / 2 ^ e)) * 2 ^ e).

Definition round (prec : Z) (x : Q) : Q :=
  match Qcompare x 0 with
  | Eq => 0
  | Gt => round_pos prec x
  | Lt => - round_pos prec (- x)
  end.

Record Float : Type := mkFloat { prec : Z; val : Q }.

(** [new(big.Float).SetInt(x)]: the precision becomes the larger of
    [x.BitLen()] and 64, so the value is exact. *)
Definition SetInt (x : Z) : Float :=
  {| prec := Z.max (BitLen x) 64; val := inject_Z x |}.

(** [new(big.Float).Quo(x, y)] for a divisor other than zero: the precision
    becomes the larger of the operands', and the quotient is rounded to it. *)
Definition Quo (x y : Float) : Float :=
  let p := Z.max (prec x) (prec y) in
  {| prec := p; val := round p (val x / val y) |}.

(** A [float64] value: finite (its exact value) or infinite. *)
Inductive float64 : Type :=
| Finite (v : Q)
| Inf (negative : bool).

Definition emin : Z := (-1022)%Z.
Definition emax : Z := 1023%Z.

Section Float64.

(** Rounding into the subnormal range of [float64] (values below
    [2^emin]) is a parameter; the quotients computed by the aggregation never
    reach it. *)
Variable denormal : Q -> float64.

(** [x.Float64()]: round to the 53 bits of a normal [float64]; overflow gives
    an infinity. *)
Definition Float64 (x : Float) : float64 :=
  let v := val x in
  if Qeq_bool v 0 then Finite 0
  else if (ilog2 (Qabs v) <? emin)%Z then denormal v
  else
    let r := round 53 v in
    if (emax <? ilog2 (Qabs r))%Z then Inf (Qle_bool v 0) else Finite r.

End Float64.

End big.

(** ** Errors

    An [error] is either one produced by a collaborator (the node client, the
    context package), known by its text, or one built by
    [fmt.Errorf("<msg>%w", err)], which prefixes the text and keeps the wrapped
    error. *)

Inductive error : Type :=
| errorString (text : string)
| wrapError (msg : string) (err : error).

Fixpoint Error (e : error) : string :=
  match e with
  | errorString text => text
  | wrapError msg err => msg +:+ Error err
  end.

Definition Unwrap (e : error) : option error :=
  match e with
  | errorString _ => None
  | wrapError _ err => Some err
  end.

(** [time.Time] and [time.Duration]. *)
Abbreviation Time := Z (only parsing).
Abbreviation Duration := Z (only parsing).

(** ** Package entity *)

Module entity.

Record GasPrice : Type := mkGasPrice {
  GasPrice_Wei : option Z;          (* *big.Int; [None] is the nil pointer *)
  GasPrice_Gwei : big.float64
}.

Record Balance : Type := mkBalance {
  Balance_Wei : option Z;           (* *big.Int *)
  Balance_Ether : big.float64
}.

Record AddressInfo : Type := mkAddressInfo {
  Address : string;
  Info_GasPrice : GasPrice;
  CurrentBlock : Z;                 (* uint64 *)
  Info_Balance : Balance;
  Timestamp : Time
}.

End entity.

(** ** Package repository: what one invocation obtains from the node

    Each of the three calls made by an invocation returns a value or an
    error. *)

Module repository.

Inductive result (A : Type) : Type :=
| Ok (v : A)
| Failed (err : error).
Arguments Ok {A} v.
Arguments Failed {A} err.

Record EthereumRepository : Type := mkRepository {
  GetGasPrice : result Z;
  GetCurrentBlock : result Z;
  GetAddressBalance : string -> result Z
}.

End repository.

(** ** Package usecase: the fan-out / fan-in of GetAddressInfo

    Three goroutines each make one call; on an error they send on the
    buffered [errCh], otherwise they block sending on their own unbuffered
    channel.  The caller runs a [select] three times.  The interleaving is a
    list of events; [GetAddressInfo] replays it and gives the value returned,
    or [None] when the list is not a run of the program (an event that cannot
    happen there) or stops before the function returns. *)

Module usecase.

Import entity repository.

Inductive call : Type := gas_price | block_number | address_balance.

Inductive select_case : Type :=
| CaseDone          (* <-ctx.Done() *)
| CaseErr           (* err := <-errCh *)
| CaseGasPrice      (* gasPrice = <-gasPriceCh *)
| CaseBlockNumber   (* blockNumber = <-blockNumberCh *)
| CaseBalance.      (* balance = <-balanceCh *)

Inductive event : Type :=
| Returns (c : call)          (* the goroutine's call returns, it reaches its send *)
| Cancel (reason : error)     (* ctx is cancelled or expires; [reason] is ctx.Err() *)
| Select (c : select_case).   (* the select of the caller takes a ready case *)

(** [context.Canceled] and [context.DeadlineExceeded]. *)
Definition Canceled : error := errorString "context canceled".
Definition DeadlineExceeded : error := errorString "context deadline exceeded".

Record state : Type := mkState {
  spawned : list call;            (* goroutines whose call has not returned *)
  errCh : list error;             (* buffered channel, capacity 3 *)
  gasPriceCh : option Z;          (* a sender blocked on the channel *)
  blockNumberCh : option Z;
  balanceCh : option Z;
  ctx_err : option error;         (* ctx.Done() is closed *)
  i : nat;                        (* loop counter *)
  gasPrice : option Z;            (* var gasPrice *big.Int *)
  blockNumber : Z;                (* var blockNumber uint64 *)
  balance : option Z              (* var balance *big.Int *)
}.

(** What the function does once it stops: it returns the pair
    of an [AddressInfo] pointer and an error, or dereferences a nil
    [big.Int] pointer. *)
Inductive outcome : Type :=
| Return (info : option AddressInfo) (err : option error)
| Panic.

Definition call_eqb (a b : call) : bool :=
  match a, b with
  | gas_price, gas_price | block_number, block_number
  | address_balance, address_balance => true
  | _, _ => false
  end.

Definition remove_call (c : call) (l : list call) : list call :=
  List.filter (fun x => negb (call_eqb c x)) l.

Definition wrap_msg (c : call) : string :=
  match c with
  | gas_price => "failed to get gas price: "
  | block_number => "failed to get block number: "
  | address_balance => "failed to get balance: "
  end.

Section GetAddressInfo.

Variable denormal : Q -> big.float64.
Variable repo : EthereumRepository.
Variable address : string.
Variable now : Time.                (* time.Now() when the entity is built *)

Definition init : state :=
  {| spawned := [gas_price; block_number; address_balance];
     errCh := []; gasPriceCh := None; blockNumberCh := None; balanceCh := None;
     ctx_err := None; i := 0%nat;
     gasPrice := None; blockNumber := 0; balance := None |}.

Definition call_result (c : call) : result Z :=
  match c with
  | gas_price => GetGasPrice repo
  | block_number => GetCurrentBlock repo
  | address_balance => GetAddressBalance repo address
  end.

(** The body of a goroutine after its call has returned. *)
Definition goroutine (c : call) (st : state) : state :=
  let st := mkState (remove_call c (spawned st)) (errCh st) (gasPriceCh st)
              (blockNumberCh st) (balanceCh st) (ctx_err st) (i st)
              (gasPrice st) (blockNumber st) (balance st) in
  match call_result c with
  | Failed err =>
      mkState (spawned st) (errCh st ++ [wrapError (wrap_msg c) err])
        (gasPriceCh st) (blockNumberCh st) (balanceCh st) (ctx_err st) (i st)
        (gasPrice st) (blockNumber st) (balance st)
  | Ok v =>
      match c with
      | gas_price =>
          mkState (spawned st) (errCh st) (Some v) (blockNumberCh st)
            (balanceCh st) (ctx_err st) (i st) (gasPrice st) (blockNumber st)
            (balance st)
      | block_number =>
          mkState (spawned st) (errCh st) (gasPriceCh st) (Some v)
            (balanceCh st) (ctx_err st) (i st) (gasPrice st) (blockNumber st)
            (balance st)
      | address_balance =>
          mkState (spawned st) (errCh st) (gasPriceCh st) (blockNumberCh st)
            (Some v) (ctx_err st) (i st) (gasPrice st) (blockNumber st)
            (balance st)
      end
  end.

(** One round of the [select]: either the function returns, or a value is
    stored and the loop continues; [None] when the case is not ready. *)
Definition select (c : select_case) (st : state) : option (outcome + state) :=
  match c with
  | CaseDone =>
      match ctx_err st with
      | Some reason =>
          Some (inl (Return None (Some (wrapError "context cancelled: " reason))))
      | None => None
      end
  | CaseErr =>
      match errCh st with
      | err :: _ => Some (inl (Return None (Some err)))
      | [] => None
      end
  | CaseGasPrice =>
      match gasPriceCh st with
      | Some v =>
          Some (inr (mkState (spawned st) (errCh st) None (blockNumberCh st)
                       (balanceCh st) (ctx_err st) (S (i st)) (Some v)
                       (blockNumber st) (balance st)))
      | None => None
      end
  | CaseBlockNumber =>
      match blockNumberCh st with
      | Some v =>
          Some (inr (mkState (spawned st) (errCh st) (gasPriceCh st) None
                       (balanceCh st) (ctx_err st) (S (i st)) (gasPrice st)
                       v (balance st)))
      | None => None
      end
  | CaseBalance =>
      match balanceCh st with
      | Some v =>
          Some (inr (mkState (spawned st) (errCh st) (gasPriceCh st)
                       (blockNumberCh st) None (ctx_err st) (S (i st))
                       (gasPrice st) (blockNumber st) (Some v)))
      | None => None
      end
  end.

(** After the loop: the conversions and the entity. *)
Definition build (st : state) : outcome :=
  match gasPrice st, balance st with
  | Some g, Some b =>
      let gwei := big.Quo (big.SetInt g) (big.SetInt 1000000000) in
      let ether := big.Quo (big.SetInt b) (big.SetInt 1000000000000000000) in
      let gweiFloat := big.Float64 denormal gwei in
      let etherFloat := big.Float64 denormal ether in
      Return (Some {| Address := address;
                      Info_GasPrice := {| GasPrice_Wei := Some g;
                                          GasPrice_Gwei := gweiFloat |};
                      CurrentBlock := blockNumber st;
                      Info_Balance := {| Balance_Wei := Some b;
                                         Balance_Ether := etherFloat |};
                      Timestamp := now |})
             None
  | _, _ => Panic
  end.

(** Replaying a list of events: the function has returned ([inl]), or is
    still waiting in its loop ([inr]); [None] when an event cannot happen. *)
Fixpoint run (events : list event) (st : state) : option (outcome + state) :=
  if (3 <=? i st)%nat then Some (inl (build st))
  else
    match events with
    | [] => Some (inr st)
    | Returns c :: events' =>
        if existsb (call_eqb c) (spawned st) then run events' (goroutine c st)
        else None
    | Cancel reason :: events' =>
        match ctx_err st with
        | None =>
            run events'
              (mkState (spawned st) (errCh st) (gasPriceCh st)
                 (blockNumberCh st) (balanceCh st) (Some reason) (i st)
                 (gasPrice st) (blockNumber st) (balance st))
        | Some _ => None
        end
    | Select c :: events' =>
        match select c st with
        | Some (inl out) => Some (inl out)
        | Some (inr st') => run events' st'
        | None => None
        end
    end.

Definition GetAddressInfo (events : list event) : option outcome :=
  match run events init with
  | Some (inl out) => Some out
  | _ => None
  end.

End GetAddressInfo.

End usecase.

(** ** Package persistence: the repository's own GetAddressInfo

    It is the same function over the repository's three methods. *)

Module persistence.

Definition GetAddressInfo := usecase.GetAddressInfo.

End persistence.

(** ** gin: the part of the request context the handlers use

    [Writer] records, in order, each response written on the context (status
    code and JSON body); [aborted] is the effect of [c.Abort()]. *)

Module gin.

#[local] Unset Elimination Schemes.
Inductive json : Type :=
| JString (s : string)
| JInt (n : Z)
| JFloat (f : big.float64)
| JObject (members : list (string * json)).
#[local] Set Elimination Schemes.

Record Context : Type := mkContext {
  Params : gmap string string;
  Keys : gmap string string;
  Writer : list (Z * json);
  aborted : bool
}.

Definition Param (c : Context) (key : string) : string :=
  default EmptyString (Params c !! key).

Definition Get (c : Context) (key : string) : option string := Keys c !! key.

(** [c.JSON(code, obj)] for a value that encoding/json accepts: strings,
    integers and finite [float64] values, and objects of these.  (It accepts
    no infinite [float64]; the aggregation gives none for amounts below
    [2^256].) *)
Definition JSON (code : Z) (obj : json) (c : Context) : Context :=
  mkContext (Params c) (Keys c) (Writer c ++ [(code, obj)]) (aborted c).

Definition Abort (c : Context) : Context :=
  mkContext (Params c) (Keys c) (Writer c) true.

Definition AbortWithStatusJSON (code : Z) (obj : json) (c : Context) : Context :=
  JSON code obj (Abort c).

(** A handler returns, or panics with a value (and the stack at that point),
    leaving the context as it then is. *)
Inductive completion : Type :=
| Returned (c : Context)
| Panicked (value stack : string) (c : Context).

Definition HandlerFunc : Type := Context -> completion.

End gin.

(** ** Package response *)

Module response.

Import gin entity.

Record Response : Type := mkResponse {
  Status : string;
  Message : string;                      (* omitempty *)
  Data : option json;                    (* interface, omitempty *)
  Error_ : string                        (* json "error", omitempty *)
}.

Definition omitempty (key value : string) : list (string * json) :=
  if String.eqb value EmptyString then [] else [(key, JString value)].

(** The JSON encoding of a [Response], member by member. *)
Definition encode (r : Response) : json :=
  JObject ([("status", JString (Status r))]
           ++ omitempty "message" (Message r)
           ++ match Data r with Some d => [("data", d)] | None => [] end
           ++ omitempty "error" (Error_ r)).

Definition NewErrorResponse (c : Context) (statusCode : Z) (message : string)
    (err : option error) : Context :=
  let errMsg := match err with Some e => Error e | None => EmptyString end in
  JSON statusCode
    (encode {| Status := "error"; Message := message; Data := None;
               Error_ := errMsg |}) c.

Definition NewSuccessResponse (c : Context) (statusCode : Z) (data : json)
    : Context :=
  JSON statusCode
    (encode {| Status := "success"; Message := EmptyString; Data := Some data;
               Error_ := EmptyString |}) c.

(** [(x *big.Int).String()]: decimal, ["<nil>"] for the nil pointer. *)
Definition Int_String (x : option Z) : string :=
  match x with
  | Some z => NilZero.string_of_int (Z.to_int z)
  | None => "<nil>"
  end.

Section FormatAddressInfo.

(** [t.Format(time.RFC3339)]. *)
Variable RFC3339 : Time -> string.

Definition FormatAddressInfo (info : AddressInfo) : json :=
  JObject
    [ ("address", JString (Address info));
      ("gasPrice",
        JObject [ ("wei", JString (Int_String (GasPrice_Wei (Info_GasPrice info))));
                  ("gwei", JFloat (GasPrice_Gwei (Info_GasPrice info))) ]);
      ("currentBlock", JInt (CurrentBlock info));
      ("balance",
        JObject [ ("wei", JString (Int_String (Balance_Wei (Info_Balance info))));
                  ("ether", JFloat (Balance_Ether (Info_Balance info))) ]);
      ("timestamp", JString (RFC3339 (Timestamp info))) ].

End FormatAddressInfo.

Definition StatusOK : Z := 200.
Definition StatusBadRequest : Z := 400.
Definition StatusRequestTimeout : Z := 408.
Definition StatusTooManyRequests : Z := 429.
Definition StatusInternalServerError : Z := 500.

Definition BadRequest (c : Context) (message : string) (err : option error)
    : Context :=
  NewErrorResponse c StatusBadRequest message err.

Definition Success (c : Context) (data : json) : Context :=
  NewSuccessResponse c StatusOK data.

Definition InternalServerError (c : Context) (err : error) : Context :=
  NewErrorResponse c StatusInternalServerError "Internal server error" (Some err).

Definition TooManyRequests (c : Context) : Context :=
  NewErrorResponse c StatusTooManyRequests
    "Rate limit exceeded. Try again later." None.

End response.

(** ** Package handler *)

Module handler.

Import gin validator.

Section GetAddressInfo.

Variable TrimFunc_IsSpace : string -> string.
Variable TrimRightFunc_IsSpace : string -> string.
Variable Map_ToLower : string -> string.
Variable RFC3339 : Time -> string.

(** [h.useCase.GetAddressInfo(ctx, address)]: what this invocation gives. *)
Variable useCase : string -> usecase.outcome.

Definition GetAddressInfo (c : Context) : completion :=
  let address := Param c "address" in
  if negb (IsValidAddress address) then
    Returned (response.BadRequest c "Invalid Ethereum address format" None)
  else
    let address :=
      FormatAddress TrimFunc_IsSpace TrimRightFunc_IsSpace Map_ToLower address in
    match useCase address with
    | usecase.Panic =>
        Panicked "runtime error: invalid memory address or nil pointer dereference"
          "" c
    | usecase.Return _ (Some err) =>
        Returned (response.InternalServerError c err)
    | usecase.Return None None =>
        Panicked "runtime error: invalid memory address or nil pointer dereference"
          "" c
    | usecase.Return (Some addressInfo) None =>
        let formattedResponse := response.FormatAddressInfo RFC3339 addressInfo in
        Returned (response.Success c formattedResponse)
    end.

End GetAddressInfo.

End handler.

(** ** Package middleware *)

Module middleware.

Import gin.

(** *** Slices of [time.Time]

    A slice is its backing array (whose length is the capacity) and its
    length; its elements are the first [len] cells of the array. *)

Record slice : Type := mkSlice { array : list Time; len : nat }.

Definition cap (s : slice) : nat := length (array s).
Definition elems (s : slice) : list Time := take (len s) (array s).

(** [time.Time{}], the content of a fresh cell. *)
Definition zeroTime : Time := 0.

(** [make([]time.Time, 0, n)] and the nil slice. *)
Definition make (n : nat) : slice := mkSlice (replicate n zeroTime) 0.
Definition nil_slice : slice := mkSlice [] 0.

(** [t.After(u)]. *)
Definition After (t u : Time) : bool := bool_decide (u < t).

Inductive verdict : Type :=
| Next                (* c.Next(): the request goes on *)
| TooManyRequests     (* 429 and c.Abort() *)
| MakePanics          (* make with a negative capacity panics, mutex held *)
| Blocks.             (* rl.mu.Lock() never returns *)

Record RateLimiter : Type := mkRateLimiter {
  ips : gmap string slice;
  limit : Z;
  window : Duration;
  mu : bool;                            (* the mutex is held *)
  whitelistIPs : gmap string bool
}.

Definition set_ips (rl : RateLimiter) (m : gmap string slice) : RateLimiter :=
  mkRateLimiter m (limit rl) (window rl) (mu rl) (whitelistIPs rl).

Definition set_whitelistIPs (rl : RateLimiter) (m : gmap string bool)
    : RateLimiter :=
  mkRateLimiter (ips rl) (limit rl) (window rl) (mu rl) m.

Definition hold_mu (rl : RateLimiter) : RateLimiter :=
  mkRateLimiter (ips rl) (limit rl) (window rl) true (whitelistIPs rl).

(** The cleanup goroutine started by the constructor is the [Sweep]
    operation of [serve] below. *)
Definition NewRateLimiter (limit : Z) (window : Duration) : RateLimiter :=
  {| ips := ∅; limit := limit; window := window; mu := false;
     whitelistIPs := ∅ |}.

Definition AddToWhitelist (rl : RateLimiter) (ip : string) : RateLimiter :=
  if mu rl then rl else set_whitelistIPs rl (<[ip := true]> (whitelistIPs rl)).

Definition RemoveFromWhitelist (rl : RateLimiter) (ip : string) : RateLimiter :=
  if mu rl then rl else set_whitelistIPs rl (delete ip (whitelistIPs rl)).

(** [rl.whitelistIPs[ip]]. *)
Definition whitelisted (rl : RateLimiter) (ip : string) : bool :=
  default false (whitelistIPs rl !! ip).

(** The two slice headers of the pruning loop of [Limit]: [rl.ips[ip]] and
    [validRequests], which starts as [rl.ips[ip][:0]] and so shares the backing
    array for as long as [append] writes in place. *)
Record pruning : Type := mkPruning {
  stored : slice;               (* rl.ips[ip] *)
  validRequests : slice;
  shared : bool                 (* both headers point to one array *)
}.

Section append.

(** How many spare cells [append] allocates beyond the length it needs. *)
Variable spare : nat -> nat.

Definition append (s : slice) (t : Time) : slice :=
  if bool_decide (len s < cap s)%nat then
    mkSlice (<[len s := t]> (array s)) (S (len s))
  else
    mkSlice (elems s ++ t :: replicate (spare (S (len s))) zeroTime) (S (len s)).

(** [validRequests = append(validRequests, t)]: a write in place is seen
    through [rl.ips[ip]] too. *)
Definition append_valid (p : pruning) (t : Time) : pruning :=
  let v := append (validRequests p) t in
  if shared p && bool_decide (len (validRequests p) < cap (validRequests p))%nat
  then mkPruning (mkSlice (array v) (len (stored p))) v true
  else mkPruning (stored p) v false.

(** [for _, t := range rl.ips[ip]]: [n] more cells from index [idx], each
    read from the array as it is at that moment. *)
Fixpoint prune (windowStart : Time) (idx n : nat) (p : pruning) : pruning :=
  match n with
  | O => p
  | S n' =>
      match array (stored p) !! idx with
      | Some t =>
          prune windowStart (S idx) n'
            (if After t windowStart then append_valid p t else p)
      | None => p
      end
  end.

Definition Limit (rl : RateLimiter) (ip : string) (now : Time)
    : verdict * RateLimiter :=
  if mu rl then (Blocks, rl)
  else if whitelisted rl ip then (Next, rl)
  else
    match
      match ips rl !! ip with
      | Some s => Some (s, ips rl)
      | None =>
          if limit rl <? 0 then None
          else
            let s := make (Z.to_nat (limit rl)) in
            Some (s, <[ip := s]> (ips rl))
      end
    with
    | None => (MakePanics, hold_mu rl)
    | Some (s, m) =>
        let windowStart := now - window rl in
        let p := prune windowStart 0 (len s)
                   (mkPruning s (mkSlice (array s) 0) true) in
        if limit rl <=? Z.of_nat (len (validRequests p)) then
          (TooManyRequests, set_ips rl (<[ip := stored p]> m))
        else
          (Next, set_ips rl (<[ip := append (validRequests p) now]> m))
    end.

(** The body of the loop of [cleanup] for one entry. *)
Definition validTimes (windowStart : Time) (times : slice) : slice :=
  foldl (fun v t => if After t windowStart then append v t else v)
    nil_slice (elems times).

Definition cleanup (rl : RateLimiter) (now : Time) : RateLimiter :=
  if mu rl then rl
  else
    let windowStart := now - window rl in
    set_ips rl
      (map_fold
         (fun ip times m =>
            let v := validTimes windowStart times in
            if Nat.eqb (len v) 0 then delete ip m else <[ip := v]> m)
         (ips rl) (ips rl)).

(** *** Runs of a limiter *)

Inductive op : Type :=
| Request (ip : string) (now : Time)      (* a request reaches [Limit] *)
| Sweep (now : Time)                      (* the background [cleanup] *)
| Whitelist (ip : string)
| Unwhitelist (ip : string).

(** The limiter after a run, with the requests that were let through. *)
Fixpoint serve (ops : list op) (rl : RateLimiter) (admitted : list (string * Time))
    : RateLimiter * list (string * Time) :=
  match ops with
  | [] => (rl, admitted)
  | Request ip now :: ops' =>
      match Limit rl ip now with
      | (Next, rl') => serve ops' rl' (admitted ++ [(ip, now)])
      | (_, rl') => serve ops' rl' admitted
      end
  | Sweep now :: ops' => serve ops' (cleanup rl now) admitted
  | Whitelist ip :: ops' => serve ops' (AddToWhitelist rl ip) admitted
  | Unwhitelist ip :: ops' => serve ops' (RemoveFromWhitelist rl ip) admitted
  end.

(** The verdicts of successive calls of [Limit]. *)
Fixpoint verdicts (requests : list (string * Time)) (rl : RateLimiter)
    : list verdict :=
  match requests with
  | [] => []
  | (ip, now) :: requests' =>
      (Limit rl ip now).1 :: verdicts requests' (Limit rl ip now).2
  end.

End append.

(** One second, as a [time.Duration] (nanoseconds). *)
Definition Second : Duration := 1000000000.

(** The timestamps stored for an identity. *)
Definition timestamps (rl : RateLimiter) (ip : string) : list Time :=
  match ips rl !! ip with
  | Some s => elems s
  | None => []
  end.

(** The requests of [ip] among those let through. *)
Definition admitted_for (ip : string) (admitted : list (string * Time))
    : list Time :=
  (filter (fun e => e.1 = ip) admitted).*2.

Definition in_window (windowStart : Time) (l : list Time) : list Time :=
  filter (fun t => windowStart < t) l.

(** A slice header is valid when its length is within its capacity; in a
    limiter every stored slice is valid and no longer than [limit]. *)
Definition slice_ok (s : slice) : Prop := (len s <= cap s)%nat.

Definition limiter_ok (rl : RateLimiter) : Prop :=
  forall ip s, ips rl !! ip = Some s -> slice_ok s /\ Z.of_nat (len s) <= limit rl.

(** *** Recovery *)

(** A record written by the logger: level, message and fields. *)
Record Entry : Type := mkEntry {
  level : string;
  message : string;
  fields : list (string * option string)
}.

Definition RequestIDKey : string := "requestID".

(** [gin.H{"status": "error", "message": msg}], encoded with sorted keys. *)
Definition error_H (msg : string) : json :=
  JObject [("message", JString msg); ("status", JString "error")].

(** [Recovery(logger)]: the context after the middleware and what it logged. *)
Definition Recovery (next : HandlerFunc) (c : Context) : Context * list Entry :=
  match next c with
  | Returned c' => (c', [])
  | Panicked err stack c' =>
      let requestID := Get c' RequestIDKey in
      (AbortWithStatusJSON response.StatusInternalServerError
         (error_H "Internal server error") c',
       [ mkEntry "error" "Panic recovered"
           [ ("request_id", requestID); ("error", Some err);
             ("stack", Some stack) ] ])
  end.

(** *** Timeout

    The middleware starts a goroutine that runs [c.Next()] on the same
    context and closes [done], then waits in a [select] for [done] or for
    [ctx.Done()].  [next] is the handler that [c.Next()] dispatches. *)

Inductive worker : Type :=
| Spawned           (* the goroutine has not entered c.Next() *)
| Running           (* the handler is in flight *)
| Closed            (* c.Next() has returned and done is closed *)
| Crashed.          (* the handler panicked in the goroutine *)

Inductive timeout_event : Type :=
| Dispatch          (* c.Next() dispatches the handler, unless c is aborted *)
| Complete          (* the handler in flight finishes *)
| Expire            (* ctx.Done() is closed: the timeout has elapsed *)
| SelectDone        (* case <-done *)
| SelectCtxDone.    (* case <-ctx.Done() *)

Record timeout_state : Type := mkTimeout {
  ctx : Context;                (* the context, shared by both goroutines *)
  goroutine : worker;
  ctx_done : bool;
  returned : bool               (* the middleware has returned *)
}.

Definition timeout_step (next : HandlerFunc) (e : timeout_event)
    (st : timeout_state) : option timeout_state :=
  match e with
  | Dispatch =>
      match goroutine st with
      | Spawned =>
          Some (mkTimeout (ctx st)
                  (if aborted (ctx st) then Closed else Running)
                  (ctx_done st) (returned st))
      | _ => None
      end
  | Complete =>
      match goroutine st with
      | Running =>
          match next (ctx st) with
          | Returned c' => Some (mkTimeout c' Closed (ctx_done st) (returned st))
          | Panicked _ _ c' =>
              Some (mkTimeout c' Crashed (ctx_done st) (returned st))
          end
      | _ => None
      end
  | Expire =>
      if ctx_done st then None
      else Some (mkTimeout (ctx st) (goroutine st) true (returned st))
  | SelectDone =>
      match goroutine st, returned st with
      | Closed, false => Some (mkTimeout (ctx st) Closed true true)
      | _, _ => None
      end
  | SelectCtxDone =>
      if ctx_done st && negb (returned st) then
        Some (mkTimeout
                (AbortWithStatusJSON response.StatusRequestTimeout
                   (error_H "Request timed out") (ctx st))
                (goroutine st) true true)
      else None
  end.

(** The state after a schedule; [None] when it is not a run. *)
Fixpoint Timeout (next : HandlerFunc) (events : list timeout_event)
    (st : timeout_state) : option timeout_state :=
  match events with
  | [] => Some st
  | e :: events' =>
      match timeout_step next e st with
      | Some st' => Timeout next events' st'
      | None => None
      end
  end.

Definition timeout_init (c : Context) : timeout_state :=
  mkTimeout c Spawned false false.

(** What the stored timestamps of a limiter have to do with the requests let
    through so far. *)
Definition run_ok (rl : RateLimiter) (adm : list (string * Time)) : Prop :=
  limiter_ok rl /\
  (mu rl = true -> limit rl < 0) /\
  forall ip : string, timestamps rl ip `sublist_of` admitted_for ip adm.

(** A limiter ready to serve [ip], with the timestamps [ts] stored for it. *)
Definition ready (rl : RateLimiter) (lim : Z) (win : Duration) (ip : string)
    (ts : list Time) : Prop :=
  limiter_ok rl /\ mu rl = false /\ limit rl = lim /\ window rl = win /\
  whitelisted rl ip = false /\ timestamps rl ip = ts.

End middleware.

(** * Specification-side notions *)

Module spec.

(** The hexadecimal characters, listed. *)
Definition hex_chars : list ascii := list_ascii_of_string "0123456789abcdefABCDEF".

Definition hex_digit (c : ascii) : Prop := In c hex_chars.

Fixpoint all_hex (s : string) : Prop :=
  match s with
  | EmptyString => True
  | String c s' => hex_digit c /\ all_hex s'
  end.

(** ASCII lower-casing, by table. *)
Fixpoint translate (from to : list ascii) (c : ascii) : ascii :=
  match from, to with
  | f :: from', t :: to' => if Ascii.eqb c f then t else translate from' to' c
  | _, _ => c
  end.

Definition lowercase_char : ascii -> ascii :=
  translate (list_ascii_of_string "ABCDEFGHIJKLMNOPQRSTUVWXYZ")
            (list_ascii_of_string "abcdefghijklmnopqrstuvwxyz").

Fixpoint lowercase (s : string) : string :=
  match s with
  | EmptyString => EmptyString
  | String c s' => String (lowercase_char c) (lowercase s')
  end.

(** The class of the address pattern. *)
Definition hex_class : regexp.atom :=
  regexp.Class [("0", "9"); ("a", "f"); ("A", "F")]%char.

(** Every byte of a valid address is an ASCII byte that is not a space. *)
Fixpoint all_plain (s : string) : Prop :=
  match s with
  | EmptyString => True
  | String c s' =>
      ((byte_val c <? RuneSelf) = true /\ strings.asciiSpace c = false) /\ all_plain s'
  end.

End spec.

(** What the aggregation promises, and the invariant of its runs. *)

Module aggregation.

Import entity repository usecase.

Section claims.

Variable denormal : Q -> big.float64.
Variable repo : EthereumRepository.
Variable address : string.
Variable now : Time.

(** A fully populated entity: the three values obtained from the node, their
    conversions, the address and the time. *)
Definition populated (info : AddressInfo) : Prop :=
  exists g b a,
    GetGasPrice repo = Ok g /\ GetCurrentBlock repo = Ok b /\
    GetAddressBalance repo address = Ok a /\
    info =
      {| Address := address;
         Info_GasPrice :=
           {| GasPrice_Wei := Some g;
              GasPrice_Gwei :=
                big.Float64 denormal
                  (big.Quo (big.SetInt g) (big.SetInt 1000000000)) |};
         CurrentBlock := b;
         Info_Balance :=
           {| Balance_Wei := Some a;
              Balance_Ether :=
                big.Float64 denormal
                  (big.Quo (big.SetInt a) (big.SetInt 1000000000000000000)) |};
         Timestamp := now |}.

(** An error that names the call that failed, and wraps the error of that
    call. *)
Definition names_failed_call (e : error) : Prop :=
  exists c e0,
    call_result repo address c = Failed e0 /\ e = wrapError (wrap_msg c) e0.

(** Everything, or one error naming the failed call. *)
Definition all_or_named_error (out : outcome) : Prop :=
  (exists info, out = Return (Some info) None /\ populated info) \/
  (exists e, out = Return None (Some e) /\ names_failed_call e).

(** The error returned because the context was cancelled or expired during
    the run. *)
Definition cancelled_error (events : list event) (out : outcome) : Prop :=
  exists reason,
    In (Cancel reason) events /\
    out = Return None (Some (wrapError "context cancelled: " reason)).

(** Everything, or one error: naming the failed call, or of the context. *)
Definition all_or_one_error (events : list event) (out : outcome) : Prop :=
  all_or_named_error out \/ cancelled_error events out.

(** A run in which every call returns before the caller selects. *)
Definition calls_first : list event :=
  [Returns gas_price; Returns block_number; Returns address_balance] ++
  match GetGasPrice repo, GetCurrentBlock repo, GetAddressBalance repo address with
  | Ok _, Ok _, Ok _ =>
      [Select CaseGasPrice; Select CaseBlockNumber; Select CaseBalance]
  | _, _, _ => [Select CaseErr]
  end.

(** A value waiting on the channel of [c] is the one the call returned, and
    the goroutine of [c] is past its call ([sp] lists the goroutines that are
    not). *)
Definition sender_ok (sp : list call) (c : call) (ch : option Z) : Prop :=
  forall v, ch = Some v -> call_result repo address c = Ok v /\ ~ In c sp.

(** Once the value of [c] has been received, its channel stays empty. *)
Definition received_ok (sp : list call) (c : call) (ch : option Z) (got : bool)
    (var : option Z) : Prop :=
  got = true ->
  (exists v, var = Some v /\ call_result repo address c = Ok v) /\
  ch = None /\ ~ In c sp.

Definition run_inv (st : state) : Prop :=
  (forall e, In e (errCh st) -> names_failed_call e) /\
  sender_ok (spawned st) gas_price (gasPriceCh st) /\
  sender_ok (spawned st) block_number (blockNumberCh st) /\
  sender_ok (spawned st) address_balance (balanceCh st) /\
  exists got_gas got_block got_balance : bool,
    i st = (Nat.b2n got_gas + Nat.b2n got_block + Nat.b2n got_balance)%nat /\
    received_ok (spawned st) gas_price (gasPriceCh st) got_gas (gasPrice st) /\
    received_ok (spawned st) block_number (blockNumberCh st) got_block
      (Some (blockNumber st)) /\
    received_ok (spawned st) address_balance (balanceCh st) got_balance
      (balance st).

(** Every call is accounted for once: its goroutine has not returned, or its
    error is queued, or its value waits on its channel, or it was received. *)
Definition waiting (ch : option Z) : nat :=
  match ch with Some _ => 1 | None => 0 end.

Definition accounted (st : state) : Prop :=
  NoDup (spawned st) /\
  (i st + length (spawned st)
   + (waiting (gasPriceCh st) + waiting (blockNumberCh st)
      + waiting (balanceCh st))
   + length (errCh st) = 3)%nat.

End claims.

(** A node that answers every call, and a node whose gas price call fails. *)
Definition node_ok : EthereumRepository :=
  {| GetGasPrice := Ok 12000000000;
     GetCurrentBlock := Ok 19000000;
     GetAddressBalance := fun _ => Ok 2500000000000000000 |}.

Definition node_down : EthereumRepository :=
  {| GetGasPrice := Failed (errorString "connection refused");
     GetCurrentBlock := Ok 19000000;
     GetAddressBalance := fun _ => Ok 2500000000000000000 |}.

Definition no_denormal : Q -> big.float64 := fun _ => big.Finite 0.

Definition zero_address : string := "0x0000000000000000000000000000000000000000".

(** The entity built from the answers of [node_ok] at time 0. *)
Definition entity_ok : AddressInfo :=
  {| Address := zero_address;
     Info_GasPrice := {| GasPrice_Wei := Some 12000000000;
                         GasPrice_Gwei := big.Finite 12 |};
     CurrentBlock := 19000000;
     Info_Balance := {| Balance_Wei := Some 2500000000000000000;
                        Balance_Ether := big.Finite (5 # 2) |};
     Timestamp := 0 |}.

End aggregation.

(** What a caller may see of a failure. *)

Module disclosure.

Import gin.

(** A body that carries nothing but the generic message: its members are
    the status ["error"] and the message ["Internal server error"]. *)
Definition generic_body (body : json) : Prop :=
  exists members,
    body = JObject members /\
    forall k v, In (k, v) members ->
      (k = "status" /\ v = JString "error") \/
      (k = "message" /\ v = JString "Internal server error").

(** The body of an upstream failure as the handler writes it. *)
Definition upstream_failure_body (err : error) : json :=
  JObject ([("status", JString "error");
            ("message", JString "Internal server error")]
           ++ response.omitempty "error" (Error err)).

(** A request for [address]. *)
Definition request (address : string) : Context :=
  mkContext {["address" := address]} ∅ [] false.

(** A use case whose call of the node for the gas price fails. *)
Definition failing_useCase (address : string) : usecase.outcome :=
  default usecase.Panic
    (usecase.GetAddressInfo aggregation.no_denormal aggregation.node_down
       address 0 [usecase.Returns usecase.gas_price; usecase.Select usecase.CaseErr]).

(** A use case that succeeds (every call returns, then the three values are
    received). *)
Definition succeeding_useCase (address : string) : usecase.outcome :=
  default usecase.Panic
    (usecase.GetAddressInfo aggregation.no_denormal aggregation.node_ok
       address 0 (aggregation.calls_first aggregation.node_ok address)).

Definition a_timestamp : Time -> string := fun _ => "2025-01-01T00:00:00Z".

End disclosure.


(** * The limits and windows the model of the limiter covers

    [middleware.Limit] takes [make([]time.Time, 0, rl.limit)] to return for
    every capacity that is not negative, and [middleware.Limit] and
    [middleware.cleanup] compute [now.Add(-rl.window)] as [now - window].  The
    program does so for the limits and windows below; the properties that
    depend on it are stated for these. *)

Module runtime.

(** A capacity for which [make([]time.Time, 0, n)] returns: at most [2^20]
    timestamps (24 MiB).  Beyond maxAlloc / 24 [make] panics with "cap out of
    range", as it does for a negative capacity, and a large allocation below
    that can exhaust memory. *)
Definition MaxLimit : Z := 2 ^ 20.

(** The least [time.Duration], the one value whose negation wraps (to
    itself): for every other window [now.Add(-rl.window)] is the instant
    [now - window]. *)
Definition MinDuration : Duration := - 2 ^ 63.

End runtime.

(** * Further notions: runs of the limiter in time *)

Module schedule.

Import middleware.

(** The instant at which an operation of a run takes place: [time.Now()] in
    [Limit] and in [cleanup]; the whitelist operations read no clock. *)
Definition op_time (o : op) : option Time :=
  match o with
  | Request _ now | Sweep now => Some now
  | Whitelist _ | Unwhitelist _ => None
  end.

(** The clock does not go back: each operation reads an instant that is not
    before the one read by the operation before it, nor before [last]. *)
Fixpoint chronological (last : Time) (ops : list op) : Prop :=
  match ops with
  | [] => True
  | o :: ops' =>
      match op_time o with
      | Some now => last <= now /\ chronological now ops'
      | None => chronological last ops'
      end
  end.

(** The instant read by the last operation of a run that starts at [last]. *)
Fixpoint last_time (last : Time) (ops : list op) : Time :=
  match ops with
  | [] => last
  | o :: ops' => last_time (default last (op_time o)) ops'
  end.

(** In a run in time, what is stored for an identity that the run never
    whitelists agrees, in every window that can still matter, with the
    requests of that identity let through. *)
Definition tracks (rl : RateLimiter) (adm : list (string * Time)) (ip : string)
    (last : Time) : Prop :=
  whitelisted rl ip = false /\
  forall W, last - window rl <= W ->
    in_window W (timestamps rl ip) = in_window W (admitted_for ip adm).

(** A run without its sweeps. *)
Fixpoint without_sweeps (ops : list op) : list op :=
  match ops with
  | [] => []
  | Sweep _ :: ops' => without_sweeps ops'
  | o :: ops' => o :: without_sweeps ops'
  end.

(** Two limiters that no request made at [last] or later can tell apart. *)
Definition same_view (last : Time) (rl1 rl2 : RateLimiter) : Prop :=
  limiter_ok rl1 /\ limiter_ok rl2 /\ mu rl1 = false /\ mu rl2 = false /\
  limit rl1 = limit rl2 /\ window rl1 = window rl2 /\
  whitelistIPs rl1 = whitelistIPs rl2 /\
  forall ip W, last - window rl1 <= W ->
    in_window W (timestamps rl1 ip) = in_window W (timestamps rl2 ip).

End schedule.

(** * Further notions: the shape of a formatted address, the contexts of a
    timed request *)

Module shape.

Import strings.

(** No ASCII space at the start, resp. at the end, of a string. *)
Definition no_space_at_start (s : string) : bool :=
  match s with
  | EmptyString => true
  | String c _ => negb (asciiSpace c)
  end.

Fixpoint no_space_at_end (s : string) : bool :=
  match s with
  | EmptyString => true
  | String c EmptyString => negb (asciiSpace c)
  | String _ s' => no_space_at_end s'
  end.

End shape.

Module timed.

Import gin middleware.

(** The context a handler leaves, however it stops. *)
Definition context_of (k : completion) : Context :=
  match k with
  | Returned c => c
  | Panicked _ _ c => c
  end.

(** The context after the 408 response of [Timeout]. *)
Definition timed_out (c : Context) : Context :=
  AbortWithStatusJSON response.StatusRequestTimeout
    (error_H "Request timed out") c.

(** The state of the goroutine once the handler has stopped. *)
Definition stopped (k : completion) : worker :=
  match k with
  | Returned _ => Closed
  | Panicked _ _ _ => Crashed
  end.

(** The states of [Timeout] after the events [evs], for a request that
    arrives with the context [c]: before the select, after [case <-done],
    after [case <-ctx.Done()]. *)
Definition run_shape (next : HandlerFunc) (c : Context)
    (evs : list timeout_event) (st : timeout_state) : Prop :=
  let handled := context_of (next c) in
  (~ In SelectDone evs /\ ~ In SelectCtxDone evs /\ returned st = false /\
   (goroutine st = Spawned /\ ctx st = c \/
    goroutine st = Running /\ ctx st = c /\ aborted c = false \/
    goroutine st = Closed /\ ctx st = c /\ aborted c = true \/
    goroutine st = stopped (next c) /\ ctx st = handled /\ aborted c = false)) \/
  (In SelectDone evs /\ ~ In SelectCtxDone evs /\ returned st = true /\
   goroutine st = Closed /\
   (ctx st = c /\ aborted c = true \/
    aborted c = false /\ next c = Returned (ctx st))) \/
  (~ In SelectDone evs /\ In SelectCtxDone evs /\ returned st = true /\
   (goroutine st = Spawned /\ ctx st = timed_out c \/
    goroutine st = Running /\ ctx st = timed_out c /\ aborted c = false \/
    goroutine st = Closed /\ ctx st = timed_out c \/
    goroutine st = stopped (next c) /\ ctx st = timed_out handled /\
      aborted c = false \/
    goroutine st = stopped (next (timed_out c)) /\
      ctx st = context_of (next (timed_out c)) /\ aborted c = false)).

End timed.

(** * The rest of the HTTP layer

    - [strings_more] : strings.Contains and strings.Split
    - [http], [chain] : the request as the middleware reads it, and gin's
      context together with the request and the response headers
    - [auth] : APIKeyAuth
    - [guards] : Limit as a gin handler, ContentTypeEnforcer, CacheControl
    - [config] : the authentication settings read by LoadConfig
    - [router] : what registerRoutes builds *)

Module strings_more.

Import strings.

(** [strings.Contains(s, substr)]: [substr] occurs somewhere in [s]. *)
Fixpoint Contains (s substr : string) : bool :=
  HasPrefix s substr ||
  match s with
  | EmptyString => false
  | String _ s' => Contains s' substr
  end.

(** [strings.Split(s, sep)] for a separator of one byte, which is what both
    calls in LoadConfig pass: the pieces between the separators, so one piece
    more than there are separators. *)
Fixpoint Split (s : string) (sep : ascii) : list string :=
  match s with
  | EmptyString => [EmptyString]
  | String c s' =>
      if Ascii.eqb c sep then EmptyString :: Split s' sep
      else
        match Split s' sep with
        | piece :: rest => String c piece :: rest
        | [] => [String c EmptyString]
        end
  end.

End strings_more.

Module http.

(** What the middleware reads of a request: [c.Request.Method],
    [c.GetHeader(key)] and [c.Query(key)] (both give the empty string when
    the header or the parameter is absent), and [c.ClientIP()]. *)
Record Request : Type := mkRequest {
  Method : string;
  GetHeader : string -> string;
  Query : string -> string;
  ClientIP : string
}.

Definition StatusUnauthorized : Z := 401.
Definition StatusUnsupportedMediaType : Z := 415.

End http.

Module chain.

Import gin.

(** A request in flight: the request, gin's context, and the header map of
    the response writer. *)
Record Exchange : Type := mkExchange {
  Request : http.Request;
  context : Context;
  Header : gmap string string
}.

(** A handler of the chain returns or panics, as in [gin.completion]. *)
Inductive result : Type :=
| Done (e : Exchange)
| Panics (value stack : string) (e : Exchange).

Definition Handler : Type := Exchange -> result.

Definition with_context (e : Exchange) (c : Context) : Exchange :=
  mkExchange (Request e) c (Header e).

(** [c.Header(key, value)]: an empty value deletes the header. *)
Definition SetHeader (key value : string) (e : Exchange) : Exchange :=
  mkExchange (Request e) (context e)
    (if String.eqb value EmptyString then delete key (Header e)
     else <[key := value]> (Header e)).

(** [c.Set(key, value)]. *)
Definition Set_ (key value : string) (e : Exchange) : Exchange :=
  let c := context e in
  with_context e (mkContext (Params c) (<[key := value]> (Keys c)) (Writer c)
                    (aborted c)).

(** [c.Next()]: the handlers that remain are run unless the context has been
    aborted. *)
Definition Next (next : Handler) (e : Exchange) : result :=
  if aborted (context e) then Done e else next e.

(** [c.AbortWithStatusJSON(code, obj)]. *)
Definition AbortWithStatusJSON (code : Z) (obj : json) (e : Exchange) : Exchange :=
  with_context e (gin.AbortWithStatusJSON code obj (context e)).

(** A handler that only uses gin's context, as a handler of the chain. *)
Definition lift (h : HandlerFunc) : Handler :=
  fun e =>
    match h (context e) with
    | Returned c' => Done (with_context e c')
    | Panicked value stack c' => Panics value stack (with_context e c')
    end.

(** The exchange a handler leaves, however it stops. *)
Definition exchange_of (r : result) : Exchange :=
  match r with
  | Done e => e
  | Panics _ _ e => e
  end.

End chain.

(** ** APIKeyAuth

    The RWMutex is taken and released within each method, none of which can
    panic in between, so it is never held between calls and is left out. *)

Module auth.

Import gin chain middleware.

Record APIKeyAuth : Type := mkAPIKeyAuth {
  apiKeys : gmap string string          (* map[apiKey]userID *)
}.

Definition NewAPIKeyAuth : APIKeyAuth := mkAPIKeyAuth ∅.

Definition AddAPIKey (a : APIKeyAuth) (apiKey userID : string) : APIKeyAuth :=
  mkAPIKeyAuth (<[apiKey := userID]> (apiKeys a)).

Definition RemoveAPIKey (a : APIKeyAuth) (apiKey : string) : APIKeyAuth :=
  mkAPIKeyAuth (delete apiKey (apiKeys a)).

(** The key a request presents: the header, or else the query parameter. *)
Definition presented (r : http.Request) : string :=
  let apiKey := http.GetHeader r "X-API-Key" in
  if String.eqb apiKey EmptyString then http.Query r "api_key" else apiKey.

Definition Authenticate (a : APIKeyAuth) (next : Handler) : Handler :=
  fun e =>
    let apiKey := presented (chain.Request e) in
    if String.eqb apiKey EmptyString then
      Done (AbortWithStatusJSON http.StatusUnauthorized
              (error_H "API key is required") e)
    else
      match apiKeys a !! apiKey with
      | None =>
          Done (AbortWithStatusJSON http.StatusUnauthorized
                  (error_H "Invalid API key") e)
      | Some userID => chain.Next next (Set_ "userID" userID e)
      end.

(** Additions and removals of keys, in order. *)
Inductive key_op : Type :=
| Add (apiKey userID : string)
| Remove (apiKey : string).

Definition apply_op (a : APIKeyAuth) (o : key_op) : APIKeyAuth :=
  match o with
  | Add apiKey userID => AddAPIKey a apiKey userID
  | Remove apiKey => RemoveAPIKey a apiKey
  end.

Definition about (apiKey : string) (o : key_op) : bool :=
  match o with
  | Add k _ | Remove k => String.eqb k apiKey
  end.

(** The last operation on a key. *)
Fixpoint last_about (apiKey : string) (ops : list key_op) : option key_op :=
  match ops with
  | [] => None
  | o :: ops' =>
      match last_about apiKey ops' with
      | Some o' => Some o'
      | None => if about apiKey o then Some o else None
      end
  end.

End auth.

(** ** The handlers in front of the route *)

Module guards.

Import gin chain middleware strings strings_more.

(** [rl.Limit()] as a handler: what it does to the request, and the limiter
    afterwards; [None] when the call never returns because the mutex is
    held.  [now] is the instant [time.Now()] gives inside.  The panic of
    [make] leaves the handlers of the route as a panic; in the router these
    run in the goroutine that Timeout starts, where nothing recovers it. *)
Definition Limit_HandlerFunc (spare : nat -> nat) (rl : RateLimiter) (now : Time)
    (next : Handler) (e : Exchange) : option (result * RateLimiter) :=
  let ip := http.ClientIP (chain.Request e) in
  match Limit spare rl ip now with
  | (middleware.Next, rl') => Some (chain.Next next e, rl')
  | (TooManyRequests, rl') =>
      Some (Done (with_context e (Abort (response.TooManyRequests (context e)))),
            rl')
  | (MakePanics, rl') =>
      Some (Panics "runtime error: makeslice: cap out of range" "" e, rl')
  | (Blocks, _) => None
  end.

Section ContentTypeEnforcer.

Variable Map_ToLower : string -> string.

Definition ContentTypeEnforcer (next : Handler) : Handler :=
  fun e =>
    let method := http.Method (chain.Request e) in
    if String.eqb method "GET" || String.eqb method "HEAD"
       || String.eqb method "OPTIONS"
    then chain.Next next e
    else
      let contentType := http.GetHeader (chain.Request e) "Content-Type" in
      if String.eqb contentType EmptyString
         || negb (Contains (ToLower Map_ToLower contentType) "application/json")
      then
        Done (chain.AbortWithStatusJSON http.StatusUnsupportedMediaType
                (error_H "Content-Type must be application/json") e)
      else chain.Next next e.

End ContentTypeEnforcer.

Section CacheControl.

(** [int(maxAge.Seconds())] and [t.Format(http.TimeFormat)]. *)
Variable Seconds : Duration -> Z.
Variable TimeFormat : Time -> string.

(** [now] is the instant [time.Now()] gives inside. *)
Definition CacheControl (maxAge : Duration) (now : Time) (next : Handler)
    : Handler :=
  fun e =>
    let e := SetHeader "Cache-Control"
               ("public, max-age=" +:+ response.Int_String (Some (Seconds maxAge)))
               e in
    let e := SetHeader "Expires" (TimeFormat (now + maxAge)) e in
    chain.Next next e.

End CacheControl.

End guards.

(** ** Package config: the authentication settings *)

Module config.

Import strings strings_more.

Record AuthConfig : Type := mkAuthConfig {
  Enabled : bool;
  APIKeys : gmap string string          (* map[apiKey]userID *)
}.

Section LoadConfig.

Variable TrimFunc_IsSpace : string -> string.
Variable TrimRightFunc_IsSpace : string -> string.
Variable Map_ToLower : string -> string.

(** The environment, after godotenv has loaded the .env file into it. *)
Variable environ : gmap string string.

Definition getEnv (key defaultValue : string) : string :=
  default defaultValue (environ !! key).

Definition getBoolEnv (key : string) (defaultValue : bool) : bool :=
  let valueStr := getEnv key "" in
  if String.eqb valueStr EmptyString then defaultValue
  else
    let value := ToLower Map_ToLower valueStr in
    String.eqb value "true" || String.eqb value "1" || String.eqb value "yes"
    || String.eqb value "y".

(** [strconv.Atoi(s)] on a 64-bit platform: an optional sign and decimal
    digits, within the range of [int]; [None] for the error. *)
Definition Atoi (s : string) : option Z :=
  let d :=
    match s with
    | EmptyString => None
    | String c s' =>
        if Ascii.eqb c "+" then option_map Decimal.Pos (NilZero.uint_of_string s')
        else NilZero.int_of_string s
    end in
  match d with
  | Some d =>
      let n := Z.of_int d in
      if (- 2 ^ 63 <=? n) && (n <=? 2 ^ 63 - 1) then Some n else None
  | None => None
  end.

Definition getIntEnv (key : string) (defaultValue : Z) : Z :=
  let valueStr := getEnv key "" in
  match Atoi valueStr with
  | Some value => value
  | None => defaultValue
  end.

(** [Server.RateLimit.Limit] as [LoadConfig] sets it. *)
Definition RateLimit_Limit : Z := getIntEnv "RATE_LIMIT" 100.

(** The body of the loop over the pairs. *)
Definition add_pair (apiKeys : gmap string string) (pair : string)
    : gmap string string :=
  match Split pair ":" with
  | [key; userID] =>
      <[TrimSpace TrimFunc_IsSpace TrimRightFunc_IsSpace key :=
          TrimSpace TrimFunc_IsSpace TrimRightFunc_IsSpace userID]> apiKeys
  | _ => apiKeys
  end.

(** The part of [LoadConfig] that reads API_KEYS and AUTH_ENABLED. *)
Definition LoadAuthConfig : AuthConfig :=
  let apiKeysStr := getEnv "API_KEYS" "" in
  {| Enabled := getBoolEnv "AUTH_ENABLED" false;
     APIKeys :=
       if String.eqb apiKeysStr EmptyString then ∅
       else foldl add_pair ∅ (Split apiKeysStr ",") |}.

End LoadConfig.

(** A list of pairs written the way API_KEYS expects them:
    key:user,key:user,... *)
Fixpoint render (pairs : list (string * string)) : string :=
  match pairs with
  | [] => EmptyString
  | [(key, userID)] => key +:+ ":" +:+ userID
  | (key, userID) :: pairs' => key +:+ ":" +:+ userID +:+ "," +:+ render pairs'
  end.

(** No byte of the string is the separator. *)
Fixpoint avoids (sep : ascii) (s : string) : Prop :=
  match s with
  | EmptyString => True
  | String c s' => c <> sep /\ avoids sep s'
  end.

(** A key or user name that survives the parsing as it is: ASCII bytes other
    than spaces, the comma and the colon. *)
Fixpoint plain_word (s : string) : Prop :=
  match s with
  | EmptyString => True
  | String c s' =>
      ((byte_val c <? RuneSelf) = true /\ asciiSpace c = false /\
       c <> ","%char /\ c <> ":"%char) /\ plain_word s'
  end.

End config.

(** ** Package router *)

Module router.

Import gin chain middleware auth guards.

Section registerRoutes.

Variable spare : nat -> nat.
Variable TrimFunc_IsSpace : string -> string.
Variable TrimRightFunc_IsSpace : string -> string.
Variable Map_ToLower : string -> string.
Variable RFC3339 : Time -> string.
Variable Seconds : Duration -> Z.
Variable TimeFormat : Time -> string.

(** [gin.Mode() == gin.DebugMode]. *)
Variable debug : bool.

Definition rateLimiter (limit : Z) (window : Duration) : RateLimiter :=
  let rl := NewRateLimiter limit window in
  if debug then AddToWhitelist (AddToWhitelist rl "127.0.0.1") "::1" else rl.

(** [order] is the sequence in which [range] visits the configured keys. *)
Definition apiKeyAuth (order : list (string * string)) : APIKeyAuth :=
  foldl (fun a kv => AddAPIKey a kv.1 kv.2)
    (if debug then AddAPIKey NewAPIKeyAuth "development-api-key" "dev-user"
     else NewAPIKeyAuth)
    order.

(** The handlers of GET /api/ethereum/:address after the global middleware:
    the rate limiter, the authentication if enabled, the content type
    enforcer, the cache headers and the handler.  [now] and [now'] are the
    instants read by the limiter and by CacheControl. *)
Definition ethereum_route (rl : RateLimiter) (enabled : bool) (a : APIKeyAuth)
    (useCase : string -> usecase.outcome) (now now' : Time)
    : Exchange -> option (result * RateLimiter) :=
  let h := lift (handler.GetAddressInfo TrimFunc_IsSpace TrimRightFunc_IsSpace
                   Map_ToLower RFC3339 useCase) in
  let h := CacheControl Seconds TimeFormat (5 * Second) now' h in
  let h := ContentTypeEnforcer Map_ToLower h in
  let h := if enabled then Authenticate a h else h in
  Limit_HandlerFunc spare rl now h.

End registerRoutes.

(** A GET request from 10.0.0.7 for [address], presenting [apiKey] in the
    header X-API-Key. *)
Definition a_request (apiKey address : string) : Exchange :=
  mkExchange
    (http.mkRequest "GET"
       (fun key => if String.eqb key "X-API-Key" then apiKey else EmptyString)
       (fun _ => EmptyString) "10.0.0.7")
    (disclosure.request address) ∅.

End router.

From Stdlib Require DecimalZ DecimalPos.

(** * Reading a decimal string *)

Module decimal.

(** The integer a decimal string denotes: an optional minus sign and digits. *)
Definition read (s : string) : option Z :=
  Z.of_int <$> NilZero.int_of_string s.

End decimal.
(** * The validator *)

Module validator_proofs.

Import strings regexp validator spec.

Ltac each_byte c := destruct c as [[] [] [] [] [] [] [] []].

Lemma hex_class_digit c : atom_match hex_class c = true <-> hex_digit c.
Proof.
  assert (Hb : atom_match hex_class c = existsb (Ascii.eqb c) hex_chars)
    by (each_byte c; reflexivity).
  rewrite Hb. unfold hex_digit. rewrite existsb_exists. split.
  - intros (x & Hin & Heq). apply Ascii.eqb_eq in Heq. now subst.
  - intros Hin. exists c. split; [assumption | apply Ascii.eqb_refl].
Qed.

Lemma len_length s : len s = Z.of_nat (String.length s).
Proof. induction s as [|c s IH]; simpl String.length; simpl len; lia. Qed.

Lemma app_nil s : EmptyString +:+ s = s.
Proof. reflexivity. Qed.

Lemma app_cons c s t : String c s +:+ t = String c (s +:+ t).
Proof. reflexivity. Qed.

Lemma match_repeat_hex n : forall s rest,
  match_repeat hex_class n s = Some rest <->
  exists digits, s = digits +:+ rest /\ String.length digits = n /\ all_hex digits.
Proof.
  induction n as [|n IH]; intros s rest; cbn [match_repeat].
  - split.
    + intros [= ->]. exists EmptyString. now repeat split.
    + intros (d & -> & Hl & _). destruct d; [reflexivity | discriminate].
  - destruct s as [|c s].
    + split; [discriminate|]. intros (d & Hs & Hl & _).
      destruct d; [discriminate Hl | rewrite app_cons in Hs; discriminate Hs].
    + destruct (atom_match hex_class c) eqn:Hc.
      * cbv iota. rewrite IH. apply hex_class_digit in Hc. split.
        -- intros (d & -> & Hl & Hh). exists (String c d).
           rewrite app_cons. cbn [String.length all_hex]. auto.
        -- intros (d & Hs & Hl & Hh). destruct d as [|c' d]; [discriminate|].
           rewrite app_cons in Hs. cbn [String.length all_hex] in *.
           injection Hs as -> ->. exists d. intuition.
      * cbv iota. split; [discriminate|]. intros (d & Hs & Hl & Hh).
        destruct d as [|c' d]; [discriminate|].
        rewrite app_cons in Hs. cbn [String.length all_hex] in *.
        injection Hs as -> ->. destruct Hh as [Hh _].
        apply hex_class_digit in Hh. congruence.
Qed.

Lemma search_unfold re b s :
  search re b s =
  match_here re b s ||
  match s with EmptyString => false | String _ s' => search re false s' end.
Proof. destruct s; reflexivity. Qed.

Lemma search_anchored re s : search (BeginText :: re) false s = false.
Proof. induction s as [|c s IH]; simpl; [reflexivity | exact IH]. Qed.

Lemma append_empty_r s : s +:+ EmptyString = s.
Proof. induction s as [|c s IH]; rewrite ?app_cons, ?app_nil; congruence. Qed.

Lemma MatchString_address s :
  MatchString address_pattern s = true <->
  exists digits, s = "0x" +:+ digits /\ String.length digits = 40%nat /\ all_hex digits.
Proof.
  unfold MatchString, address_pattern. fold hex_class.
  rewrite search_unfold.
  assert (Hs : match s with
               | EmptyString => false
               | String _ s' =>
                   search (BeginText :: One (Lit "0") :: One (Lit "x")
                             :: Repeat hex_class 40 :: EndText :: nil) false s'
               end = false)
    by (destruct s; [reflexivity | apply search_anchored]).
  rewrite Hs, orb_false_r. clear Hs.
  split.
  - intros H. cbn [match_here andb atom_match] in H.
    destruct s as [|c0 s]; [discriminate|].
    apply andb_prop in H as [Hc0 H]. apply Ascii.eqb_eq in Hc0. subst c0.
    destruct s as [|c1 s]; [discriminate|].
    apply andb_prop in H as [Hc1 H]. apply Ascii.eqb_eq in Hc1. subst c1.
    destruct (match_repeat hex_class 40 s) as [rest|] eqn:Hr; [|discriminate].
    destruct rest; [|discriminate].
    apply match_repeat_hex in Hr as (d & -> & Hl & Hh).
    exists d. rewrite append_empty_r. auto.
  - intros (d & -> & Hl & Hh).
    assert (Hr : match_repeat hex_class 40 d = Some EmptyString).
    { apply match_repeat_hex. exists d. rewrite append_empty_r. auto. }
    rewrite !app_cons, app_nil. cbn [match_here andb atom_match].
    rewrite ?Ascii.eqb_refl. cbn [andb]. rewrite Hr. reflexivity.
Qed.

(** The three checks of [IsValidAddress] together. *)
Lemma IsValidAddress_iff (address : string) :
  IsValidAddress address = true <->
  exists digits,
    address = "0x" +:+ digits /\ String.length digits = 40%nat /\ all_hex digits.
Proof.
  unfold IsValidAddress. split.
  - destruct (len address =? 42); [|discriminate]. cbn [negb].
    destruct (HasPrefix address "0x"); [|discriminate]. cbn [negb].
    apply MatchString_address.
  - intros H. pose proof H as (d & -> & Hl & _).
    rewrite len_length, !app_cons, app_nil. cbn [String.length]. rewrite Hl.
    change (negb (Z.of_nat 42 =? 42)) with false. cbv iota.
    cbn [HasPrefix]. rewrite !Ascii.eqb_refl. cbn [andb negb].
    exact (proj2 (MatchString_address _) H).
Qed.

(** C6: [IsValidAddress] accepts exactly "0x" followed by 40 hexadecimal
    characters (0-9, a-f, A-F), and rejects every other string. *)
Theorem IsValidAddress_exactly_0x_40_hex (address : string) :
  (IsValidAddress address = true <->
   exists digits,
     address = "0x" +:+ digits /\ String.length digits = 40%nat /\
     all_hex digits) /\
  (IsValidAddress address = false <->
   ~ exists digits,
       address = "0x" +:+ digits /\ String.length digits = 40%nat /\
       all_hex digits).
Proof.
  pose proof (IsValidAddress_iff address) as H. split; [exact H|].
  destruct (IsValidAddress address).
  - split; [discriminate|]. intros Hn. exfalso. apply Hn, H. reflexivity.
  - split; [|reflexivity]. intros _ Hd. apply H in Hd. discriminate.
Qed.

Lemma IsValidAddress_exactly_0x_40_hex_witness :
  IsValidAddress "0x742d35Cc6634C0532925a3b844Bc454e4438f44e" = true /\
  exists digits,
    "0x742d35Cc6634C0532925a3b844Bc454e4438f44e" = "0x" +:+ digits /\
    String.length digits = 40%nat /\ all_hex digits.
Proof.
  split; [reflexivity|].
  apply (proj1 (IsValidAddress_exactly_0x_40_hex
                  "0x742d35Cc6634C0532925a3b844Bc454e4438f44e")).
  reflexivity.
Defined.

Ltac each_hex H :=
  unfold hex_digit, hex_chars in H; cbn [list_ascii_of_string In] in H;
  repeat (destruct H as [<- | H]); [.. | contradiction].

Lemma hex_plain c :
  hex_digit c -> (byte_val c <? RuneSelf) = true /\ asciiSpace c = false.
Proof. intros H. each_hex H; split; reflexivity. Qed.

Lemma hex_lower c : hex_digit c -> hex_digit (lower_byte c).
Proof. intros H. each_hex H; vm_compute; tauto. Qed.

Lemma all_hex_plain s : all_hex s -> all_plain s.
Proof.
  induction s as [|c s IH]; cbn [all_hex all_plain]; [trivial|].
  intros [Hc Hs]. split; [now apply hex_plain | now apply IH].
Qed.

Lemma all_hex_lower s : all_hex s -> all_hex (lower_bytes s).
Proof.
  induction s as [|c s IH]; cbn [all_hex lower_bytes]; [trivial|].
  intros [Hc Hs]. split; [now apply hex_lower | now apply IH].
Qed.

Lemma length_lower_bytes s : String.length (lower_bytes s) = String.length s.
Proof. induction s as [|c s IH]; cbn [lower_bytes String.length]; congruence. Qed.

Lemma lower_byte_table c : lower_byte c = lowercase_char c.
Proof. each_byte c; reflexivity. Qed.

Lemma lower_bytes_lowercase s : lower_bytes s = lowercase s.
Proof.
  induction s as [|c s IH]; cbn [lower_bytes lowercase]; [reflexivity|].
  now rewrite IH, lower_byte_table.
Qed.

Lemma lower_bytes_no_upper s : hasUpper s = false -> lower_bytes s = s.
Proof.
  induction s as [|c s IH]; cbn [hasUpper lower_bytes]; [reflexivity|].
  intros H. apply orb_false_elim in H as [Hc Hs].
  unfold lower_byte. rewrite Hc, IH by assumption. reflexivity.
Qed.

Lemma isASCII_plain s : all_plain s -> isASCII s = true.
Proof.
  induction s as [|c s IH]; cbn [all_plain isASCII]; [reflexivity|].
  intros [[Hc _] Hs]. now rewrite Hc, IH.
Qed.

Section unicode.

Variable TrimFunc_IsSpace : string -> string.
Variable TrimRightFunc_IsSpace : string -> string.
Variable Map_ToLower : string -> string.

Lemma scan_stop_plain s : all_plain s -> scan_stop s = (s, false).
Proof.
  induction s as [|c s IH]; cbn [all_plain scan_stop]; [reflexivity|].
  intros [[Hc Hsp] Hs]. rewrite IH by assumption.
  destruct s as [|c' s]; [|reflexivity].
  rewrite Hsp. destruct (RuneSelf <=? byte_val c) eqn:Hge; [|reflexivity].
  apply Z.leb_le in Hge. apply Z.ltb_lt in Hc. lia.
Qed.

Lemma TrimSpace_plain c s :
  all_plain (String c s) ->
  TrimSpace TrimFunc_IsSpace TrimRightFunc_IsSpace (String c s) = String c s.
Proof.
  intros H. pose proof H as [[Hc Hsp] _]. cbn [TrimSpace]. rewrite Hsp.
  destruct (RuneSelf <=? byte_val c) eqn:Hge.
  - apply Z.leb_le in Hge. apply Z.ltb_lt in Hc. lia.
  - unfold trim_stop. now rewrite scan_stop_plain.
Qed.

Lemma ToLower_plain s : all_plain s -> ToLower Map_ToLower s = lower_bytes s.
Proof.
  intros H. unfold ToLower. rewrite isASCII_plain by assumption.
  destruct (hasUpper s) eqn:Hu; cbn [negb]; [reflexivity|].
  symmetry. now apply lower_bytes_no_upper.
Qed.

(** C10: on a valid address, [FormatAddress] is ASCII lower-casing (trimming
    and prefixing change nothing), and the result is still a valid address. *)
Theorem FormatAddress_valid_is_lowercase (address : string) :
  IsValidAddress address = true ->
  TrimSpace TrimFunc_IsSpace TrimRightFunc_IsSpace address = address /\
  HasPrefix (ToLower Map_ToLower address) "0x" = true /\
  FormatAddress TrimFunc_IsSpace TrimRightFunc_IsSpace Map_ToLower address
    = lowercase address /\
  IsValidAddress
    (FormatAddress TrimFunc_IsSpace TrimRightFunc_IsSpace Map_ToLower address)
    = true.
Proof.
  intros Hv. apply IsValidAddress_iff in Hv as (d & -> & Hl & Hh).
  rewrite !app_cons, app_nil.
  assert (Hp : all_plain (String "0" (String "x" d))).
  { cbn [all_plain]. repeat split; try reflexivity. now apply all_hex_plain. }
  assert (Ht := TrimSpace_plain _ _ Hp).
  assert (Hlow := ToLower_plain _ Hp).
  assert (Hpre : HasPrefix (ToLower Map_ToLower (String "0" (String "x" d))) "0x"
                 = true) by (rewrite Hlow; reflexivity).
  assert (Hf : FormatAddress TrimFunc_IsSpace TrimRightFunc_IsSpace Map_ToLower
                 (String "0" (String "x" d))
               = lower_bytes (String "0" (String "x" d))).
  { unfold FormatAddress. rewrite Ht, Hpre. cbn [negb]. exact Hlow. }
  repeat split; try assumption.
  - rewrite Hf. apply lower_bytes_lowercase.
  - rewrite Hf. apply IsValidAddress_iff.
    exists (lower_bytes d). repeat split.
    + now rewrite length_lower_bytes.
    + now apply all_hex_lower.
Qed.

End unicode.

Lemma FormatAddress_valid_is_lowercase_witness :
  let a := "0x742d35Cc6634C0532925a3b844Bc454e4438f44e" in
  IsValidAddress a = true /\
  (TrimSpace id id a = a /\
   HasPrefix (ToLower id a) "0x" = true /\
   FormatAddress id id id a = lowercase a /\
   IsValidAddress (FormatAddress id id id a) = true).
Proof.
  intros a. split; [reflexivity|].
  apply (FormatAddress_valid_is_lowercase id id id a). reflexivity.
Defined.

End validator_proofs.

(** * The rate limiter *)

Module ratelimiter_proofs.

Import middleware.

(** ** Slices *)

Section slices.

Variable spare : nat -> nat.

Lemma elems_length s : slice_ok s -> length (elems s) = len s.
Proof. unfold slice_ok, elems, cap. intros H. now rewrite length_take_le. Qed.

Lemma append_elems s t : slice_ok s -> elems (append spare s t) = elems s ++ [t].
Proof.
  unfold slice_ok, append, elems, cap. intros H. case_bool_decide as Hlt; cbn [array len].
  - destruct (lookup_lt_is_Some_2 (array s) (len s) Hlt) as [x Hx].
    rewrite (take_S_r _ _ t) by (now apply list_lookup_insert_eq).
    now rewrite take_insert_ge by lia.
  - assert (len s = length (array s)) as Hl by lia.
    rewrite (take_ge (array s)) by lia.
    rewrite (cons_middle t), app_assoc. apply take_app_length'.
    rewrite length_app. cbn [length]. lia.
Qed.

Lemma append_len s t : len (append spare s t) = S (len s).
Proof. unfold append. now case_bool_decide. Qed.

Lemma append_ok s t : slice_ok s -> slice_ok (append spare s t).
Proof.
  unfold slice_ok, append, elems, cap. intros H. case_bool_decide as Hlt; cbn [array len].
  - rewrite length_insert. lia.
  - rewrite length_app, length_take. cbn [length]. lia.
Qed.

(** The loop of [cleanup] keeps exactly the instants after [windowStart]. *)
Lemma validTimes_fold ws l : forall v,
  slice_ok v ->
  slice_ok (foldl (fun v t => if After t ws then append spare v t else v) v l) /\
  elems (foldl (fun v t => if After t ws then append spare v t else v) v l)
    = elems v ++ in_window ws l.
Proof.
  unfold in_window.
  induction l as [|t l IH]; intros v Hv; cbn [foldl].
  - split; [assumption|]. now rewrite filter_nil, app_nil_r.
  - destruct (After t ws) eqn:Ht; unfold After in Ht.
    + apply bool_decide_eq_true in Ht.
      destruct (IH (append spare v t) (append_ok _ _ Hv)) as [Hok He].
      split; [exact Hok|]. rewrite He, append_elems by assumption.
      rewrite filter_cons_True by assumption. now rewrite <- app_assoc.
    + apply bool_decide_eq_false in Ht.
      destruct (IH v Hv) as [Hok He]. split; [exact Hok|].
      rewrite He. now rewrite filter_cons_False by assumption.
Qed.

Lemma validTimes_elems ws s :
  slice_ok (validTimes spare ws s) /\
  elems (validTimes spare ws s) = in_window ws (elems s).
Proof.
  unfold validTimes.
  destruct (validTimes_fold ws (elems s) nil_slice) as [Hok He].
  - unfold slice_ok, nil_slice, cap. simpl. lia.
  - split; [exact Hok | exact He].
Qed.

(** The pruning loop of [Limit], with [validRequests] aliasing the stored
    slice: the array ends with the instants kept moved to its front; when every
    instant is kept the array is the one it started with. *)
Lemma prune_shared ws n : forall idx A k n0,
  (k <= idx)%nat -> (idx + n <= length A)%nat ->
  let kept := in_window ws (take n (drop idx A)) in
  exists A',
    prune spare ws idx n (mkPruning (mkSlice A n0) (mkSlice A k) true)
      = mkPruning (mkSlice A' n0) (mkSlice A' (k + length kept)) true /\
    length A' = length A /\
    take (k + length kept) A' = take k A ++ kept /\
    (k = idx -> kept = take n (drop idx A) -> A' = A).
Proof.
  unfold in_window.
  induction n as [|n IH]; intros idx A k n0 Hk Hn; cbn zeta.
  - exists A. rewrite take_0, filter_nil, Nat.add_0_r, app_nil_r. auto.
  - destruct (lookup_lt_is_Some_2 A idx ltac:(lia)) as [t Ht].
    rewrite (drop_S _ _ _ Ht). cbn [take prune stored array]. rewrite Ht.
    destruct (After t ws) eqn:Haft; unfold After in Haft.
    + apply bool_decide_eq_true in Haft.
      rewrite filter_cons_True by assumption.
      unfold append_valid, append, cap. cbn [shared validRequests array len stored andb].
      rewrite !bool_decide_eq_true_2 by lia.
      destruct (IH (S idx) (<[k:=t]> A) (S k) n0) as (A' & Hp & Hl & Ht' & Hid);
        [lia | rewrite length_insert; lia |].
      rewrite drop_insert_lt in Hp, Ht', Hid by lia.
      rewrite Nat.add_succ_l in Hp, Ht'.
      exists A'. cbn [length]. rewrite Nat.add_succ_r. split; [exact Hp|].
      split; [now rewrite Hl, length_insert|]. split.
      * rewrite Ht'. rewrite (take_S_r _ _ t) by (apply list_lookup_insert_eq; lia).
        rewrite take_insert_ge by lia. now rewrite <- app_assoc.
      * intros -> Hall. injection Hall as Hall.
        rewrite Hid by (auto; congruence). now apply list_insert_id.
    + apply bool_decide_eq_false in Haft.
      rewrite filter_cons_False by assumption.
      destruct (IH (S idx) A k n0) as (A' & Hp & Hl & Ht' & Hid); [lia | lia |].
      exists A'. split; [exact Hp|]. split; [exact Hl|]. split; [exact Ht'|].
      intros _ Hall. exfalso.
      pose proof (length_filter (fun t0 => ws < t0) (take n (drop (S idx) A))) as Hle.
      rewrite Hall in Hle. cbn [length] in Hle. lia.
Qed.

Lemma filter_all_length {A} (P : A -> Prop) `{!forall x, Decision (P x)} (l : list A) :
  length (filter P l) = length l -> filter P l = l.
Proof.
  induction l as [|x l IH]; [reflexivity|].
  destruct (decide (P x)) as [Hx|Hx].
  - rewrite filter_cons_True by assumption. cbn [length].
    intros [= Hlen]. now rewrite IH.
  - rewrite filter_cons_False by assumption. cbn [length].
    pose proof (length_filter P l). lia.
Qed.

(** What the loop of [Limit] leaves in the two headers. *)
Lemma prune_entry ws s :
  slice_ok s ->
  let p := prune spare ws 0 (len s) (mkPruning s (mkSlice (array s) 0) true) in
  let kept := in_window ws (elems s) in
  slice_ok (validRequests p) /\
  len (validRequests p) = length kept /\
  elems (validRequests p) = kept /\
  slice_ok (stored p) /\ len (stored p) = len s /\
  (length kept = len s -> stored p = s).
Proof.
  intros Hok p kept. subst p kept. destruct s as [A n].
  unfold slice_ok, cap, elems in *. cbn [array len] in *.
  destruct (prune_shared ws n 0 A 0 n) as (A' & Hp & Hl & Ht & Hid); [lia | lia |].
  rewrite drop_0 in Hp, Ht, Hid. cbn [Nat.add take app] in Hp, Ht.
  rewrite Hp. cbn [validRequests stored array len].
  pose proof (length_filter (fun t => ws < t) (take n A)) as Hle.
  fold (in_window ws (take n A)) in Hle.
  rewrite length_take_le in Hle by lia.
  repeat split; try lia; try assumption.
  intros Hall. rewrite Hid; auto.
  apply filter_all_length. fold (in_window ws (take n A)).
  rewrite length_take_le by lia. exact Hall.
Qed.

(** One call of [Limit], in a limiter whose slices are valid. *)
Lemma Limit_spec rl ip now :
  limiter_ok rl ->
  let kept := in_window (now - window rl) (timestamps rl ip) in
  let v := (Limit spare rl ip now).1 in
  let rl' := (Limit spare rl ip now).2 in
  limiter_ok rl' /\ limit rl' = limit rl /\ window rl' = window rl /\
  whitelistIPs rl' = whitelistIPs rl /\
  (forall ip', ip' <> ip -> timestamps rl' ip' = timestamps rl ip') /\
  match v with
  | Blocks => mu rl = true /\ rl' = rl
  | MakePanics =>
      mu rl = false /\ whitelisted rl ip = false /\ limit rl < 0 /\
      ips rl' = ips rl /\ mu rl' = true
  | Next =>
      mu rl = false /\ mu rl' = false /\
      (whitelisted rl ip = true /\ rl' = rl \/
       whitelisted rl ip = false /\ Z.of_nat (length kept) < limit rl /\
       timestamps rl' ip = kept ++ [now])
  | TooManyRequests =>
      mu rl = false /\ mu rl' = false /\ whitelisted rl ip = false /\
      limit rl <= Z.of_nat (length kept) /\
      timestamps rl' ip = timestamps rl ip
  end.
Proof.
  intros Hok kept v rl'. subst kept v rl'. unfold Limit, whitelisted, timestamps.
  destruct (mu rl) eqn:Hmu;
    [cbn [fst snd]; split; [exact Hok | repeat split; auto]|].
  destruct (default false (whitelistIPs rl !! ip)) eqn:Hw;
    [cbn [fst snd]; split; [exact Hok | repeat split; auto]|].
  set (ws := now - window rl).
  assert (Hentry : forall s m,
    slice_ok s -> Z.of_nat (len s) <= limit rl ->
    (forall ip', ip' <> ip -> m !! ip' = ips rl !! ip') ->
    (forall ip' s', m !! ip' = Some s' -> slice_ok s' /\ Z.of_nat (len s') <= limit rl) ->
    elems s = match ips rl !! ip with Some s0 => elems s0 | None => [] end ->
    let p := prune spare ws 0 (len s) (mkPruning s (mkSlice (array s) 0) true) in
    let r := if limit rl <=? Z.of_nat (len (validRequests p))
             then (TooManyRequests, set_ips rl (<[ip := stored p]> m))
             else (Next, set_ips rl (<[ip := append spare (validRequests p) now]> m)) in
    limiter_ok r.2 /\ limit r.2 = limit rl /\ window r.2 = window rl /\
    whitelistIPs r.2 = whitelistIPs rl /\
    (forall ip', ip' <> ip ->
       match ips r.2 !! ip' with Some s0 => elems s0 | None => [] end
       = match ips rl !! ip' with Some s0 => elems s0 | None => [] end) /\
    match r.1 with
    | Blocks => false = true /\ r.2 = rl
    | MakePanics =>
        false = false /\ false = false /\ limit rl < 0 /\
        ips r.2 = ips rl /\ mu r.2 = true
    | Next =>
        false = false /\ mu r.2 = false /\
        (false = true /\ r.2 = rl \/
         false = false /\
         Z.of_nat (length (in_window ws
            match ips rl !! ip with Some s0 => elems s0 | None => [] end)) < limit rl /\
         match ips r.2 !! ip with Some s0 => elems s0 | None => [] end
         = in_window ws match ips rl !! ip with Some s0 => elems s0 | None => [] end
           ++ [now])
    | TooManyRequests =>
        false = false /\ mu r.2 = false /\ false = false /\
        limit rl <= Z.of_nat (length (in_window ws
            match ips rl !! ip with Some s0 => elems s0 | None => [] end)) /\
        match ips r.2 !! ip with Some s0 => elems s0 | None => [] end
        = match ips rl !! ip with Some s0 => elems s0 | None => [] end
    end).
  { intros s m Hs Hlen Hm Hmok He p r. subst r.
    destruct (prune_entry ws s Hs) as (Hvok & Hvlen & Hvel & Hsok & Hslen & Hsid).
    fold p in Hvok, Hvlen, Hvel, Hsok, Hslen, Hsid. rewrite <- He.
    destruct (limit rl <=? Z.of_nat (len (validRequests p))) eqn:Hfull;
      unfold limiter_ok; cbn [fst snd set_ips ips limit window whitelistIPs mu].
    - apply Z.leb_le in Hfull.
      assert (Hall : length (in_window ws (elems s)) = len s).
      { pose proof (length_filter (fun t => ws < t) (elems s)) as Hle.
        fold (in_window ws (elems s)) in Hle.
        rewrite elems_length in Hle by assumption. lia. }
      rewrite (Hsid Hall).
      split; [|repeat split; auto].
      + intros ip' s'. rewrite lookup_insert.
        case_decide; [intros [= <-]; auto | apply Hmok].
      + intros ip' Hne. now rewrite lookup_insert_ne, Hm by auto.
      + lia.
      + now rewrite lookup_insert_eq.
    - apply Z.leb_gt in Hfull.
      split; [|repeat split; auto].
      + intros ip' s'. rewrite lookup_insert.
        case_decide; [intros [= <-] | apply Hmok].
        split; [now apply append_ok | rewrite append_len; lia].
      + intros ip' Hne. now rewrite lookup_insert_ne, Hm by auto.
      + right. repeat split; [lia|].
        rewrite lookup_insert_eq, append_elems by assumption. now rewrite Hvel. }
  destruct (ips rl !! ip) as [s|] eqn:Hip.
  - destruct (Hok ip s Hip) as [Hs Hlen].
    apply (Hentry s (ips rl)); auto.
  - destruct (limit rl <? 0) eqn:Hneg.
    + apply Z.ltb_lt in Hneg. cbn [fst snd].
      split; [exact Hok | repeat split; auto].
    + apply Z.ltb_ge in Hneg.
      apply (Hentry (make (Z.to_nat (limit rl))) (<[ip := make (Z.to_nat (limit rl))]> (ips rl))).
      * unfold slice_ok, make, cap. cbn [len]. lia.
      * cbn [make len]. lia.
      * intros ip' Hne. now rewrite lookup_insert_ne by auto.
      * intros ip' s'. rewrite lookup_insert.
        case_decide; [intros [= <-] | apply Hok].
        unfold slice_ok, make, cap. cbn [len]. split; lia.
      * reflexivity.
Qed.

(** ** The sweep *)

Lemma cleanup_lookup rl now ip :
  mu rl = false ->
  ips (cleanup spare rl now) !! ip =
  match ips rl !! ip with
  | Some s =>
      let v := validTimes spare (now - window rl) s in
      if Nat.eqb (len v) 0 then None else Some v
  | None => None
  end.
Proof.
  intros Hmu. unfold cleanup. rewrite Hmu. cbn [set_ips ips].
  set (ws := now - window rl).
  set (f := fun (ip : string) (times : slice) (m : gmap string slice) =>
              let v := validTimes spare ws times in
              if Nat.eqb (len v) 0 then delete ip m else <[ip := v]> m).
  enough (Hgen : forall base m j,
    map_fold f base m !! j =
    match m !! j with
    | Some s => let v := validTimes spare ws s in
                if Nat.eqb (len v) 0 then None else Some v
    | None => base !! j
    end).
  { rewrite Hgen. now destruct (ips rl !! ip). }
  intros base m.
  apply (map_fold_weak_ind (fun r m => forall j,
           r !! j = match m !! j with
                    | Some s => let v := validTimes spare ws s in
                                if Nat.eqb (len v) 0 then None else Some v
                    | None => base !! j
                    end)).
  - intros j. now rewrite lookup_empty.
  - intros i x m' r Hi IH j. unfold f at 1. cbn zeta.
    destruct (decide (i = j)) as [->|Hne].
    + rewrite lookup_insert_eq.
      destruct (Nat.eqb (len (validTimes spare ws x)) 0);
        [apply lookup_delete_eq | apply lookup_insert_eq].
    + rewrite (lookup_insert_ne m') by assumption. rewrite <- IH.
      destruct (Nat.eqb (len (validTimes spare ws x)) 0);
        [now apply lookup_delete_ne | now apply lookup_insert_ne].
Qed.

Lemma cleanup_timestamps rl now ip :
  mu rl = false ->
  timestamps (cleanup spare rl now) ip
  = in_window (now - window rl) (timestamps rl ip).
Proof.
  intros Hmu. unfold timestamps. rewrite cleanup_lookup by assumption.
  destruct (ips rl !! ip) as [s|]; [|reflexivity]. cbn zeta.
  destruct (validTimes_elems (now - window rl) s) as [Hok He].
  destruct (Nat.eqb (len (validTimes spare (now - window rl) s)) 0) eqn:Hz.
  - apply Nat.eqb_eq in Hz. rewrite <- He. unfold elems. now rewrite Hz, take_0.
  - exact He.
Qed.

Lemma in_window_nil ws l : in_window ws l = [] <-> Forall (fun t => t <= ws) l.
Proof.
  unfold in_window. induction l as [|t l IH].
  - split; [constructor | reflexivity].
  - destruct (decide (ws < t)) as [Ht|Ht].
    + rewrite filter_cons_True by assumption. split; [discriminate|].
      intros H. apply Forall_cons in H as [H _]. lia.
    + rewrite filter_cons_False by assumption. rewrite IH, Forall_cons.
      intuition lia.
Qed.

(** ** Runs *)

Lemma admitted_for_app ip adm ip' now :
  admitted_for ip (adm ++ [(ip', now)])
  = admitted_for ip adm ++ (if decide (ip' = ip) then [now] else []).
Proof.
  unfold admitted_for. rewrite filter_app, fmap_app. f_equal.
  destruct (decide (ip' = ip)) as [Heq|Hne].
  - now rewrite filter_cons_True by exact Heq.
  - now rewrite filter_cons_False by exact Hne.
Qed.

Lemma sublist_filter_mono {A} (P : A -> Prop) `{!forall x, Decision (P x)} l1 l2 :
  l1 `sublist_of` l2 -> filter P l1 `sublist_of` filter P l2.
Proof.
  induction 1 as [|x l1 l2 _ IH|x l1 l2 _ IH]; [constructor| |];
    rewrite ?(filter_cons P x); destruct (decide (P x));
    auto using sublist_skip, sublist_cons.
Qed.

Lemma Limit_run_ok rl adm ip now :
  run_ok rl adm ->
  run_ok (Limit spare rl ip now).2
    (match (Limit spare rl ip now).1 with
     | Next => adm ++ [(ip, now)]
     | _ => adm
     end).
Proof.
  intros (Hok & Hmu & Hsub).
  destruct (Limit_spec rl ip now Hok) as (Hok' & Hlim & Hwin & Hwl & Hframe & Hv).
  destruct (Limit spare rl ip now) as [v rl'] eqn:HL. cbn [fst snd] in *.
  split; [exact Hok'|]. rewrite Hlim.
  destruct v.
  - destruct Hv as (Hm & Hm' & Hcase). split; [congruence|].
    intros ip'. rewrite admitted_for_app.
    destruct (decide (ip = ip')) as [<-|Hne].
    + destruct Hcase as [[_ ->]|(_ & _ & ->)].
      * now apply sublist_inserts_r.
      * apply sublist_app; [|reflexivity].
        etrans; [apply sublist_filter | apply Hsub].
    + rewrite app_nil_r, Hframe by congruence. apply Hsub.
  - destruct Hv as (Hm & Hm' & _ & _ & Heq). split; [congruence|].
    intros ip'. destruct (decide (ip' = ip)) as [->|Hne];
      [rewrite Heq | rewrite Hframe by assumption]; apply Hsub.
  - destruct Hv as (Hm & _ & Hneg & Hips & _). split; [auto|].
    intros ip'. unfold timestamps. rewrite Hips. apply Hsub.
  - destruct Hv as (Hm & ->). split; [exact Hmu | exact Hsub].
Qed.

Lemma cleanup_run_ok rl adm now : run_ok rl adm -> run_ok (cleanup spare rl now) adm.
Proof.
  intros (Hok & Hmu & Hsub). destruct (mu rl) eqn:Hm.
  - unfold cleanup. rewrite Hm.
    split; [exact Hok | split; [intros _; now apply Hmu | exact Hsub]].
  - split; [|split].
    + intros ip s Hs. rewrite cleanup_lookup in Hs by assumption.
      destruct (ips rl !! ip) as [s0|] eqn:Hip; [|discriminate].
      cbn zeta in Hs. destruct (validTimes_elems (now - window rl) s0) as [Hv He].
      destruct (Nat.eqb _ 0); [discriminate|]. injection Hs as <-.
      split; [exact Hv|]. destruct (Hok ip s0 Hip) as [Hs0 Hl0].
      rewrite <- (elems_length _ Hv), He.
      pose proof (length_filter (fun t => now - window rl < t) (elems s0)) as Hle.
      fold (in_window (now - window rl) (elems s0)) in Hle.
      rewrite (elems_length _ Hs0) in Hle.
      unfold cleanup. rewrite Hm. cbn [set_ips limit]. lia.
    + unfold cleanup. rewrite Hm. cbn [set_ips mu]. congruence.
    + intros ip. rewrite cleanup_timestamps by assumption.
      etrans; [apply sublist_filter | apply Hsub].
Qed.

Lemma run_run_ok ops : forall rl adm,
  run_ok rl adm -> run_ok (serve spare ops rl adm).1 (serve spare ops rl adm).2.
Proof.
  induction ops as [|o ops IH]; intros rl adm H; [exact H|].
  destruct o as [ip now|now|ip|ip]; cbn [serve].
  - pose proof (Limit_run_ok rl adm ip now H) as H'.
    destruct (Limit spare rl ip now) as [v rl']. cbn [fst snd] in H'.
    destruct v; now apply IH.
  - apply IH. now apply cleanup_run_ok.
  - apply IH. destruct H as (Hok & Hmu & Hsub).
    unfold AddToWhitelist. destruct (mu rl) eqn:Hm;
      (split; [exact Hok | split; [|exact Hsub]]);
      intros Hc; cbn in Hc; apply Hmu; congruence.
  - apply IH. destruct H as (Hok & Hmu & Hsub).
    unfold RemoveFromWhitelist. destruct (mu rl) eqn:Hm;
      (split; [exact Hok | split; [|exact Hsub]]);
      intros Hc; cbn in Hc; apply Hmu; congruence.
Qed.

Lemma run_limit ops : forall rl adm,
  limit (serve spare ops rl adm).1 = limit rl /\
  window (serve spare ops rl adm).1 = window rl.
Proof.
  induction ops as [|o ops IH]; intros rl adm; [now split|].
  destruct o as [ip now|now|ip|ip]; cbn [serve].
  - assert (Hl : limit (Limit spare rl ip now).2 = limit rl /\
                 window (Limit spare rl ip now).2 = window rl).
    { unfold Limit. destruct (mu rl); [now split|].
      destruct (whitelisted rl ip); [now split|].
      destruct (ips rl !! ip); [|destruct (limit rl <? 0); [now split|]];
        cbv zeta; destruct (_ <=? _); now split. }
    destruct (Limit spare rl ip now) as [v rl']. cbn [snd] in Hl.
    destruct Hl as [<- <-]. destruct v; apply IH.
  - destruct (IH (cleanup spare rl now) adm) as [-> ->].
    unfold cleanup. destruct (mu rl); now split.
  - destruct (IH (AddToWhitelist rl ip) adm) as [-> ->].
    unfold AddToWhitelist. destruct (mu rl); now split.
  - destruct (IH (RemoveFromWhitelist rl ip) adm) as [-> ->].
    unfold RemoveFromWhitelist. destruct (mu rl); now split.
Qed.

Lemma New_run_ok limit window : run_ok (NewRateLimiter limit window) [].
Proof.
  split; [|split].
  - intros ip s. unfold NewRateLimiter. cbn [ips]. now rewrite lookup_empty.
  - discriminate.
  - intros ip. unfold timestamps, NewRateLimiter. cbn [ips].
    rewrite lookup_empty. constructor.
Qed.

Lemma Limit_admits rl lim win ip ts now :
  ready rl lim win ip ts ->
  Z.of_nat (length (in_window (now - win) ts)) < lim ->
  (Limit spare rl ip now).1 = Next /\
  ready (Limit spare rl ip now).2 lim win ip (in_window (now - win) ts ++ [now]).
Proof.
  intros (Hok & Hmu & <- & <- & Hw & <-) Hlt.
  destruct (Limit_spec rl ip now Hok) as (Hok' & Hlim & Hwin & Hwl & _ & Hv).
  unfold ready, whitelisted in *. rewrite Hlim, Hwin, Hwl.
  destruct (Limit spare rl ip now).1.
  - destruct Hv as (_ & Hmu' & [[Hc _]|(_ & _ & Hts)]); [congruence|]. auto 10.
  - destruct Hv as (_ & _ & _ & Hge & _). lia.
  - destruct Hv as (_ & _ & Hneg & _). lia.
  - destruct Hv as [Hc _]. congruence.
Qed.

Lemma Limit_rejects rl lim win ip ts now :
  ready rl lim win ip ts ->
  0 <= lim <= Z.of_nat (length (in_window (now - win) ts)) ->
  (Limit spare rl ip now).1 = TooManyRequests /\
  ready (Limit spare rl ip now).2 lim win ip ts.
Proof.
  intros (Hok & Hmu & <- & <- & Hw & <-) Hge.
  destruct (Limit_spec rl ip now Hok) as (Hok' & Hlim & Hwin & Hwl & _ & Hv).
  unfold ready, whitelisted in *. rewrite Hlim, Hwin, Hwl.
  destruct (Limit spare rl ip now).1.
  - destruct Hv as (_ & _ & [[Hc _]|(_ & Hlt & _)]); [congruence | lia].
  - destruct Hv as (_ & Hmu' & _ & _ & Hts). auto 10.
  - destruct Hv as (_ & _ & Hneg & _). lia.
  - destruct Hv as [Hc _]. congruence.
Qed.

(** C2: after any run of requests and sweeps, the timestamps stored for an
    identity that lie in a trailing window are no more than the requests of
    that identity let through in that window; and a rejected call leaves the
    stored timestamps of every identity as they were. *)
Theorem stored_never_exceeds_admitted (limit : Z) (window : Duration)
    (ops : list op) (ip : string) (T : Time) :
  let rl := (serve spare ops (NewRateLimiter limit window) []).1 in
  let admitted := (serve spare ops (NewRateLimiter limit window) []).2 in
  (length (in_window (T - window) (timestamps rl ip))
   <= length (in_window (T - window) (admitted_for ip admitted)))%nat /\
  forall now,
    (Limit spare rl ip now).1 = TooManyRequests ->
    forall ip', timestamps (Limit spare rl ip now).2 ip' = timestamps rl ip'.
Proof.
  intros rl admitted.
  destruct (run_run_ok ops _ _ (New_run_ok limit window)) as (Hok & Hmu & Hsub).
  fold rl admitted in Hok, Hmu, Hsub. split.
  - apply sublist_length, sublist_filter_mono, Hsub.
  - intros now Hv ip'.
    destruct (Limit_spec rl ip now Hok) as (_ & _ & _ & _ & Hframe & Hcase).
    rewrite Hv in Hcase. destruct Hcase as (_ & _ & _ & _ & Heq).
    destruct (decide (ip' = ip)) as [->|Hne]; [exact Heq | now apply Hframe].
Qed.

(** C3: with limit 3 and a window of one second, three calls of one identity
    within a window are let through and a fourth is rejected; a call after
    the window has passed is let through again.  In general, for a limit of
    at most [MaxLimit] (one for which [make] returns) and a window other than
    the least duration (so that [-rl.window] does not wrap), a call of an
    identity that is not whitelisted is let through exactly when fewer than
    [limit] stored timestamps are after [now - window], and then these
    timestamps followed by [now] are what is stored. *)
Theorem Limit_sliding_window :
  (forall (ip : string) (t1 t2 t3 t4 t5 : Time),
     t1 <= t2 <= t3 -> t3 <= t4 < t1 + Second -> t3 + Second <= t5 ->
     verdicts spare [(ip, t1); (ip, t2); (ip, t3); (ip, t4); (ip, t5)]
       (NewRateLimiter 3 Second)
     = [Next; Next; Next; TooManyRequests; Next]) /\
  (forall (limit : Z) (window : Duration) (ops : list op) (ip : string)
          (now : Time),
     let rl := (serve spare ops (NewRateLimiter limit window) []).1 in
     let kept := in_window (now - window) (timestamps rl ip) in
     limit <= runtime.MaxLimit -> runtime.MinDuration < window ->
     whitelisted rl ip = false ->
     ((Limit spare rl ip now).1 = Next <-> Z.of_nat (length kept) < limit) /\
     ((Limit spare rl ip now).1 = Next ->
      timestamps (Limit spare rl ip now).2 ip = kept ++ [now])).
Proof.
  split.
  - intros ip t1 t2 t3 t4 t5 H123 H4 H5.
    assert (H0 : ready (NewRateLimiter 3 Second) 3 Second ip []).
    { destruct (New_run_ok 3 Second) as (Hok & _ & _).
      unfold ready, whitelisted, timestamps, NewRateLimiter in *.
      cbn [ips mu limit window whitelistIPs]. rewrite !lookup_empty. auto 10. }
    unfold Second in *. cbn [verdicts].
    destruct (Limit_admits _ _ _ _ _ t1 H0) as [-> H1]; [cbn; lia|].
    unfold in_window in H1. rewrite filter_nil in H1. cbn [app] in H1.
    destruct (Limit_admits _ _ _ _ _ t2 H1) as [-> H2].
    { unfold in_window. rewrite filter_cons_True by lia. cbn. lia. }
    unfold in_window in H2. rewrite filter_cons_True, filter_nil in H2 by lia.
    cbn [app] in H2.
    destruct (Limit_admits _ _ _ _ _ t3 H2) as [-> H3].
    { unfold in_window. rewrite !filter_cons_True by lia. cbn. lia. }
    unfold in_window in H3. rewrite !filter_cons_True, filter_nil in H3 by lia.
    cbn [app] in H3.
    destruct (Limit_rejects _ _ _ _ _ t4 H3) as [-> H4'].
    { unfold in_window. rewrite !filter_cons_True by lia. cbn. lia. }
    destruct (Limit_admits _ _ _ _ _ t5 H4') as [-> _].
    { unfold in_window. rewrite !filter_cons_False by lia. cbn. lia. }
    reflexivity.
  - intros limit window ops ip now rl kept _ _ Hw.
    destruct (run_run_ok ops _ _ (New_run_ok limit window)) as (Hok & Hmu & _).
    destruct (run_limit ops (NewRateLimiter limit window) []) as [Hlim Hwin].
    fold rl in Hok, Hmu, Hlim, Hwin. cbn [NewRateLimiter middleware.limit middleware.window] in Hlim, Hwin.
    destruct (Limit_spec rl ip now Hok) as (_ & _ & _ & _ & _ & Hv).
    rewrite Hwin in Hv. fold kept in Hv. rewrite Hlim in Hv.
    rewrite Hlim in Hmu.
    destruct (Limit spare rl ip now).1.
    + destruct Hv as (_ & _ & [[Hc _]|(_ & Hlt & Hts)]); [congruence|].
      split; [tauto | auto].
    + destruct Hv as (_ & _ & _ & Hge & _). split; [|discriminate].
      split; [discriminate | lia].
    + destruct Hv as (_ & _ & Hneg & _). split; [|discriminate].
      split; [discriminate | lia].
    + destruct Hv as [Hm _]. specialize (Hmu Hm). split; [|discriminate].
      split; [discriminate | lia].
Qed.

(** C4: a call of a whitelisted identity is let through whatever is stored
    for it, and the limiter (the timestamp map included) is left as it was. *)
Theorem Limit_whitelisted_unchanged (rl : RateLimiter) (ip : string) (now : Time) :
  mu rl = false ->
  whitelistIPs rl !! ip = Some true ->
  Limit spare rl ip now = (Next, rl).
Proof. intros Hmu Hw. unfold Limit, whitelisted. now rewrite Hmu, Hw. Qed.

(** C8: for a window other than the least duration (so that [-rl.window]
    does not wrap), one sweep deletes exactly the identities none of whose
    timestamps is after [now - window], and keeps for every other identity
    exactly its timestamps after [now - window]. *)
Theorem cleanup_exact (rl : RateLimiter) (now : Time) (ip : string) :
  runtime.MinDuration < window rl ->
  mu rl = false ->
  (ips (cleanup spare rl now) !! ip = None <->
   ips rl !! ip = None \/
   Forall (fun t => t <= now - window rl) (timestamps rl ip)) /\
  timestamps (cleanup spare rl now) ip
  = in_window (now - window rl) (timestamps rl ip).
Proof.
  intros _ Hmu. split; [|now apply cleanup_timestamps].
  rewrite cleanup_lookup by assumption. unfold timestamps.
  destruct (ips rl !! ip) as [s|]; [|tauto]. cbn zeta.
  destruct (validTimes_elems (now - window rl) s) as [Hok He].
  rewrite <- in_window_nil, <- He.
  destruct (Nat.eqb (len (validTimes spare (now - window rl) s)) 0) eqn:Hz.
  - apply Nat.eqb_eq in Hz. split; [|reflexivity]. intros _. right.
    unfold elems. now rewrite Hz, take_0.
  - apply Nat.eqb_neq in Hz. split; [discriminate|].
    intros [Hc|Hc]; [discriminate|]. exfalso. apply Hz.
    rewrite <- (elems_length _ Hok), Hc. reflexivity.
Qed.

End slices.

(** The pruning loop writes into the array that [rl.ips[ip]] still points to:
    were a stored slice longer than [limit], a rejected call would leave a
    duplicate behind.  No run from the constructor reaches such a limiter. *)
Example prune_overwrites_in_place :
  let rl := mkRateLimiter {["10.0.0.7" := mkSlice [1; 50; 60] 3]} 2 30 false ∅ in
  (Limit id rl "10.0.0.7" 70).1 = TooManyRequests /\
  timestamps (Limit id rl "10.0.0.7" 70).2 "10.0.0.7" = [50; 60; 60].
Proof. split; reflexivity. Qed.

Lemma stored_never_exceeds_admitted_witness :
  let ops := [Request "10.0.0.7" 0; Request "10.0.0.7" 10; Request "10.0.0.7" 20] in
  let rl := (serve id ops (NewRateLimiter 3 Second) []).1 in
  (Limit id rl "10.0.0.7" 30).1 = TooManyRequests /\
  forall ip', timestamps (Limit id rl "10.0.0.7" 30).2 ip' = timestamps rl ip'.
Proof.
  intros ops rl. split; [reflexivity|].
  apply (proj2 (stored_never_exceeds_admitted id 3 Second ops "10.0.0.7" 0)).
  reflexivity.
Defined.

Lemma Limit_sliding_window_witness :
  ((0 <= 10 <= 20 /\ 20 <= 30 < 0 + Second /\ 20 + Second <= 1500000000) /\
   verdicts id [("10.0.0.7", 0); ("10.0.0.7", 10); ("10.0.0.7", 20);
                ("10.0.0.7", 30); ("10.0.0.7", 1500000000)]
     (NewRateLimiter 3 Second)
   = [Next; Next; Next; TooManyRequests; Next]) /\
  (let rl := (serve id [Request "10.0.0.7" 0; Request "10.0.0.7" 10]
                (NewRateLimiter 3 Second) []).1 in
   (3 <= runtime.MaxLimit /\ runtime.MinDuration < Second /\
    whitelisted rl "10.0.0.7" = false) /\
   (Limit id rl "10.0.0.7" 20).1 = Next /\
   timestamps (Limit id rl "10.0.0.7" 20).2 "10.0.0.7" = [0; 10; 20]).
Proof.
  split.
  - split; [unfold Second; lia|].
    apply (proj1 (Limit_sliding_window id)); unfold Second; lia.
  - intros rl.
    assert (H : 3 <= runtime.MaxLimit /\ runtime.MinDuration < Second /\
                whitelisted rl "10.0.0.7" = false)
      by (unfold runtime.MaxLimit, runtime.MinDuration, Second;
          repeat split; lia || reflexivity).
    split; [exact H|]. destruct H as (H1 & H2 & H3).
    destruct (proj2 (Limit_sliding_window id) 3 Second
                [Request "10.0.0.7" 0; Request "10.0.0.7" 10] "10.0.0.7" 20
                H1 H2 H3) as [Hiff Hts].
    assert (Hn : (Limit id rl "10.0.0.7" 20).1 = Next)
      by (apply Hiff; vm_compute; reflexivity).
    split; [exact Hn | exact (Hts Hn)].
Defined.

Lemma Limit_whitelisted_unchanged_witness :
  let rl := mkRateLimiter {["127.0.0.1" := mkSlice [1; 2; 3] 3]} 3 Second false
              {["127.0.0.1" := true]} in
  (mu rl = false /\ whitelistIPs rl !! "127.0.0.1" = Some true) /\
  Limit id rl "127.0.0.1" 4 = (Next, rl).
Proof.
  intros rl. split; [split; reflexivity|].
  apply (Limit_whitelisted_unchanged id rl "127.0.0.1" 4); reflexivity.
Defined.

Lemma cleanup_exact_witness :
  let rl := mkRateLimiter {["10.0.0.7" := mkSlice [5; 900; 1200] 3]} 3 1000
              false ∅ in
  (runtime.MinDuration < window rl /\ mu rl = false) /\
  ((ips (cleanup id rl 1500) !! "10.0.0.7" = None <->
    ips rl !! "10.0.0.7" = None \/
    Forall (fun t => t <= 1500 - window rl) (timestamps rl "10.0.0.7")) /\
   timestamps (cleanup id rl 1500) "10.0.0.7"
   = in_window (1500 - window rl) (timestamps rl "10.0.0.7")).
Proof.
  intros rl.
  assert (H : runtime.MinDuration < window rl)
    by (unfold runtime.MinDuration; cbn; lia).
  split; [split; [exact H | reflexivity]|].
  apply (cleanup_exact id rl 1500 "10.0.0.7" H). reflexivity.
Defined.

End ratelimiter_proofs.

(** * The conversions of math/big *)

Module big_proofs.

Import big.

Local Open Scope Q_scope.

Lemma pow2_pos z : 0 < 2 ^ z.
Proof. apply Qpower_0_lt. reflexivity. Qed.

Lemma pow2_add a b : 2 ^ (a + b) == 2 ^ a * 2 ^ b.
Proof. apply Qpower_plus. discriminate. Qed.

Lemma pow2_le a b : (a <= b)%Z -> 2 ^ a <= 2 ^ b.
Proof. intros H. apply Qpower_le_compat_l; [exact H | discriminate]. Qed.

Lemma pow2_lt_inv a b : 2 ^ a < 2 ^ b -> (a < b)%Z.
Proof. intros H. apply (Qpower_lt_compat_l_inv 2); [exact H | reflexivity]. Qed.

Lemma pow2_inject k : (0 <= k)%Z -> inject_Z (2 ^ k) == 2 ^ k.
Proof. intros H. now rewrite Zpower_Qpower. Qed.

(** The integer logarithm brackets the value. *)
Lemma log2_bracket (n : Z) :
  (0 < n)%Z -> 2 ^ Z.log2 n <= inject_Z n /\ inject_Z n < 2 * 2 ^ Z.log2 n.
Proof.
  intros Hn. destruct (Z.log2_spec n Hn) as [Hlo Hhi].
  pose proof (Z.log2_nonneg n) as H0.
  rewrite <- pow2_inject by assumption. split.
  - now rewrite <- Zle_Qle.
  - replace 2 with (inject_Z 2) at 1 by reflexivity.
    rewrite <- inject_Z_mult, <- Zlt_Qlt.
    rewrite Z.pow_succ_r in Hhi by assumption. exact Hhi.
Qed.

Lemma ilog2_spec x : 0 < x -> 2 ^ ilog2 x <= x /\ x < 2 ^ (ilog2 x + 1).
Proof.
  intros Hx. destruct x as [n d].
  assert (Hn : (0 < n)%Z) by (unfold Qlt in Hx; cbn in Hx; lia).
  destruct (log2_bracket n Hn) as [Hn1 Hn2].
  destruct (log2_bracket (Zpos d) eq_refl) as [Hd1 Hd2].
  assert (Hq : (n # d) * inject_Z (Zpos d) == inject_Z n).
  { rewrite (Qmake_Qdiv n d). field. discriminate. }
  assert (HD : 0 < inject_Z (Zpos d)) by reflexivity.
  unfold ilog2. cbn [Qnum Qden].
  set (ln := Z.log2 n) in *. set (ld := Z.log2 (Zpos d)) in *.
  assert (Hl : 2 ^ (ln - ld) * 2 ^ ld == 2 ^ ln).
  { rewrite <- pow2_add. now replace (ln - ld + ld)%Z with ln by lia. }
  pose proof (pow2_pos ln) as Pn. pose proof (pow2_pos ld) as Pd.
  pose proof (pow2_pos (ln - ld)) as Pl.
  destruct (Qle_bool (2 ^ (ln - ld)) (n # d)) eqn:Hle.
  - apply Qle_bool_iff in Hle. split; [exact Hle|].
    rewrite pow2_add. change (2 ^ 1) with 2.
    generalize dependent (2 ^ (ln - ld)). generalize dependent (2 ^ ln).
    generalize dependent (2 ^ ld). generalize dependent (inject_Z n).
    generalize dependent (inject_Z (Zpos d)). intros D HD N PLd PLn P. intros. nra.
  - assert (Hlt : (n # d) < 2 ^ (ln - ld)).
    { apply Qnot_le_lt. intros Hc. apply Qle_bool_iff in Hc. congruence. }
    replace (ln - ld - 1 + 1)%Z with (ln - ld)%Z by lia. split; [|exact Hlt].
    assert (Hh : 2 ^ (ln - ld) == 2 * 2 ^ (ln - ld - 1)).
    { replace (ln - ld)%Z with (ln - ld - 1 + 1)%Z at 1 by lia.
      rewrite pow2_add. change (2 ^ 1) with 2. ring. }
    pose proof (pow2_pos (ln - ld - 1)) as Ph.
    generalize dependent (2 ^ (ln - ld - 1)).
    generalize dependent (2 ^ (ln - ld)). generalize dependent (2 ^ ln).
    generalize dependent (2 ^ ld). generalize dependent (inject_Z n).
    generalize dependent (inject_Z (Zpos d)). intros. nra.
Qed.

(** The nearest integer is within one half. *)
Lemma nearest_even_spec y : Qabs (inject_Z (nearest_even y) - y) <= 1 # 2.
Proof.
  unfold nearest_even. pose proof (Qfloor_le y) as Hlo.
  pose proof (Qlt_floor y) as Hhi. rewrite inject_Z_plus in Hhi.
  change (inject_Z 1) with 1 in Hhi.
  apply Qabs_Qle_condition.
  destruct (Qcompare_spec (y - inject_Z (Qfloor y)) (1 # 2)) as [He|Hl|Hg].
  - destruct (Z.even (Qfloor y)); rewrite ?inject_Z_plus;
      change (inject_Z 1) with 1; lra.
  - lra.
  - rewrite inject_Z_plus. change (inject_Z 1) with 1. lra.
Qed.

(** Rounding a positive value to [p] bits: the relative error is at most
    [2^-p]. *)
Lemma round_pos_error p x :
  0 < x -> Qabs (round_pos p x - x) <= x * 2 ^ (- p).
Proof.
  intros Hx. unfold round_pos. rewrite Qred_correct.
  destruct (ilog2_spec x Hx) as [Hlo _].
  set (e := (ilog2 x - (p - 1))%Z).
  pose proof (nearest_even_spec (x / 2 ^ e)) as Hm.
  apply Qabs_Qle_condition in Hm. apply Qabs_Qle_condition.
  assert (He : 2 ^ e == 2 * (2 ^ ilog2 x * 2 ^ (- p))).
  { rewrite <- pow2_add. change 2 with (2 ^ 1) at 2. rewrite <- pow2_add.
    subst e. now replace (ilog2 x - (p - 1))%Z with (1 + (ilog2 x + - p))%Z by lia. }
  assert (Hy : x / 2 ^ e * 2 ^ e == x).
  { field. pose proof (pow2_pos e). lra. }
  pose proof (pow2_pos e) as Pe. pose proof (pow2_pos (- p)) as Pp.
  pose proof (pow2_pos (ilog2 x)) as Pl.
  generalize dependent (inject_Z (nearest_even (x / 2 ^ e))).
  generalize dependent (x / 2 ^ e). generalize dependent (2 ^ e).
  generalize dependent (2 ^ (- p)). generalize dependent (2 ^ ilog2 x).
  intros L HL PL T PT E HE PE y Hy m Hm. nra.
Qed.

Lemma round_positive p x : 0 < x -> round p x = round_pos p x.
Proof. intros Hx. unfold round. apply Qgt_alt in Hx. now rewrite Hx. Qed.

Lemma round_error p x : 0 < x -> Qabs (round p x - x) <= x * 2 ^ (- p).
Proof. intros Hx. rewrite round_positive by assumption. now apply round_pos_error. Qed.

Lemma Qabs_positive x : 0 < x -> Qabs x == x.
Proof. intros H. apply Qabs_pos. lra. Qed.

Section Float64.

Variable denormal : Q -> float64.

(** The conversion of a positive amount by a divisor of at most [10^18]:
    neither rounding leaves the range of the normal [float64] values, and the
    result is within [2^-52] of the quotient, relatively. *)
Lemma conversion_accurate (wei D : Z) :
  (0 < wei < 2 ^ 256)%Z -> (1 <= D <= 10 ^ 18)%Z ->
  exists v,
    Float64 denormal (Quo (SetInt wei) (SetInt D)) = Finite v /\
    Qabs (v - inject_Z wei / inject_Z D)
    <= inject_Z wei / inject_Z D * 2 ^ (- 52).
Proof.
  intros [Hw0 Hw1] [HD0 HD1].
  set (x := inject_Z wei / inject_Z D).
  assert (HDq : 1 <= inject_Z D <= 1000000000000000000).
  { split; [change 1 with (inject_Z 1) | change 1000000000000000000 with (inject_Z (10 ^ 18))];
      rewrite <- Zle_Qle; lia. }
  assert (Hwq : 1 <= inject_Z wei < 2 ^ 256).
  { split; [change 1 with (inject_Z 1); rewrite <- Zle_Qle; lia|].
    rewrite <- pow2_inject, <- Zlt_Qlt by lia. exact Hw1. }
  assert (HxD : x * inject_Z D == inject_Z wei) by (unfold x; field; lra).
  assert (Hx0 : 0 < x).
  { apply (Qmult_lt_r _ _ (inject_Z D)); [lra|]. rewrite HxD. lra. }
  assert (Hxlo : 1 # 1000000000000000000 <= x).
  { apply (Qmult_le_r _ _ (inject_Z D)); [lra|]. rewrite HxD.
    generalize dependent (inject_Z D). intros. nra. }
  assert (Hxhi : x < 2 ^ 256).
  { apply Qle_lt_trans with (inject_Z wei); [|tauto]. rewrite <- HxD.
    generalize dependent (inject_Z D). intros. nra. }
  set (p := Z.max (prec (SetInt wei)) (prec (SetInt D))).
  assert (Hp : (64 <= p)%Z) by (subst p; unfold SetInt; cbn [prec]; lia).
  set (r1 := round p x).
  assert (H1 : Qabs (r1 - x) <= x * (1 # 18446744073709551616)).
  { eapply Qle_trans; [apply round_error; exact Hx0|].
    apply Qmult_le_l; [exact Hx0|].
    change (1 # 18446744073709551616) with (2 ^ (- 64)). apply pow2_le. lia. }
  apply Qabs_Qle_condition in H1.
  assert (Hr1 : 0 < r1) by lra.
  set (r2 := round 53 r1).
  pose proof (round_error 53 r1 Hr1) as H2. fold r2 in H2.
  change (2 ^ Z.opp 53) with (1 # 9007199254740992) in H2.
  apply Qabs_Qle_condition in H2.
  assert (Hr2 : 0 < r2) by lra.
  assert (Hval : val (Quo (SetInt wei) (SetInt D)) = r1) by reflexivity.
  unfold Float64. rewrite Hval.
  assert (Hnz : Qeq_bool r1 0 = false).
  { destruct (Qeq_bool r1 0) eqn:E; [|reflexivity].
    apply Qeq_bool_iff in E. lra. }
  rewrite Hnz.
  assert (Hmin : (ilog2 (Qabs r1) <? emin)%Z = false).
  { apply Z.ltb_ge.
    pose proof (Qabs_positive r1 Hr1) as Hab.
    assert (Ha : 0 < Qabs r1) by lra.
    destruct (ilog2_spec _ Ha) as [_ Hhi].
    assert (Hlt : 2 ^ emin < 2 ^ (ilog2 (Qabs r1) + 1)).
    { apply Qle_lt_trans with (2 ^ (- 62)); [apply pow2_le; unfold emin; lia|].
      change (2 ^ (- 62)) with (1 # 4611686018427387904). lra. }
    apply pow2_lt_inv in Hlt. lia. }
  rewrite Hmin. fold r2.
  assert (Hmax : (emax <? ilog2 (Qabs r2))%Z = false).
  { apply Z.ltb_ge.
    pose proof (Qabs_positive r2 Hr2) as Hab.
    assert (Ha : 0 < Qabs r2) by lra.
    destruct (ilog2_spec _ Ha) as [Hlo _].
    assert (Hlt : 2 ^ ilog2 (Qabs r2) < 2 ^ 258).
    { change (2 ^ 258) with (4 * 2 ^ 256). lra. }
    apply pow2_lt_inv in Hlt. unfold emax. lia. }
  rewrite Hmax. exists r2. split; [reflexivity|].
  apply Qabs_Qle_condition. change (2 ^ (- 52)) with (1 # 4503599627370496).
  fold x. lra.
Qed.

Lemma conversion_zero_gwei :
  Float64 denormal (Quo (SetInt 0) (SetInt 1000000000)) = Finite 0.
Proof. reflexivity. Qed.

Lemma conversion_zero_ether :
  Float64 denormal (Quo (SetInt 0) (SetInt 1000000000000000000)) = Finite 0.
Proof. reflexivity. Qed.

End Float64.

End big_proofs.

(** * The aggregation *)

Module usecase_proofs.

Import entity repository usecase aggregation.

Lemma call_eqb_eq a b : call_eqb a b = true <-> a = b.
Proof. destruct a, b; cbn; split; congruence. Qed.

Lemma In_remove_call c x l : In x (remove_call c l) <-> In x l /\ x <> c.
Proof.
  unfold remove_call. rewrite filter_In. split; intros [H1 H2]; split; auto.
  - intros ->. destruct c; discriminate.
  - destruct (call_eqb c x) eqn:E; [|reflexivity].
    apply call_eqb_eq in E. congruence.
Qed.

Section runs.

Variable denormal : Q -> big.float64.
Variable repo : EthereumRepository.
Variable address : string.
Variable now : Time.

Local Abbreviation inv := (run_inv repo address).

Lemma init_inv : inv init.
Proof.
  unfold run_inv, init, sender_ok. cbn. repeat split; try discriminate.
  - tauto.
  - exists false, false, false. unfold received_ok. cbn.
    repeat split; discriminate.
Qed.

Lemma received_ok_shrink sp sp' c ch got var :
  (forall x, In x sp' -> In x sp) ->
  received_ok repo address sp c ch got var ->
  received_ok repo address sp' c ch got var.
Proof.
  intros Hs H Hgot. destruct (H Hgot) as (Hv & Hc & Hn). repeat split; auto.
Qed.

Lemma sender_ok_shrink sp sp' c ch :
  (forall x, In x sp' -> In x sp) ->
  sender_ok repo address sp c ch -> sender_ok repo address sp' c ch.
Proof. intros Hs H v Hv. destruct (H v Hv). split; auto. Qed.

(** A goroutine that sends its value: the channel was empty of received
    values, since the goroutine had not returned. *)
Lemma sender_ok_send sp c v :
  call_result repo address c = Ok v ->
  sender_ok repo address (remove_call c sp) c (Some v).
Proof.
  intros Hres w [= <-]. split; [exact Hres|]. rewrite In_remove_call. tauto.
Qed.

Lemma received_ok_send sp c ch ch' got var :
  In c sp ->
  received_ok repo address sp c ch got var ->
  received_ok repo address (remove_call c sp) c ch' got var.
Proof. intros Hc H Hgot. destruct (H Hgot) as (_ & _ & Hn). contradiction. Qed.

Lemma goroutine_inv c st :
  inv st -> In c (spawned st) -> inv (goroutine repo address c st).
Proof.
  intros (Herr & Hg & Hb & Ha & gg & gb & ga & Hi & Rg & Rb & Ra) Hc.
  assert (Hsub : forall x, In x (remove_call c (spawned st)) -> In x (spawned st))
    by (intros x Hx; now apply In_remove_call in Hx).
  pose proof (sender_ok_shrink _ _ _ _ Hsub Hg) as Hg'.
  pose proof (sender_ok_shrink _ _ _ _ Hsub Hb) as Hb'.
  pose proof (sender_ok_shrink _ _ _ _ Hsub Ha) as Ha'.
  pose proof (received_ok_shrink _ _ _ _ _ _ Hsub Rg) as Rg'.
  pose proof (received_ok_shrink _ _ _ _ _ _ Hsub Rb) as Rb'.
  pose proof (received_ok_shrink _ _ _ _ _ _ Hsub Ra) as Ra'.
  unfold goroutine. destruct (call_result repo address c) as [v|err] eqn:Hres.
  - pose proof (sender_ok_send (spawned st) c v Hres) as Hsend.
    destruct c; unfold run_inv;
      cbn [spawned errCh gasPriceCh blockNumberCh balanceCh i gasPrice
           blockNumber balance];
      (split; [exact Herr|]); repeat (split; [assumption|]);
      exists gg, gb, ga; (split; [exact Hi|]);
      (split; [|split]);
      first [ assumption | eapply received_ok_send; eassumption ].
  - unfold run_inv;
      cbn [spawned errCh gasPriceCh blockNumberCh balanceCh i gasPrice
           blockNumber balance].
    split.
    { intros e He. apply in_app_or in He as [He|[<-|[]]]; [now apply Herr|].
      now exists c, err. }
    repeat (split; [assumption|]).
    exists gg, gb, ga. split; [exact Hi|]. split; [|split]; assumption.
Qed.

Lemma select_inv c st st' :
  inv st -> select c st = Some (inr st') -> inv st'.
Proof.
  intros (Herr & Hg & Hb & Ha & gg & gb & ga & Hi & Rg & Rb & Ra) Hsel.
  destruct c; cbn [select] in Hsel.
  - destruct (ctx_err st); discriminate.
  - destruct (errCh st); discriminate.
  - destruct (gasPriceCh st) as [v|] eqn:Hch; [|discriminate].
    injection Hsel as <-. destruct (Hg v eq_refl) as [Hres Hn].
    assert (gg = false) as ->.
    { destruct gg; [|reflexivity]. destruct (Rg eq_refl) as (_ & Hc & _). discriminate. }
    unfold run_inv. cbn [spawned errCh gasPriceCh blockNumberCh balanceCh i
                         gasPrice blockNumber balance].
    split; [exact Herr|]. split; [intros w Hw; discriminate|].
    split; [exact Hb|]. split; [exact Ha|].
    exists true, gb, ga. split; [rewrite Hi; reflexivity|].
    split; [|split; assumption]. intros _. eauto.
  - destruct (blockNumberCh st) as [v|] eqn:Hch; [|discriminate].
    injection Hsel as <-. destruct (Hb v eq_refl) as [Hres Hn].
    assert (gb = false) as ->.
    { destruct gb; [|reflexivity]. destruct (Rb eq_refl) as (_ & Hc & _). discriminate. }
    unfold run_inv. cbn [spawned errCh gasPriceCh blockNumberCh balanceCh i
                         gasPrice blockNumber balance].
    split; [exact Herr|]. split; [exact Hg|].
    split; [intros w Hw; discriminate|]. split; [exact Ha|].
    exists gg, true, ga. split; [rewrite Hi; cbn; lia|].
    split; [assumption|split; [|assumption]]. intros _. eauto.
  - destruct (balanceCh st) as [v|] eqn:Hch; [|discriminate].
    injection Hsel as <-. destruct (Ha v eq_refl) as [Hres Hn].
    assert (ga = false) as ->.
    { destruct ga; [|reflexivity]. destruct (Ra eq_refl) as (_ & Hc & _). discriminate. }
    unfold run_inv. cbn [spawned errCh gasPriceCh blockNumberCh balanceCh i
                         gasPrice blockNumber balance].
    split; [exact Herr|]. split; [exact Hg|]. split; [exact Hb|].
    split; [intros w Hw; discriminate|].
    exists gg, gb, true. split; [rewrite Hi; cbn; lia|].
    split; [assumption|split; [assumption|]]. intros _. eauto.
Qed.

(** A [select] that makes the function return gives an error: one sent by a
    goroutine, or that of the context. *)
Lemma select_return c st out :
  inv st -> select c st = Some (inl out) ->
  all_or_named_error denormal repo address now out \/
  exists reason,
    ctx_err st = Some reason /\
    out = Return None (Some (wrapError "context cancelled: " reason)).
Proof.
  intros (Herr & _) Hsel. destruct c; cbn [select] in Hsel.
  - destruct (ctx_err st) as [reason|]; [|discriminate].
    injection Hsel as <-. right. eauto.
  - destruct (errCh st) as [|err l] eqn:Hch; [discriminate|].
    injection Hsel as <-. left. right. exists err. split; [reflexivity|].
    apply Herr. now left.
  - destruct (gasPriceCh st); discriminate.
  - destruct (blockNumberCh st); discriminate.
  - destruct (balanceCh st); discriminate.
Qed.

(** After three values have been received, all three variables are set. *)
Lemma build_populated st :
  inv st -> (3 <= i st)%nat ->
  exists info,
    build denormal address now st = Return (Some info) None /\
    populated denormal repo address now info.
Proof.
  intros (_ & _ & _ & _ & gg & gb & ga & Hi & Rg & Rb & Ra) H3.
  destruct gg, gb, ga; cbn in Hi; try lia.
  destruct (Rg eq_refl) as ((g & Hg & Hrg) & _).
  destruct (Rb eq_refl) as ((b & Hb & Hrb) & _).
  destruct (Ra eq_refl) as ((a & Ha & Hra) & _).
  injection Hb as Hb. unfold build. rewrite Hg, Ha, Hb.
  eexists. split; [reflexivity|]. exists g, b, a. auto.
Qed.

Lemma run_outcome events : forall st out,
  inv st -> run denormal repo address now events st = Some (inl out) ->
  all_or_named_error denormal repo address now out \/
  exists reason,
    (ctx_err st = Some reason \/ In (Cancel reason) events) /\
    out = Return None (Some (wrapError "context cancelled: " reason)).
Proof.
  induction events as [|e events IH]; intros st out Hinv Hrun.
  - cbn [run] in Hrun. destruct (3 <=? i st)%nat eqn:H3; [|discriminate].
    injection Hrun as <-. apply Nat.leb_le in H3.
    destruct (build_populated st Hinv H3) as (info & -> & Hp). left. left. eauto.
  - cbn [run] in Hrun. destruct (3 <=? i st)%nat eqn:H3.
    { injection Hrun as <-. apply Nat.leb_le in H3.
      destruct (build_populated st Hinv H3) as (info & -> & Hp). left. left. eauto. }
    destruct e as [c|reason|c].
    + destruct (existsb (call_eqb c) (spawned st)) eqn:Hc; [|discriminate].
      apply existsb_exists in Hc as (x & Hx & Heq). apply call_eqb_eq in Heq. subst x.
      destruct (IH _ _ (goroutine_inv c st Hinv Hx) Hrun) as [H|(r & Hr & ->)];
        [now left|]. right. exists r. split; [|reflexivity].
      destruct Hr as [Hr|Hr]; [left|right; now right].
      unfold goroutine in Hr. destruct (call_result repo address c), c; exact Hr.
    + destruct (ctx_err st) eqn:Hctx; [discriminate|].
      assert (Hinv' : inv (mkState (spawned st) (errCh st) (gasPriceCh st)
                             (blockNumberCh st) (balanceCh st) (Some reason)
                             (i st) (gasPrice st) (blockNumber st) (balance st)))
        by exact Hinv.
      destruct (IH _ _ Hinv' Hrun) as [H|(r & Hr & ->)]; [now left|].
      right. exists r. split; [|reflexivity]. right.
      destruct Hr as [[= ->]|Hr]; [now left | now right].
    + destruct (select c st) as [[o|st']|] eqn:Hsel; [| |discriminate].
      * injection Hrun as <-.
        destruct (select_return c st o Hinv Hsel) as [H|(r & Hr & ->)]; [now left|].
        right. eauto.
      * destruct (IH _ _ (select_inv c st st' Hinv Hsel) Hrun) as [H|(r & Hr & ->)];
          [now left|]. right. exists r. split; [|reflexivity].
        destruct Hr as [Hr|Hr]; [left|right; now right].
        destruct c; cbn [select] in Hsel;
          repeat match type of Hsel with
                 | match ?x with _ => _ end = _ => destruct x; try discriminate
                 end; injection Hsel as <-; exact Hr.
Qed.

Lemma GetAddressInfo_run events out :
  GetAddressInfo denormal repo address now events = Some out <->
  run denormal repo address now events init = Some (inl out).
Proof.
  unfold GetAddressInfo.
  destruct (run denormal repo address now events init) as [[o|st]|];
    split; intros H; try discriminate H; congruence.
Qed.

(** ** Every unfinished run can be finished *)

Lemma run_nil st :
  run denormal repo address now [] st
  = if (3 <=? i st)%nat then Some (inl (build denormal address now st))
    else Some (inr st).
Proof. reflexivity. Qed.

Lemma run_done events st :
  (3 <=? i st)%nat = true ->
  run denormal repo address now events st
  = Some (inl (build denormal address now st)).
Proof. intros H. destruct events; cbn [run]; now rewrite H. Qed.

Lemma run_app ev1 : forall st ev2,
  run denormal repo address now (ev1 ++ ev2) st =
  match run denormal repo address now ev1 st with
  | Some (inr st') => run denormal repo address now ev2 st'
  | r => r
  end.
Proof.
  induction ev1 as [|e ev1 IH]; intros st ev2.
  - rewrite run_nil. cbn [app].
    destruct (3 <=? i st)%nat eqn:H3; [now apply run_done | reflexivity].
  - cbn [app run]. destruct (3 <=? i st)%nat; [reflexivity|].
    destruct e as [c|reason|c].
    + destruct (existsb _ _); [apply IH | reflexivity].
    + destruct (ctx_err st); [reflexivity | apply IH].
    + destruct (select c st) as [[o|st']|]; [reflexivity | apply IH | reflexivity].
Qed.

Lemma remove_call_absent c l : ~ In c l -> remove_call c l = l.
Proof.
  unfold remove_call. induction l as [|y l IH]; [reflexivity|].
  intros Hn. cbn [List.filter]. destruct (call_eqb c y) eqn:E.
  - apply call_eqb_eq in E. subst y. exfalso. apply Hn. now left.
  - cbn [negb]. f_equal. apply IH. intros H. apply Hn. now right.
Qed.

Lemma length_remove_call c l :
  NoDup l -> In c l -> S (length (remove_call c l)) = length l.
Proof.
  induction 1 as [|x l Hx Hnd IH]; [intros []|].
  rewrite list_elem_of_In in Hx.
  assert (Hcons : forall y, remove_call c (y :: l)
                  = if negb (call_eqb c y) then y :: remove_call c l
                    else remove_call c l) by reflexivity.
  intros [->|Hin]; rewrite Hcons.
  - replace (call_eqb c c) with true by (now destruct c). cbn [negb length].
    now rewrite (remove_call_absent c l Hx).
  - destruct (call_eqb c x) eqn:E.
    + apply call_eqb_eq in E. subst x. contradiction.
    + cbn [negb length]. f_equal. now apply IH.
Qed.

Lemma NoDup_remove_call c l : NoDup l -> NoDup (remove_call c l).
Proof.
  unfold remove_call. induction 1 as [|x l Hx Hnd IH]; [constructor|].
  cbn [List.filter]. destruct (negb (call_eqb c x)); [|exact IH].
  constructor; [|exact IH]. rewrite list_elem_of_In, filter_In.
  rewrite list_elem_of_In in Hx. tauto.
Qed.

Local Abbreviation acc := accounted.

Lemma init_accounted : acc init.
Proof.
  split; [|reflexivity]. unfold init. cbn [spawned].
  repeat constructor; rewrite list_elem_of_In; cbn; intuition discriminate.
Qed.

Lemma goroutine_accounted c st :
  inv st -> acc st -> In c (spawned st) -> acc (goroutine repo address c st).
Proof.
  intros (_ & Hg & Hb & Ha & _) [Hnd Hsum] Hc.
  pose proof (length_remove_call c _ Hnd Hc) as Hlen.
  pose proof (NoDup_remove_call c _ Hnd) as Hnd'.
  assert (Hnone : forall ch, sender_ok repo address (spawned st) c ch -> ch = None).
  { intros [v|] H; [|reflexivity]. destruct (H v eq_refl). contradiction. }
  unfold goroutine, accounted.
  destruct (call_result repo address c) as [v|err].
  - destruct c;
      cbn [spawned errCh gasPriceCh blockNumberCh balanceCh i];
      (split; [exact Hnd'|]);
      [ rewrite (Hnone _ Hg) in Hsum | rewrite (Hnone _ Hb) in Hsum
      | rewrite (Hnone _ Ha) in Hsum ];
      cbn [waiting] in *; lia.
  - cbn [spawned errCh gasPriceCh blockNumberCh balanceCh i].
    split; [exact Hnd'|]. rewrite length_app. cbn [length]. lia.
Qed.

Lemma select_accounted c st st' :
  acc st -> select c st = Some (inr st') -> acc st'.
Proof.
  intros [Hnd Hsum] Hsel. destruct c; cbn [select] in Hsel.
  - destruct (ctx_err st); discriminate.
  - destruct (errCh st); discriminate.
  - destruct (gasPriceCh st) eqn:E; [|discriminate]. injection Hsel as <-.
    split; [exact Hnd|]. cbn [spawned errCh gasPriceCh blockNumberCh balanceCh i waiting] in *. lia.
  - destruct (blockNumberCh st) eqn:E; [|discriminate]. injection Hsel as <-.
    split; [exact Hnd|]. cbn [spawned errCh gasPriceCh blockNumberCh balanceCh i waiting] in *. lia.
  - destruct (balanceCh st) eqn:E; [|discriminate]. injection Hsel as <-.
    split; [exact Hnd|]. cbn [spawned errCh gasPriceCh blockNumberCh balanceCh i waiting] in *. lia.
Qed.

(** The states of a run keep both invariants. *)
Lemma run_state events : forall st st',
  inv st -> acc st ->
  run denormal repo address now events st = Some (inr st') ->
  inv st' /\ acc st'.
Proof.
  induction events as [|e events IH]; intros st st' Hinv Hacc Hrun;
    cbn [run] in Hrun; destruct (3 <=? i st)%nat; try discriminate.
  - injection Hrun as <-. auto.
  - destruct e as [c|reason|c].
    + destruct (existsb (call_eqb c) (spawned st)) eqn:Hc; [|discriminate].
      apply existsb_exists in Hc as (x & Hx & Heq). apply call_eqb_eq in Heq. subst x.
      apply (IH _ _ (goroutine_inv c st Hinv Hx)
               (goroutine_accounted c st Hinv Hacc Hx) Hrun).
    + destruct (ctx_err st); [discriminate|].
      apply (IH (mkState (spawned st) (errCh st) (gasPriceCh st)
                   (blockNumberCh st) (balanceCh st) (Some reason) (i st)
                   (gasPrice st) (blockNumber st) (balance st)) st' Hinv Hacc Hrun).
    + destruct (select c st) as [[o|st1]|] eqn:Hsel; try discriminate.
      apply (IH _ _ (select_inv c st st1 Hinv Hsel)
               (select_accounted c st st1 Hacc Hsel) Hrun).
Qed.

(** From any state of a run the function can go on until it returns: an
    error is received if one is queued, else a waiting value, else a goroutine
    still has to return. *)
Lemma can_return n : forall st,
  inv st -> acc st ->
  (2 * (3 - i st) + length (spawned st) <= n)%nat ->
  exists more out, run denormal repo address now more st = Some (inl out).
Proof.
  induction n as [|n IH]; intros st Hinv Hacc Hn;
    destruct (3 <=? i st)%nat eqn:H3;
    try (exists [], (build denormal address now st); now rewrite run_nil, H3).
  - apply Nat.leb_gt in H3. lia.
  - pose proof H3 as H3'. apply Nat.leb_gt in H3'.
    destruct (errCh st) as [|err l] eqn:Herr.
    + destruct (gasPriceCh st) as [v|] eqn:Eg;
        [|destruct (blockNumberCh st) as [v|] eqn:Eb;
          [|destruct (balanceCh st) as [v|] eqn:Ea]].
      * assert (Hsel : exists st', select CaseGasPrice st = Some (inr st') /\ i st' = S (i st)
                                   /\ spawned st' = spawned st)
          by (cbn [select]; rewrite Eg; eauto).
        destruct Hsel as (st' & Hsel & Hi & Hsp).
        destruct (IH st' (select_inv _ _ _ Hinv Hsel) (select_accounted _ _ _ Hacc Hsel))
          as (more & out & Hmore); [rewrite Hi, Hsp; lia|].
        exists (Select CaseGasPrice :: more), out. cbn [run]. now rewrite H3, Hsel.
      * assert (Hsel : exists st', select CaseBlockNumber st = Some (inr st') /\ i st' = S (i st)
                                   /\ spawned st' = spawned st)
          by (cbn [select]; rewrite Eb; eauto).
        destruct Hsel as (st' & Hsel & Hi & Hsp).
        destruct (IH st' (select_inv _ _ _ Hinv Hsel) (select_accounted _ _ _ Hacc Hsel))
          as (more & out & Hmore); [rewrite Hi, Hsp; lia|].
        exists (Select CaseBlockNumber :: more), out. cbn [run]. now rewrite H3, Hsel.
      * assert (Hsel : exists st', select CaseBalance st = Some (inr st') /\ i st' = S (i st)
                                   /\ spawned st' = spawned st)
          by (cbn [select]; rewrite Ea; eauto).
        destruct Hsel as (st' & Hsel & Hi & Hsp).
        destruct (IH st' (select_inv _ _ _ Hinv Hsel) (select_accounted _ _ _ Hacc Hsel))
          as (more & out & Hmore); [rewrite Hi, Hsp; lia|].
        exists (Select CaseBalance :: more), out. cbn [run]. now rewrite H3, Hsel.
      * destruct Hacc as [Hnd Hsum]. rewrite Herr, Eg, Eb, Ea in Hsum.
        cbn [waiting length] in Hsum.
        destruct (spawned st) as [|c sp] eqn:Hsp; [cbn [length] in Hsum; lia|].
        assert (Hc : In c (spawned st)) by (rewrite Hsp; now left).
        assert (Hacc : acc st) by (split; [now rewrite Hsp | rewrite Herr, Eg, Eb, Ea, Hsp; exact Hsum]).
        pose proof (length_remove_call c (spawned st)
                      ltac:(now rewrite Hsp) Hc) as Hlen.
        destruct (IH (goroutine repo address c st)
                    (goroutine_inv c st Hinv Hc)
                    (goroutine_accounted c st Hinv Hacc Hc))
          as (more & out & Hmore).
        { assert (Hi : i (goroutine repo address c st) = i st)
            by (unfold goroutine; destruct (call_result repo address c), c; reflexivity).
          assert (Hs : spawned (goroutine repo address c st) = remove_call c (spawned st))
            by (unfold goroutine; destruct (call_result repo address c), c; reflexivity).
          assert (Hl : length (spawned st) = S (length sp)) by now rewrite Hsp.
          rewrite Hi, Hs. cbn [length] in Hn. lia. }
        exists (Returns c :: more), out. cbn [run]. rewrite H3.
        replace (existsb (call_eqb c) (spawned st)) with true; [exact Hmore|].
        symmetry. apply existsb_exists. exists c. split; [exact Hc | now destruct c].
    + exists [Select CaseErr], (Return None (Some err)).
      cbn [run select]. now rewrite H3, Herr.
Qed.

(** The run in which the calls return first is a run of the function. *)
Lemma calls_first_returns :
  exists out,
    GetAddressInfo denormal repo address now (calls_first repo address) = Some out.
Proof.
  unfold GetAddressInfo, calls_first.
  destruct repo as [rg rb ra]. cbn [GetGasPrice GetCurrentBlock GetAddressBalance].
  destruct rg as [g|eg], rb as [b|eb], (ra address) as [a|ea] eqn:Ha;
    do 3 (cbv -[build]; rewrite ?Ha); eauto.
Qed.

End runs.

(** C1 as stated fails: when the context is cancelled, the error returned
    names no call, and no call has failed. *)
Lemma GetAddressInfo_cancelled_names_no_call :
  let out := Return None (Some (wrapError "context cancelled: " DeadlineExceeded)) in
  GetAddressInfo no_denormal node_ok zero_address 0
    [Cancel DeadlineExceeded; Select CaseDone] = Some out /\
  ~ all_or_named_error no_denormal node_ok zero_address 0 out.
Proof.
  split; [reflexivity|].
  intros [(info & Hout & _)|(e & Hout & c & e0 & Hres & _)].
  - discriminate Hout.
  - destruct c; discriminate Hres.
Qed.

(** C1, amended: every run of [GetAddressInfo] returns either the entity with
    the three values of the node, or one error and no entity; the error is
    that of a failed call, wrapped under the name of the call, or that of the
    context cancelled during the run.  And the function does return: every
    unfinished run can be continued to one that returns. *)
Theorem GetAddressInfo_all_or_one_error (denormal : Q -> big.float64)
    (repo : EthereumRepository) (address : string) (now : Time) :
  (forall events st,
     run denormal repo address now events (init) = Some (inr st) ->
     exists more out,
       GetAddressInfo denormal repo address now (events ++ more) = Some out) /\
  (forall events out,
     GetAddressInfo denormal repo address now events = Some out ->
     all_or_one_error denormal repo address now events out) /\
  (forall events out,
     persistence.GetAddressInfo denormal repo address now events = Some out ->
     all_or_one_error denormal repo address now events out).
Proof.
  assert (H : forall events out,
     GetAddressInfo denormal repo address now events = Some out ->
     all_or_one_error denormal repo address now events out).
  { intros events out Hrun. apply GetAddressInfo_run in Hrun.
    destruct (run_outcome denormal repo address now events _ _
                (init_inv repo address) Hrun) as [H|(r & [Hr|Hr] & ->)].
    - now left.
    - discriminate Hr.
    - right. exists r. auto. }
  split; [|split; exact H].
  intros events st Hrun.
  destruct (run_state denormal repo address now events _ _
              (init_inv repo address) init_accounted Hrun) as [Hinv Hacc].
  destruct (can_return denormal repo address now _ st Hinv Hacc (Nat.le_refl _))
    as (more & out & Hmore).
  exists more, out. apply GetAddressInfo_run. now rewrite run_app, Hrun.
Qed.

Lemma GetAddressInfo_all_or_one_error_witness :
  GetAddressInfo no_denormal node_down zero_address 0
    [Returns gas_price; Select CaseErr]
  = Some (Return None
            (Some (wrapError "failed to get gas price: "
                     (errorString "connection refused")))) /\
  all_or_one_error no_denormal node_down zero_address 0
    [Returns gas_price; Select CaseErr]
    (Return None
       (Some (wrapError "failed to get gas price: "
                (errorString "connection refused")))).
Proof.
  split; [reflexivity|].
  apply (proj1 (proj2 (GetAddressInfo_all_or_one_error
                         no_denormal node_down zero_address 0))).
  reflexivity.
Defined.

End usecase_proofs.

(** * The conversions of the aggregation *)

Module conversion_proofs.

Import big entity repository usecase aggregation.

Local Open Scope Q_scope.

(** C7: on success the gwei field is the gas price divided by [10^9] and the
    ether field the balance divided by [10^18], as rationals rounded to a
    [float64]: for amounts of at most 256 bits the result is finite and within
    [2^-52] of the quotient, relatively; 12000000000 wei give exactly 12 gwei
    and 2500000000000000000 wei exactly 2.5 ether. *)
Theorem GetAddressInfo_conversions (denormal : Q -> float64)
    (repo : EthereumRepository) (address : string) (now : Time)
    (events : list event) (info : AddressInfo) :
  GetAddressInfo denormal repo address now events
    = Some (Return (Some info) None) ->
  exists g a : Z,
    GetGasPrice repo = Ok g /\ GetAddressBalance repo address = Ok a /\
    GasPrice_Wei (Info_GasPrice info) = Some g /\
    Balance_Wei (Info_Balance info) = Some a /\
    ((0 <= g < 2 ^ 256)%Z ->
     exists gwei,
       GasPrice_Gwei (Info_GasPrice info) = Finite gwei /\
       Qabs (gwei - inject_Z g / 1000000000)
       <= inject_Z g / 1000000000 * 2 ^ (-52)) /\
    ((0 <= a < 2 ^ 256)%Z ->
     exists ether,
       Balance_Ether (Info_Balance info) = Finite ether /\
       Qabs (ether - inject_Z a / 1000000000000000000)
       <= inject_Z a / 1000000000000000000 * 2 ^ (-52)) /\
    (g = 12000000000%Z -> GasPrice_Gwei (Info_GasPrice info) = Finite 12) /\
    (a = 2500000000000000000%Z ->
     Balance_Ether (Info_Balance info) = Finite (5 # 2)).
Proof.
  intros Hrun. apply usecase_proofs.GetAddressInfo_run in Hrun.
  destruct (usecase_proofs.run_outcome denormal repo address now events _ _
              (usecase_proofs.init_inv repo address) Hrun)
    as [[(info' & [= <-] & g & b & a & Hg & Hb & Ha & ->)
        |(e & [=] & _)]
       |(r & _ & [=])].
  exists g, a. cbn [Info_GasPrice Info_Balance GasPrice_Wei GasPrice_Gwei
                    Balance_Wei Balance_Ether].
  repeat (split; [assumption || reflexivity|]).
  split; [|split; [|split]].
  - intros [Hlo Hhi]. destruct (Z.eq_dec g 0%Z) as [->|Hnz].
    + exists 0. split; [apply big_proofs.conversion_zero_gwei|]. discriminate.
    + apply (big_proofs.conversion_accurate denormal g 1000000000); lia.
  - intros [Hlo Hhi]. destruct (Z.eq_dec a 0%Z) as [->|Hnz].
    + exists 0. split; [apply big_proofs.conversion_zero_ether|]. discriminate.
    + apply (big_proofs.conversion_accurate denormal a 1000000000000000000); lia.
  - intros ->. reflexivity.
  - intros ->. reflexivity.
Qed.

Lemma GetAddressInfo_conversions_witness :
  GetAddressInfo no_denormal node_ok zero_address 0
    (calls_first node_ok zero_address)
  = Some (Return (Some entity_ok) None) /\
  exists g a : Z,
    GetGasPrice node_ok = Ok g /\ GetAddressBalance node_ok zero_address = Ok a /\
    GasPrice_Wei (Info_GasPrice entity_ok) = Some g /\
    Balance_Wei (Info_Balance entity_ok) = Some a /\
    ((0 <= g < 2 ^ 256)%Z ->
     exists gwei,
       GasPrice_Gwei (Info_GasPrice entity_ok) = Finite gwei /\
       Qabs (gwei - inject_Z g / 1000000000)
       <= inject_Z g / 1000000000 * 2 ^ (-52)) /\
    ((0 <= a < 2 ^ 256)%Z ->
     exists ether,
       Balance_Ether (Info_Balance entity_ok) = Finite ether /\
       Qabs (ether - inject_Z a / 1000000000000000000)
       <= inject_Z a / 1000000000000000000 * 2 ^ (-52)) /\
    (g = 12000000000%Z -> GasPrice_Gwei (Info_GasPrice entity_ok) = Finite 12) /\
    (a = 2500000000000000000%Z ->
     Balance_Ether (Info_Balance entity_ok) = Finite (5 # 2)).
Proof.
  split; [reflexivity|].
  apply (GetAddressInfo_conversions no_denormal node_ok zero_address 0
           (calls_first node_ok zero_address) entity_ok).
  reflexivity.
Defined.

End conversion_proofs.

(** * Failures, as the caller sees them *)

Module pipeline_proofs.

Import gin response handler middleware disclosure.

(** C5 as stated fails for an upstream failure: the body carries the text of
    the upstream error in its "error" member. *)
Lemma GetAddressInfo_discloses_upstream_error :
  let c := request "0x742d35Cc6634C0532925a3b844Bc454e4438f44e" in
  let body :=
    JObject [("status", JString "error");
             ("message", JString "Internal server error");
             ("error", JString "failed to get gas price: connection refused")] in
  GetAddressInfo id id id a_timestamp failing_useCase c
    = Returned (mkContext (Params c) (Keys c) [(500, body)] false) /\
  ~ generic_body body.
Proof.
  split; [reflexivity|].
  intros (members & [= <-] & Hm).
  destruct (Hm "error" (JString "failed to get gas price: connection refused"))
    as [[Hk _]|[Hk _]]; [cbn; tauto | discriminate Hk | discriminate Hk].
Qed.

Section disclosure.

Variable TrimFunc_IsSpace : string -> string.
Variable TrimRightFunc_IsSpace : string -> string.
Variable Map_ToLower : string -> string.
Variable RFC3339 : Time -> string.

(** C5, amended: a recovered fault is answered with the generic body only,
    whatever the fault and its stack, which go to the log with the request
    identifier; an upstream failure is answered with the generic message and,
    next to it, an "error" member holding the text of the wrapped upstream
    error. *)
Theorem failure_bodies :
  (forall (next : HandlerFunc) (c c' : Context) (value stack : string),
     next c = Panicked value stack c' ->
     generic_body (error_H "Internal server error") /\
     Recovery next c
     = (mkContext (Params c') (Keys c')
          (Writer c' ++ [(500, error_H "Internal server error")]) true,
        [ mkEntry "error" "Panic recovered"
            [ ("request_id", Get c' RequestIDKey); ("error", Some value);
              ("stack", Some stack) ] ])) /\
  (forall (useCase : string -> usecase.outcome) (c : Context)
          (info : option entity.AddressInfo) (err : error),
     validator.IsValidAddress (Param c "address") = true ->
     useCase (validator.FormatAddress TrimFunc_IsSpace TrimRightFunc_IsSpace
                Map_ToLower (Param c "address"))
       = usecase.Return info (Some err) ->
     GetAddressInfo TrimFunc_IsSpace TrimRightFunc_IsSpace Map_ToLower RFC3339
       useCase c
     = Returned (mkContext (Params c) (Keys c)
                   (Writer c ++ [(500, upstream_failure_body err)])
                   (aborted c))).
Proof.
  split.
  - intros next c c' value stack Hnext. split.
    + exists [("message", JString "Internal server error"); ("status", JString "error")].
      split; [reflexivity|]. intros k v [[= <- <-]|[[= <- <-]|[]]]; auto.
    + unfold Recovery. rewrite Hnext. reflexivity.
  - intros useCase c info err Hvalid Huse.
    unfold GetAddressInfo. rewrite Hvalid. cbn [negb]. rewrite Huse.
    destruct info; reflexivity.
Qed.

End disclosure.

Lemma failure_bodies_witness :
  let c := request "0x742d35Cc6634C0532925a3b844Bc454e4438f44e" in
  let err := wrapError "failed to get gas price: " (errorString "connection refused") in
  (validator.IsValidAddress (Param c "address") = true /\
   failing_useCase (validator.FormatAddress id id id (Param c "address"))
   = usecase.Return None (Some err)) /\
  GetAddressInfo id id id a_timestamp failing_useCase c
  = Returned (mkContext (Params c) (Keys c)
                (Writer c ++ [(500, upstream_failure_body err)]) (aborted c)).
Proof.
  intros c err. split; [split; reflexivity|].
  apply (proj2 (failure_bodies id id id a_timestamp) failing_useCase c None err);
    reflexivity.
Defined.

(** * The timeout *)

(** C9 fails on the code: the handler is in flight when the timeout elapses;
    the middleware writes the 408 response and returns; the handler then
    finishes and writes its 200 response on the same context. *)
Theorem Timeout_abandoned_handler_writes_too :
  let c := request aggregation.zero_address in
  let next := GetAddressInfo id id id a_timestamp succeeding_useCase in
  (fun st => (returned st, Writer (ctx st))) <$>
    Timeout next [Dispatch; Expire; SelectCtxDone; Complete] (timeout_init c)
  = Some (true,
          [ (408, error_H "Request timed out");
            (200, JObject
                    [ ("status", JString "success");
                      ("data",
                        FormatAddressInfo a_timestamp aggregation.entity_ok) ]) ]).
Proof. vm_compute. reflexivity. Qed.

(** When the handler finishes first, only its response is written. *)
Example Timeout_handler_in_time :
  let c := request aggregation.zero_address in
  let next := GetAddressInfo id id id a_timestamp succeeding_useCase in
  (fun st => (returned st, Writer (ctx st))) <$>
    Timeout next [Dispatch; Complete; SelectDone] (timeout_init c)
  = Some (true,
          [ (200, JObject
                    [ ("status", JString "success");
                      ("data",
                        FormatAddressInfo a_timestamp aggregation.entity_ok) ]) ]).
Proof. vm_compute. reflexivity. Qed.

End pipeline_proofs.

(** * More on the rate limiter: runs in time, isolation, sweeps, whitelist *)

Module limiter_runs.

Import middleware schedule ratelimiter_proofs.

Section slices.

Variable spare : nat -> nat.

Lemma serve_cons o ops rl adm :
  serve spare (o :: ops) rl adm
  = serve spare ops (serve spare [o] rl adm).1 (serve spare [o] rl adm).2.
Proof.
  destruct o as [ip now|now|ip|ip]; cbn [serve]; try reflexivity.
  destruct (Limit spare rl ip now) as [[] rl']; reflexivity.
Qed.

Lemma in_window_in_window W W' l :
  W' <= W -> in_window W (in_window W' l) = in_window W l.
Proof.
  intros H. unfold in_window. induction l as [|t l IH]; [reflexivity|].
  destruct (decide (W' < t)) as [Ht|Ht].
  - rewrite (filter_cons_True (fun t => W' < t)) by assumption.
    rewrite !(filter_cons (fun t => W < t)). now rewrite IH.
  - rewrite (filter_cons_False (fun t => W' < t)) by assumption.
    rewrite (filter_cons_False (fun t => W < t)) by lia. exact IH.
Qed.

Lemma in_window_app W l1 l2 :
  in_window W (l1 ++ l2) = in_window W l1 ++ in_window W l2.
Proof. apply filter_app. Qed.

Lemma in_window_length W l : (length (in_window W l) <= length l)%nat.
Proof. apply length_filter. Qed.

(** A limiter whose limit is not negative never holds its mutex between
    calls. *)
Lemma run_ok_unlocked rl adm : run_ok rl adm -> 0 <= limit rl -> mu rl = false.
Proof. intros (_ & Hmu & _) H. destruct (mu rl); [specialize (Hmu eq_refl); lia | reflexivity]. Qed.

(** The verdict of [Limit] as a function of what the limiter stores. *)
Lemma Limit_verdict rl ip now :
  limiter_ok rl -> mu rl = false -> 0 <= limit rl ->
  (Limit spare rl ip now).1 =
  if whitelisted rl ip then Next
  else if decide (Z.of_nat (length (in_window (now - window rl) (timestamps rl ip)))
                  < limit rl)
       then Next else TooManyRequests.
Proof.
  intros Hok Hmu Hlim.
  destruct (Limit_spec spare rl ip now Hok) as (_ & _ & _ & _ & _ & Hv).
  destruct (Limit spare rl ip now).1.
  - destruct Hv as (_ & _ & [[-> _]|(-> & Hlt & _)]); [reflexivity|].
    now rewrite decide_True.
  - destruct Hv as (_ & _ & -> & Hge & _). now rewrite decide_False by lia.
  - destruct Hv as (_ & _ & Hneg & _). lia.
  - destruct Hv as [Hc _]. congruence.
Qed.

(** The stored timestamps after [Limit], for the caller. *)
Lemma Limit_timestamps rl ip now :
  limiter_ok rl -> mu rl = false -> 0 <= limit rl ->
  timestamps (Limit spare rl ip now).2 ip =
  if whitelisted rl ip then timestamps rl ip
  else if decide (Z.of_nat (length (in_window (now - window rl) (timestamps rl ip)))
                  < limit rl)
       then in_window (now - window rl) (timestamps rl ip) ++ [now]
       else timestamps rl ip.
Proof.
  intros Hok Hmu Hlim.
  destruct (Limit_spec spare rl ip now Hok) as (_ & _ & _ & _ & _ & Hv).
  destruct (Limit spare rl ip now).1.
  - destruct Hv as (_ & _ & [[-> ->]|(-> & Hlt & ->)]); [reflexivity|].
    now rewrite decide_True.
  - destruct Hv as (_ & _ & -> & Hge & ->). now rewrite decide_False by lia.
  - destruct Hv as (_ & _ & Hneg & _). lia.
  - destruct Hv as [Hc _]. congruence.
Qed.

Lemma serve_tracks ip ops : forall rl adm last,
  run_ok rl adm -> 0 <= limit rl -> tracks rl adm ip last ->
  chronological last ops -> ~ In (Whitelist ip) ops ->
  tracks (serve spare ops rl adm).1 (serve spare ops rl adm).2 ip
    (last_time last ops).
Proof.
  induction ops as [|o ops IH]; intros rl adm last Hrun Hlim Htr Hch Hnw;
    [exact Htr|].
  rewrite serve_cons. cbn [last_time].
  pose proof (run_run_ok spare [o] rl adm Hrun) as Hrun'.
  destruct (run_limit spare [o] rl adm) as [Hl' Hw'].
  assert (Hnw' : ~ In (Whitelist ip) ops) by (intros H; apply Hnw; now right).
  assert (Hno : o <> Whitelist ip) by (intros ->; apply Hnw; now left).
  pose proof (run_ok_unlocked rl adm Hrun Hlim) as Hmu.
  destruct Hrun as (Hok & _ & _). destruct Htr as [Hwl Htr].
  cbn [chronological] in Hch.
  destruct o as [ip' now|now|ip'|ip']; cbn [op_time default from_option] in *;
    unfold id in *.
  - destruct Hch as [Hle Hch].
    apply IH; [exact Hrun' | lia | | exact Hch | exact Hnw'].
    destruct (Limit_spec spare rl ip' now Hok) as (_ & _ & Hwin & Hwlist & Hframe & _).
    pose proof (Limit_verdict rl ip' now Hok Hmu Hlim) as Hv.
    pose proof (Limit_timestamps rl ip' now Hok Hmu Hlim) as Hts.
    cbn [serve] in *.
    destruct (Limit spare rl ip' now) as [v rl'] eqn:HL. cbn [fst snd] in *.
    assert (Hwl' : whitelisted rl' ip = false)
      by (unfold whitelisted in *; now rewrite Hwlist).
    destruct (decide (ip' = ip)) as [->|Hne].
    + rewrite Hwl in Hv, Hts.
      destruct (decide (Z.of_nat (length (in_window (now - window rl)
                  (timestamps rl ip))) < limit rl)) as [Hlt|Hge]; subst v;
        cbn [fst snd]; (split; [exact Hwl'|]); intros W HW; rewrite Hwin in HW.
      * rewrite Hts, admitted_for_app, decide_True by reflexivity.
        rewrite !in_window_app, in_window_in_window by lia.
        rewrite Htr by lia. reflexivity.
      * rewrite Hts. apply Htr. lia.
    + assert (Hsame : timestamps rl' ip = timestamps rl ip) by (apply Hframe; auto).
      destruct v; cbn [fst snd]; (split; [exact Hwl'|]); intros W HW;
        rewrite Hwin in HW; rewrite Hsame, ?admitted_for_app, ?decide_False, ?app_nil_r
          by assumption; apply Htr; lia.
  - destruct Hch as [Hle Hch].
    apply IH; [exact Hrun' | lia | | exact Hch | exact Hnw'].
    cbn [serve fst snd] in *. split.
    + unfold whitelisted, cleanup in *. now rewrite Hmu.
    + intros W HW. rewrite Hw' in HW.
      rewrite cleanup_timestamps, in_window_in_window by (assumption || lia).
      apply Htr. lia.
  - apply IH; [exact Hrun' | lia | | exact Hch | exact Hnw'].
    cbn [serve fst snd] in *. split.
    + unfold whitelisted, AddToWhitelist in *. rewrite Hmu.
      cbn [set_whitelistIPs whitelistIPs].
      rewrite lookup_insert_ne by congruence. exact Hwl.
    + intros W HW. rewrite Hw' in HW.
      replace (timestamps (AddToWhitelist rl ip') ip) with (timestamps rl ip)
        by (unfold timestamps, AddToWhitelist; now rewrite Hmu).
      now apply Htr.
  - apply IH; [exact Hrun' | lia | | exact Hch | exact Hnw'].
    cbn [serve fst snd] in *. split.
    + unfold whitelisted, RemoveFromWhitelist in *. rewrite Hmu.
      cbn [set_whitelistIPs whitelistIPs].
      destruct (decide (ip' = ip)) as [->|Hne];
        [now rewrite lookup_delete_eq | now rewrite lookup_delete_ne].
    + intros W HW. rewrite Hw' in HW.
      replace (timestamps (RemoveFromWhitelist rl ip') ip) with (timestamps rl ip)
        by (unfold timestamps, RemoveFromWhitelist; now rewrite Hmu).
      now apply Htr.
Qed.

Lemma New_tracks limit window ip last :
  tracks (NewRateLimiter limit window) [] ip last.
Proof.
  split; [reflexivity|]. intros W _. reflexivity.
Qed.

Lemma reachable_tracks limit window ops ip t0 :
  0 <= limit -> chronological t0 ops -> ~ In (Whitelist ip) ops ->
  let r := serve spare ops (NewRateLimiter limit window) [] in
  run_ok r.1 r.2 /\ middleware.limit r.1 = limit /\ middleware.window r.1 = window /\
  mu r.1 = false /\ tracks r.1 r.2 ip (last_time t0 ops).
Proof.
  intros Hlim Hch Hnw r. subst r.
  pose proof (run_run_ok spare ops _ _ (New_run_ok limit window)) as Hrun.
  destruct (run_limit spare ops (NewRateLimiter limit window) []) as [Hl Hw].
  cbn [NewRateLimiter middleware.limit middleware.window] in Hl, Hw.
  split; [exact Hrun|]. split; [exact Hl|]. split; [exact Hw|]. split.
  - apply (run_ok_unlocked _ _ Hrun). lia.
  - apply serve_tracks; auto using New_run_ok, New_tracks.
Qed.

(** X1: for a limit from 0 to [MaxLimit] (one for which
    [make] returns) and a window other than the least duration (so that
    [-rl.window] does not wrap): in a run in time, the verdict for an identity
    the run never whitelists is decided by the requests of that identity let
    through so far: the request goes on exactly when fewer than [limit] of
    them lie in the window that ends now. *)
Theorem Limit_decided_by_admitted (limit : Z) (window : Duration)
    (ops : list op) (ip : string) (t0 now : Time) :
  0 <= limit <= runtime.MaxLimit -> runtime.MinDuration < window ->
  chronological t0 ops -> ~ In (Whitelist ip) ops ->
  last_time t0 ops <= now ->
  let r := serve spare ops (NewRateLimiter limit window) [] in
  (Limit spare r.1 ip now).1 =
  if decide (Z.of_nat (length (in_window (now - window) (admitted_for ip r.2)))
             < limit)
  then Next else TooManyRequests.
Proof.
  intros [Hlim _] _ Hch Hnw Hnow r.
  destruct (reachable_tracks limit window ops ip t0 Hlim Hch Hnw)
    as ((Hok & _ & _) & Hl & Hw & Hmu & Hwl & Htr).
  fold r in Hok, Hl, Hw, Hmu, Hwl, Htr.
  rewrite Limit_verdict by (assumption || lia).
  rewrite Hwl, Hl, Hw, Htr by lia. reflexivity.
Qed.

(** X2: in a run in time, an identity the run never
    whitelists has at most [limit] requests let through in any window that
    ends at or after the last operation. *)
Theorem admitted_within_limit (limit : Z) (window : Duration)
    (ops : list op) (ip : string) (t0 T : Time) :
  0 <= limit -> chronological t0 ops -> ~ In (Whitelist ip) ops ->
  last_time t0 ops <= T ->
  let r := serve spare ops (NewRateLimiter limit window) [] in
  Z.of_nat (length (in_window (T - window) (admitted_for ip r.2))) <= limit.
Proof.
  intros Hlim Hch Hnw HT r.
  destruct (reachable_tracks limit window ops ip t0 Hlim Hch Hnw)
    as ((Hok & _ & _) & Hl & Hw & Hmu & Hwl & Htr).
  fold r in Hok, Hl, Hw, Hmu, Hwl, Htr.
  rewrite <- Htr by lia.
  pose proof (in_window_length (T - window) (timestamps r.1 ip)) as Hle.
  unfold timestamps in *. destruct (ips r.1 !! ip) as [s|] eqn:Hs.
  - destruct (Hok ip s Hs) as [Hsok Hlen].
    rewrite elems_length in Hle by assumption. lia.
  - cbn [length] in *. lia.
Qed.


(** X3: whatever the run, no identity has more than
    [limit] timestamps stored. *)
Theorem stored_within_limit (limit : Z) (window : Duration) (ops : list op)
    (ip : string) :
  let rl := (serve spare ops (NewRateLimiter limit window) []).1 in
  Z.of_nat (length (timestamps rl ip)) <= Z.max 0 limit.
Proof.
  intros rl.
  destruct (run_run_ok spare ops _ _ (New_run_ok limit window)) as (Hok & _ & _).
  destruct (run_limit spare ops (NewRateLimiter limit window) []) as [Hl _].
  fold rl in Hok, Hl. cbn [NewRateLimiter middleware.limit] in Hl.
  unfold timestamps. destruct (ips rl !! ip) as [s|] eqn:Hs.
  - destruct (Hok ip s Hs) as [Hsok Hlen].
    rewrite elems_length by assumption. lia.
  - cbn [length]. lia.
Qed.

(** X4: for a limit from 0 to [MaxLimit] (one for which
    [make] returns, so that no request leaves the mutex held) and a window
    other than the least duration: a request of one identity changes neither
    what is stored for another identity nor the verdict and the record of
    that other identity's next request. *)
Theorem Limit_isolated (limit : Z) (window : Duration) (ops : list op)
    (ip ip' : string) (now now' : Time) :
  0 <= limit <= runtime.MaxLimit -> runtime.MinDuration < window ->
  ip <> ip' ->
  let rl := (serve spare ops (NewRateLimiter limit window) []).1 in
  let rl1 := (Limit spare rl ip now).2 in
  timestamps rl1 ip' = timestamps rl ip' /\
  (Limit spare rl1 ip' now').1 = (Limit spare rl ip' now').1 /\
  timestamps (Limit spare rl1 ip' now').2 ip'
  = timestamps (Limit spare rl ip' now').2 ip'.
Proof.
  intros [Hlim _] _ Hne rl rl1.
  pose proof (run_run_ok spare ops _ _ (New_run_ok limit window)) as Hrun.
  destruct (run_limit spare ops (NewRateLimiter limit window) []) as [Hl _].
  fold rl in Hrun, Hl. cbn [NewRateLimiter middleware.limit] in Hl.
  assert (Hlim' : 0 <= middleware.limit rl) by lia.
  pose proof (run_ok_unlocked rl _ Hrun Hlim') as Hmu.
  pose proof (Limit_run_ok spare rl _ ip now Hrun) as Hrun1. fold rl1 in Hrun1.
  destruct Hrun as (Hok & _ & _).
  destruct (Limit_spec spare rl ip now Hok) as (Hok1 & Hl1 & Hw1 & Hwl1 & Hframe & _).
  fold rl1 in Hok1, Hl1, Hw1, Hwl1, Hframe.
  assert (Hlim1 : 0 <= middleware.limit rl1) by lia.
  pose proof (run_ok_unlocked rl1 _ Hrun1 Hlim1) as Hmu1.
  assert (Hts : timestamps rl1 ip' = timestamps rl ip') by (apply Hframe; auto).
  split; [exact Hts|].
  rewrite !Limit_verdict, !Limit_timestamps by assumption.
  unfold whitelisted. rewrite Hwl1, Hts, Hw1, Hl1. auto.
Qed.

Lemma same_view_weaken last last' rl1 rl2 :
  last <= last' -> same_view last rl1 rl2 -> same_view last' rl1 rl2.
Proof.
  intros Hle (H1 & H2 & H3 & H4 & H5 & H6 & H7 & H8).
  repeat (split; [assumption|]). intros ip W HW. apply H8. lia.
Qed.

Lemma same_view_Limit last rl1 rl2 ip now :
  0 <= limit rl1 -> last <= now -> same_view last rl1 rl2 ->
  (Limit spare rl1 ip now).1 = (Limit spare rl2 ip now).1 /\
  same_view now (Limit spare rl1 ip now).2 (Limit spare rl2 ip now).2.
Proof.
  intros Hlim Hle (Hok1 & Hok2 & Hmu1 & Hmu2 & Hl & Hw & Hwl & Hv).
  assert (Hlim2 : 0 <= limit rl2) by lia.
  pose proof (Limit_verdict rl1 ip now Hok1 Hmu1 Hlim) as Hv1.
  pose proof (Limit_verdict rl2 ip now Hok2 Hmu2 Hlim2) as Hv2.
  pose proof (Limit_timestamps rl1 ip now Hok1 Hmu1 Hlim) as Ht1.
  pose proof (Limit_timestamps rl2 ip now Hok2 Hmu2 Hlim2) as Ht2.
  destruct (Limit_spec spare rl1 ip now Hok1) as (Hok1' & Hl1 & Hw1 & Hwl1 & Hf1 & Hc1).
  destruct (Limit_spec spare rl2 ip now Hok2) as (Hok2' & Hl2 & Hw2 & Hwl2 & Hf2 & Hc2).
  assert (Hwh : whitelisted rl1 ip = whitelisted rl2 ip)
    by (unfold whitelisted; now rewrite Hwl).
  assert (Hk : in_window (now - window rl1) (timestamps rl1 ip)
               = in_window (now - window rl2) (timestamps rl2 ip))
    by (rewrite <- Hw; apply Hv; lia).
  rewrite Hwh, Hk, Hl in Hv1, Ht1.
  split; [congruence|].
  assert (Hmu1' : mu (Limit spare rl1 ip now).2 = false).
  { rewrite Hv1 in Hc1. destruct (whitelisted rl2 ip); [tauto|].
    destruct (decide _); tauto. }
  assert (Hmu2' : mu (Limit spare rl2 ip now).2 = false).
  { rewrite Hv2 in Hc2. destruct (whitelisted rl2 ip); [tauto|].
    destruct (decide _); tauto. }
  repeat (split; [assumption || congruence|]).
  intros ip' W HW. rewrite Hw1 in HW.
  destruct (decide (ip' = ip)) as [->|Hne].
  - rewrite Ht1, Ht2. destruct (whitelisted rl2 ip); [apply Hv; lia|].
    destruct (decide _); [reflexivity | apply Hv; lia].
  - rewrite Hf1, Hf2 by assumption. apply Hv. lia.
Qed.

Lemma same_view_cleanup last rl1 rl2 now :
  last <= now -> same_view last rl1 rl2 ->
  same_view now (cleanup spare rl1 now) rl2.
Proof.
  intros Hle (Hok1 & Hok2 & Hmu1 & Hmu2 & Hl & Hw & Hwl & Hv).
  assert (Hok1' : limiter_ok (cleanup spare rl1 now)).
  { intros ip s Hs. rewrite cleanup_lookup in Hs by assumption.
    destruct (ips rl1 !! ip) as [s0|] eqn:Hip; [|discriminate].
    cbn zeta in Hs. destruct (validTimes_elems spare (now - window rl1) s0) as [Hvok He].
    destruct (Nat.eqb _ 0); [discriminate|]. injection Hs as <-.
    split; [exact Hvok|]. destruct (Hok1 ip s0 Hip) as [Hs0 Hl0].
    rewrite <- (elems_length _ Hvok), He.
    pose proof (in_window_length (now - window rl1) (elems s0)) as Hlen.
    rewrite (elems_length _ Hs0) in Hlen.
    unfold cleanup. rewrite Hmu1. cbn [set_ips limit]. lia. }
  assert (Hc : mu (cleanup spare rl1 now) = false /\
               limit (cleanup spare rl1 now) = limit rl1 /\
               window (cleanup spare rl1 now) = window rl1 /\
               whitelistIPs (cleanup spare rl1 now) = whitelistIPs rl1)
    by (unfold cleanup; rewrite Hmu1; auto).
  destruct Hc as (Hc1 & Hc2 & Hc3 & Hc4).
  split; [exact Hok1'|]. split; [exact Hok2|].
  rewrite Hc2, Hc3, Hc4.
  repeat (split; [assumption|]).
  intros ip W HW. rewrite cleanup_timestamps by assumption.
  rewrite in_window_in_window by lia. apply Hv. lia.
Qed.

Lemma same_view_whitelist last rl1 rl2 ip :
  same_view last rl1 rl2 ->
  same_view last (AddToWhitelist rl1 ip) (AddToWhitelist rl2 ip) /\
  same_view last (RemoveFromWhitelist rl1 ip) (RemoveFromWhitelist rl2 ip).
Proof.
  intros (Hok1 & Hok2 & Hmu1 & Hmu2 & Hl & Hw & Hwl & Hv).
  unfold same_view, AddToWhitelist, RemoveFromWhitelist. rewrite Hmu1, Hmu2.
  cbn [set_whitelistIPs mu limit window whitelistIPs]. rewrite Hwl.
  split; repeat (split; [assumption || reflexivity|]); exact Hv.
Qed.

Lemma serve_without_sweeps ops : forall last rl1 rl2 adm,
  0 <= limit rl1 -> same_view last rl1 rl2 -> chronological last ops ->
  (serve spare ops rl1 adm).2 = (serve spare (without_sweeps ops) rl2 adm).2.
Proof.
  induction ops as [|o ops IH]; intros last rl1 rl2 adm Hlim Hsv Hch;
    [reflexivity|].
  cbn [chronological] in Hch.
  destruct o as [ip now|now|ip|ip]; cbn [op_time without_sweeps serve] in *.
  - destruct Hch as [Hle Hch].
    destruct (same_view_Limit last rl1 rl2 ip now Hlim Hle Hsv) as [Hv Hsv'].
    destruct (Limit_spec spare rl1 ip now (proj1 Hsv)) as (_ & Hl1 & _).
    destruct (Limit spare rl1 ip now) as [v1 rl1'].
    destruct (Limit spare rl2 ip now) as [v2 rl2'].
    cbn [fst snd] in *. subst v2.
    destruct v1; apply (IH now); auto; lia.
  - destruct Hch as [Hle Hch]. apply (IH now); auto.
    + unfold cleanup. destruct (mu rl1); exact Hlim.
    + now apply (same_view_cleanup last).
  - apply (IH last); auto.
    + unfold AddToWhitelist. destruct (mu rl1); exact Hlim.
    + now apply same_view_whitelist.
  - apply (IH last); auto.
    + unfold RemoveFromWhitelist. destruct (mu rl1); exact Hlim.
    + now apply same_view_whitelist.
Qed.

(** X5: in a run in time the sweeps cannot be observed:
    the requests let through are the same as in the run without its
    sweeps. *)
Theorem sweeps_unobservable (limit : Z) (window : Duration) (ops : list op)
    (t0 : Time) :
  0 <= limit -> chronological t0 ops ->
  (serve spare ops (NewRateLimiter limit window) []).2
  = (serve spare (without_sweeps ops) (NewRateLimiter limit window) []).2.
Proof.
  intros Hlim Hch. apply (serve_without_sweeps ops t0); [exact Hlim| |exact Hch].
  destruct (New_run_ok limit window) as (Hok & _ & _).
  unfold same_view. repeat (split; [assumption || reflexivity|]). reflexivity.
Qed.

(** X6: for a limit from 0 to [MaxLimit] and a window other
    than the least duration (so that [-rl.window] does not wrap): a sweep
    leaves no entry for an identity none of whose requests was let through
    during the window that ends at the sweep. *)
Theorem cleanup_evicts_idle (limit : Z) (window : Duration) (ops : list op)
    (ip : string) (now : Time) :
  0 <= limit <= runtime.MaxLimit -> runtime.MinDuration < window ->
  let r := serve spare ops (NewRateLimiter limit window) [] in
  in_window (now - window) (admitted_for ip r.2) = [] ->
  ips (cleanup spare r.1 now) !! ip = None.
Proof.
  intros [Hlim _] _ r Hidle.
  pose proof (run_run_ok spare ops _ _ (New_run_ok limit window)) as Hrun.
  destruct (run_limit spare ops (NewRateLimiter limit window) []) as [Hl Hw].
  fold r in Hrun, Hl, Hw. cbn [NewRateLimiter middleware.limit middleware.window] in Hl, Hw.
  assert (Hlim' : 0 <= middleware.limit r.1) by lia.
  pose proof (run_ok_unlocked _ _ Hrun Hlim') as Hmu.
  destruct Hrun as (Hok & _ & Hsub).
  rewrite cleanup_lookup by assumption.
  destruct (ips r.1 !! ip) as [s|] eqn:Hs; [|reflexivity]. cbn zeta.
  destruct (validTimes_elems spare (now - middleware.window r.1) s) as [Hvok He].
  specialize (Hsub ip). unfold timestamps in Hsub. rewrite Hs in Hsub.
  apply (sublist_filter_mono (fun t => now - window < t)) in Hsub.
  fold (in_window (now - window) (elems s)) in Hsub.
  fold (in_window (now - window) (admitted_for ip r.2)) in Hsub.
  rewrite Hidle in Hsub. apply sublist_nil_r in Hsub.
  rewrite Hw, Hsub in He.
  rewrite <- (elems_length _ Hvok), Hw, He. reflexivity.
Qed.

Lemma serve_app ops1 : forall ops2 rl adm,
  serve spare (ops1 ++ ops2) rl adm
  = serve spare ops2 (serve spare ops1 rl adm).1 (serve spare ops1 rl adm).2.
Proof.
  induction ops1 as [|o ops1 IH]; intros ops2 rl adm; [reflexivity|].
  cbn [app]. rewrite (serve_cons o (ops1 ++ ops2)), (serve_cons o ops1). apply IH.
Qed.

Lemma serve_whitelisted ip times : forall rl adm,
  mu rl = false -> whitelisted rl ip = true ->
  serve spare (map (Request ip) times) rl adm
  = (rl, adm ++ map (fun t => (ip, t)) times).
Proof.
  induction times as [|t times IH]; intros rl adm Hmu Hw; cbn [map serve].
  - now rewrite app_nil_r.
  - unfold Limit. rewrite Hmu, Hw. rewrite IH by assumption.
    now rewrite <- app_assoc.
Qed.

(** X7: requests made while their identity is whitelisted
    leave no trace: whitelisting an identity that was not listed, serving any
    number of its requests and removing it from the whitelist again lets all
    of these requests through and leaves the limiter exactly as it was, so
    the identity is then judged by what was stored for it before. *)
Theorem whitelisted_requests_leave_no_trace (rl : RateLimiter)
    (adm : list (string * Time)) (ip : string) (times : list Time) :
  mu rl = false -> whitelistIPs rl !! ip = None ->
  serve spare (Whitelist ip :: map (Request ip) times ++ [Unwhitelist ip]) rl adm
  = (rl, adm ++ map (fun t => (ip, t)) times).
Proof.
  intros Hmu Hno. cbn [serve]. rewrite serve_app.
  assert (Hadd : AddToWhitelist rl ip
                 = set_whitelistIPs rl (<[ip := true]> (whitelistIPs rl)))
    by (unfold AddToWhitelist; now rewrite Hmu).
  rewrite Hadd, serve_whitelisted.
  - cbn [fst snd serve]. unfold RemoveFromWhitelist.
    cbn [set_whitelistIPs mu whitelistIPs ips limit window]. rewrite Hmu.
    rewrite delete_insert_eq, delete_id by assumption. now destruct rl.
  - exact Hmu.
  - unfold whitelisted. cbn [set_whitelistIPs whitelistIPs].
    now rewrite lookup_insert_eq.
Qed.

Lemma serve_locked ops : forall rl adm,
  mu rl = true -> serve spare ops rl adm = (rl, adm).
Proof.
  induction ops as [|o ops IH]; intros rl adm Hmu; [reflexivity|].
  destruct o as [ip now|now|ip|ip]; cbn [serve];
    unfold Limit, cleanup, AddToWhitelist, RemoveFromWhitelist; rewrite Hmu;
    now apply IH.
Qed.

Lemma serve_negative ops : forall rl adm,
  limit rl < 0 -> ips rl = ∅ ->
  limit (serve spare ops rl adm).1 < 0 /\ ips (serve spare ops rl adm).1 = ∅.
Proof.
  induction ops as [|o ops IH]; intros rl adm Hneg He; [now split|].
  apply Z.ltb_lt in Hneg as Hb.
  destruct o as [ip now|now|ip|ip]; cbn [serve].
  - unfold Limit. rewrite He, lookup_empty, Hb.
    destruct (mu rl); [now apply IH|].
    destruct (whitelisted rl ip); now apply IH.
  - apply IH; unfold cleanup; destruct (mu rl); auto.
    cbn [set_ips ips]. rewrite He. apply map_fold_empty.
  - apply IH; unfold AddToWhitelist; destruct (mu rl); auto.
  - apply IH; unfold RemoveFromWhitelist; destruct (mu rl); auto.
Qed.

(** X8: a limiter made with a negative limit never
    stores anything; a request of an identity that is not whitelisted panics
    in [make] with the mutex held (or finds it held), and once that has
    happened every later call blocks on the mutex, whitelisted or not. *)
Theorem negative_limit_jams (limit : Z) (window : Duration) (ops : list op)
    (ip : string) (now : Time) :
  limit < 0 ->
  let rl := (serve spare ops (NewRateLimiter limit window) []).1 in
  ips rl = ∅ /\
  (Limit spare rl ip now).1 =
    (if mu rl then Blocks else if whitelisted rl ip then Next else MakePanics) /\
  ((Limit spare rl ip now).1 = MakePanics ->
   forall ops' adm ip' now',
     (Limit spare (serve spare ops' (Limit spare rl ip now).2 adm).1 ip' now').1
     = Blocks).
Proof.
  intros Hneg rl.
  destruct (serve_negative ops (NewRateLimiter limit window) [] Hneg eq_refl)
    as [Hl He].
  fold rl in Hl, He. apply Z.ltb_lt in Hl as Hb.
  split; [exact He|].
  unfold Limit at 1 2. rewrite He, lookup_empty, Hb.
  destruct (mu rl) eqn:Hmu; [split; [reflexivity | discriminate]|].
  destruct (whitelisted rl ip) eqn:Hw; [split; [reflexivity | discriminate]|].
  split; [reflexivity|]. intros _ ops' adm ip' now'.
  assert (HL : (Limit spare rl ip now).2 = hold_mu rl).
  { unfold Limit. now rewrite Hmu, Hw, He, lookup_empty, Hb. }
  rewrite HL, serve_locked by reflexivity. reflexivity.
Qed.

End slices.

Lemma Limit_decided_by_admitted_witness :
  let ops := [Request "10.0.0.7" 0; Sweep 5; Request "10.0.0.7" 10;
              Request "10.0.0.9" 12; Request "10.0.0.7" 20] in
  (Limit id (serve id ops (NewRateLimiter 3 Second) []).1 "10.0.0.7" 30).1
  = TooManyRequests.
Proof.
  intros ops.
  apply (Limit_decided_by_admitted id 3 Second ops "10.0.0.7" 0 30);
    [unfold runtime.MaxLimit; lia | unfold runtime.MinDuration, Second; lia
    | cbn; lia | | cbn; lia].
  cbn. intros H. decompose [or] H; congruence.
Defined.

Lemma admitted_within_limit_witness :
  let ops := [Request "10.0.0.7" 0; Request "10.0.0.7" 10; Request "10.0.0.7" 20;
              Request "10.0.0.7" 30; Request "10.0.0.7" 40] in
  Z.of_nat (length (in_window (40 - Second)
              (admitted_for "10.0.0.7" (serve id ops (NewRateLimiter 3 Second) []).2)))
  <= 3.
Proof.
  intros ops.
  apply (admitted_within_limit id 3 Second ops "10.0.0.7" 0 40);
    [lia | cbn; lia | | cbn; lia].
  cbn. intros H. decompose [or] H; congruence.
Defined.

Lemma Limit_isolated_witness :
  let rl := (serve id [Request "10.0.0.9" 1; Request "10.0.0.9" 2]
               (NewRateLimiter 2 Second) []).1 in
  (Limit id (Limit id rl "10.0.0.7" 3).2 "10.0.0.9" 4).1 = (Limit id rl "10.0.0.9" 4).1.
Proof.
  intros rl.
  refine (proj1 (proj2 (Limit_isolated id 2 Second _ "10.0.0.7" "10.0.0.9" 3 4
                          _ _ _)));
    [unfold runtime.MaxLimit; lia | unfold runtime.MinDuration, Second; lia
    | discriminate].
Defined.

Lemma sweeps_unobservable_witness :
  let ops := [Request "10.0.0.7" 0; Sweep 5; Request "10.0.0.7" 10;
              Sweep (10 + Second); Request "10.0.0.7" (15 + Second)] in
  (serve id ops (NewRateLimiter 2 Second) []).2
  = (serve id (without_sweeps ops) (NewRateLimiter 2 Second) []).2.
Proof.
  intros ops.
  apply (sweeps_unobservable id 2 Second ops 0); [lia|].
  unfold ops, Second. cbn. lia.
Defined.

Lemma cleanup_evicts_idle_witness :
  let r := serve id [Request "10.0.0.7" 0; Request "10.0.0.9" Second]
             (NewRateLimiter 2 Second) [] in
  ips r.1 !! "10.0.0.7" <> None /\
  ips (cleanup id r.1 (Second + 1)) !! "10.0.0.7" = None.
Proof.
  intros r. split; [discriminate|].
  apply (cleanup_evicts_idle id 2 Second _ "10.0.0.7" (Second + 1));
    [unfold runtime.MaxLimit; lia | unfold runtime.MinDuration, Second; lia
    | reflexivity].
Defined.

Lemma whitelisted_requests_leave_no_trace_witness :
  let rl := (serve id [Request "127.0.0.1" 1] (NewRateLimiter 1 Second) []).1 in
  serve id (Whitelist "127.0.0.1" :: map (Request "127.0.0.1") [2; 3; 4]
            ++ [Unwhitelist "127.0.0.1"]) rl []
  = (rl, [("127.0.0.1", 2); ("127.0.0.1", 3); ("127.0.0.1", 4)]).
Proof.
  intros rl.
  apply (whitelisted_requests_leave_no_trace id rl [] "127.0.0.1" [2; 3; 4]);
    reflexivity.
Defined.

Lemma negative_limit_jams_witness :
  let rl := NewRateLimiter (-1) Second in
  (Limit id rl "10.0.0.7" 1).1 = MakePanics /\
  (Limit id (Limit id rl "10.0.0.7" 1).2 "10.0.0.9" 2).1 = Blocks.
Proof.
  intros rl.
  destruct (negative_limit_jams id (-1) Second [] "10.0.0.7" 1 ltac:(lia))
    as (_ & H2 & H3).
  split; [exact H2 | exact (H3 H2 [] [] "10.0.0.9" 2)].
Defined.

End limiter_runs.

(** * More on the aggregation: failures, success, schedules *)

Module usecase_runs.

Import entity repository usecase aggregation usecase_proofs.

Section runs.

Variable denormal : Q -> big.float64.
Variable repo : EthereumRepository.
Variable address : string.
Variable now : Time.

Lemma populated_calls info c :
  populated denormal repo address now info ->
  exists v, call_result repo address c = Ok v.
Proof.
  intros (g & b & a & Hg & Hb & Ha & _). destruct c; cbn [call_result]; eauto.
Qed.

Lemma populated_unique info1 info2 :
  populated denormal repo address now info1 ->
  populated denormal repo address now info2 -> info1 = info2.
Proof.
  intros (g1 & b1 & a1 & Hg1 & Hb1 & Ha1 & ->) (g2 & b2 & a2 & Hg2 & Hb2 & Ha2 & ->).
  congruence.
Qed.

(** X9: when a call of the node fails, no run returns the entity: every
    run that returns gives an error and no entity; and when no other call
    fails and the context is not cancelled, the error is that of the failed
    call under its name, whatever the order of events. *)
Theorem GetAddressInfo_failure_reported (c : call) (e0 : error)
    (events : list event) (out : outcome) :
  call_result repo address c = Failed e0 ->
  GetAddressInfo denormal repo address now events = Some out ->
  (exists err, out = Return None (Some err)) /\
  ((forall c', c' <> c -> exists v, call_result repo address c' = Ok v) ->
   (forall reason, ~ In (Cancel reason) events) ->
   out = Return None (Some (wrapError (wrap_msg c) e0))).
Proof.
  intros Hfail Hrun. apply GetAddressInfo_run in Hrun.
  destruct (run_outcome denormal repo address now events _ _
              (init_inv repo address) Hrun)
    as [[(info & -> & Hp)|(e & -> & c' & e' & Hc' & ->)]|(r & [Hr|Hr] & ->)].
  - destruct (populated_calls info c Hp) as [v Hv]. congruence.
  - split; [eauto|]. intros Hothers _.
    destruct (call_eqb c' c) eqn:Heq.
    + apply call_eqb_eq in Heq. subst c'. congruence.
    + destruct (Hothers c') as [v Hv]; [|congruence].
      intros ->. now destruct c.
  - discriminate Hr.
  - split; [eauto|]. intros _ Hno. now destruct (Hno r).
Qed.

(** Without cancellation and with a node that answers every call, a run
    that returns gives a populated entity. *)
Lemma returns_populated events out :
  (forall c, exists v, call_result repo address c = Ok v) ->
  (forall reason, ~ In (Cancel reason) events) ->
  GetAddressInfo denormal repo address now events = Some out ->
  exists info, out = Return (Some info) None /\
               populated denormal repo address now info.
Proof.
  intros Hall Hno Hrun. apply GetAddressInfo_run in Hrun.
  destruct (run_outcome denormal repo address now events _ _
              (init_inv repo address) Hrun)
    as [[(info & -> & Hp)|(e & -> & c' & e' & Hc' & ->)]|(r & [Hr|Hr] & ->)].
  - eauto.
  - destruct (Hall c') as [v Hv]. congruence.
  - discriminate Hr.
  - now destruct (Hno r).
Qed.

(** X10: when every call of the node succeeds, every run in which the
    context is not cancelled and that returns gives the same result, the
    populated entity, in whatever order the calls return and are received;
    and there is such a run. *)
Theorem GetAddressInfo_schedule_independent :
  (forall c, exists v, call_result repo address c = Ok v) ->
  exists info,
    populated denormal repo address now info /\
    GetAddressInfo denormal repo address now (calls_first repo address)
      = Some (Return (Some info) None) /\
    forall events out,
      (forall reason, ~ In (Cancel reason) events) ->
      GetAddressInfo denormal repo address now events = Some out ->
      out = Return (Some info) None.
Proof.
  intros Hall.
  pose proof (fun events out => returns_populated events out Hall) as Hsucc.
  destruct (calls_first_returns denormal repo address now) as [out0 Hout0].
  assert (Hno0 : forall reason, ~ In (Cancel reason) (calls_first repo address)).
  { intros reason. unfold calls_first.
    destruct (GetGasPrice repo), (GetCurrentBlock repo),
      (GetAddressBalance repo address); cbn [app In];
      intros H; decompose [or] H; discriminate || contradiction. }
  destruct (Hsucc _ _ Hno0 Hout0) as (info & -> & Hp).
  exists info. split; [exact Hp|]. split; [exact Hout0|].
  intros events out Hno Hrun.
  destruct (Hsucc _ _ Hno Hrun) as (info' & -> & Hp').
  now rewrite (populated_unique _ _ Hp' Hp).
Qed.

End runs.

Lemma GetAddressInfo_failure_reported_witness :
  GetAddressInfo no_denormal node_down zero_address 0
    [Returns block_number; Returns gas_price; Select CaseBlockNumber;
     Select CaseErr]
  = Some (Return None
            (Some (wrapError "failed to get gas price: "
                     (errorString "connection refused")))).
Proof.
  set (events := [Returns block_number; Returns gas_price;
                  Select CaseBlockNumber; Select CaseErr]).
  assert (E : exists out,
             GetAddressInfo no_denormal node_down zero_address 0 events = Some out)
    by (eexists; reflexivity).
  destruct E as [out E]. rewrite E. f_equal.
  apply (proj2 (GetAddressInfo_failure_reported no_denormal node_down
                  zero_address 0 gas_price (errorString "connection refused")
                  events out eq_refl E)).
  - intros c' Hc'. destruct c'; [congruence | |]; cbn; eauto.
  - intros reason H. cbn in H. decompose [or] H; discriminate || contradiction.
Defined.

Lemma GetAddressInfo_schedule_independent_witness :
  GetAddressInfo no_denormal node_ok zero_address 0
    [Returns address_balance; Select CaseBalance; Returns gas_price;
     Returns block_number; Select CaseBlockNumber; Select CaseGasPrice]
  = GetAddressInfo no_denormal node_ok zero_address 0
      (calls_first node_ok zero_address).
Proof.
  destruct (GetAddressInfo_schedule_independent no_denormal node_ok zero_address 0)
    as (info & _ & -> & Hall).
  - intros c. destruct c; cbn; eauto.
  - set (events := [Returns address_balance; Select CaseBalance;
                    Returns gas_price; Returns block_number;
                    Select CaseBlockNumber; Select CaseGasPrice]).
    assert (E : exists out,
               GetAddressInfo no_denormal node_ok zero_address 0 events = Some out)
      by (eexists; reflexivity).
    destruct E as [out E]. rewrite E. f_equal. apply (Hall events); [|exact E].
    intros reason H. cbn in H. decompose [or] H; discriminate || contradiction.
Defined.

End usecase_runs.

(** * More on the validator and the handler *)

Module format_proofs.

Import strings validator spec shape validator_proofs.

Lemma lowercase_char_idem c : lowercase_char (lowercase_char c) = lowercase_char c.
Proof. each_byte c; reflexivity. Qed.

Lemma lowercase_idem s : lowercase (lowercase s) = lowercase s.
Proof.
  induction s as [|c s IH]; cbn [lowercase]; [reflexivity|].
  now rewrite lowercase_char_idem, IH.
Qed.

Lemma lower_byte_ascii c :
  (byte_val (lower_byte c) <? RuneSelf) = (byte_val c <? RuneSelf).
Proof. each_byte c; reflexivity. Qed.

Lemma lower_byte_space c : asciiSpace (lower_byte c) = asciiSpace c.
Proof. each_byte c; reflexivity. Qed.

Lemma lower_byte_not_upper c : isUpper (lower_byte c) = false.
Proof. each_byte c; reflexivity. Qed.

Lemma lower_bytes_ascii s : isASCII (lower_bytes s) = isASCII s.
Proof.
  induction s as [|c s IH]; cbn [lower_bytes isASCII]; [reflexivity|].
  now rewrite lower_byte_ascii, IH.
Qed.

Lemma lower_bytes_hasUpper s : hasUpper (lower_bytes s) = false.
Proof.
  induction s as [|c s IH]; cbn [lower_bytes hasUpper]; [reflexivity|].
  now rewrite lower_byte_not_upper, IH.
Qed.

Lemma lower_bytes_start s : no_space_at_start (lower_bytes s) = no_space_at_start s.
Proof. destruct s as [|c s]; cbn; [reflexivity | now rewrite lower_byte_space]. Qed.

Lemma lower_bytes_end s : no_space_at_end (lower_bytes s) = no_space_at_end s.
Proof.
  induction s as [|c s IH]; [reflexivity|].
  destruct s as [|c' s]; cbn [lower_bytes no_space_at_end] in *;
    [now rewrite lower_byte_space | exact IH].
Qed.

Section unicode.

Variable TrimFunc_IsSpace : string -> string.
Variable TrimRightFunc_IsSpace : string -> string.
Variable Map_ToLower : string -> string.

Local Abbreviation TrimSpace' := (TrimSpace TrimFunc_IsSpace TrimRightFunc_IsSpace).
Local Abbreviation FormatAddress' :=
  (FormatAddress TrimFunc_IsSpace TrimRightFunc_IsSpace Map_ToLower).

(** The scan from the end, on ASCII input: it never takes the slow path, and
    what it keeps has no space at its end. *)
Lemma scan_stop_ascii s :
  isASCII s = true ->
  exists k,
    scan_stop s = (k, false) /\ isASCII k = true /\ no_space_at_end k = true /\
    (s <> EmptyString -> no_space_at_start s = true ->
     k <> EmptyString /\ no_space_at_start k = true).
Proof.
  induction s as [|c s IH]; cbn [isASCII scan_stop].
  - intros _. exists EmptyString. repeat split; congruence.
  - intros H. apply andb_prop in H as [Hc Hs].
    destruct (IH Hs) as (k & -> & Hk & Hend & _).
    assert (Hge : (RuneSelf <=? byte_val c) = false)
      by (apply Z.ltb_lt in Hc; apply Z.leb_gt; exact Hc).
    destruct k as [|c' k].
    + rewrite Hge. destruct (asciiSpace c) eqn:Hsp.
      * exists EmptyString. repeat split; try reflexivity;
          cbn [no_space_at_start] in *; rewrite Hsp in *; discriminate.
      * exists (String c EmptyString). cbn [isASCII no_space_at_end no_space_at_start].
        rewrite Hc, Hsp. repeat split; congruence.
    + exists (String c (String c' k)).
      cbn [isASCII no_space_at_start] in *. cbn [no_space_at_end].
      rewrite Hc. repeat split; try assumption; congruence.
Qed.

Lemma scan_stop_fixed k :
  isASCII k = true -> no_space_at_end k = true -> scan_stop k = (k, false).
Proof.
  induction k as [|c k IH]; [reflexivity|].
  cbn [isASCII]. intros H Hend. apply andb_prop in H as [Hc Hk].
  assert (Hge : (RuneSelf <=? byte_val c) = false)
    by (apply Z.ltb_lt in Hc; apply Z.leb_gt; exact Hc).
  cbn [scan_stop]. destruct k as [|c' k].
  - cbn [scan_stop no_space_at_end] in *. rewrite Hge.
    apply negb_true_iff in Hend. now rewrite Hend.
  - rewrite IH by assumption. reflexivity.
Qed.

Lemma TrimSpace_ascii s :
  isASCII s = true ->
  isASCII (TrimSpace' s) = true /\ no_space_at_start (TrimSpace' s) = true /\
  no_space_at_end (TrimSpace' s) = true.
Proof.
  induction s as [|c s IH]; [cbn; auto|].
  intros H. pose proof H as H'. cbn [isASCII] in H'.
  apply andb_prop in H' as [Hc Hs].
  assert (Hge : (RuneSelf <=? byte_val c) = false)
    by (apply Z.ltb_lt in Hc; apply Z.leb_gt; exact Hc).
  cbn [TrimSpace]. rewrite Hge. destruct (asciiSpace c) eqn:Hsp; [now apply IH|].
  destruct (scan_stop_ascii (String c s) H) as (k & Hk & Ha & Hend & Hstart).
  unfold trim_stop. rewrite Hk.
  destruct Hstart as [_ Hst]; [discriminate | cbn; now rewrite Hsp |]. auto.
Qed.

Lemma TrimSpace_fixed t :
  isASCII t = true -> no_space_at_start t = true -> no_space_at_end t = true ->
  TrimSpace' t = t.
Proof.
  intros Ha Hst Hend. destruct t as [|c t]; [reflexivity|].
  pose proof Ha as Ha'. cbn [isASCII] in Ha'. apply andb_prop in Ha' as [Hc _].
  assert (Hge : (RuneSelf <=? byte_val c) = false)
    by (apply Z.ltb_lt in Hc; apply Z.leb_gt; exact Hc).
  cbn [no_space_at_start] in Hst. apply negb_true_iff in Hst.
  cbn [TrimSpace]. rewrite Hge, Hst. unfold trim_stop.
  now rewrite scan_stop_fixed.
Qed.

Lemma ToLower_ascii s : isASCII s = true -> ToLower Map_ToLower s = lower_bytes s.
Proof.
  intros H. unfold ToLower. rewrite H.
  destruct (hasUpper s) eqn:Hu; cbn [negb]; [reflexivity|].
  symmetry. now apply lower_bytes_no_upper.
Qed.

(** X11: on ASCII input the result of [FormatAddress] begins
    with "0x" and has no upper-case letter, and formatting it again changes
    nothing. *)
Theorem FormatAddress_idempotent (address : string) :
  isASCII address = true ->
  HasPrefix (FormatAddress' address) "0x" = true /\
  hasUpper (FormatAddress' address) = false /\
  FormatAddress' (FormatAddress' address) = FormatAddress' address.
Proof.
  intros Ha.
  destruct (TrimSpace_ascii address Ha) as (Hta & Hts & Hte).
  set (t := TrimSpace' address) in *.
  assert (Hl : ToLower Map_ToLower t = lower_bytes t) by now apply ToLower_ascii.
  set (l := lower_bytes t).
  assert (Hla : isASCII l = true) by (unfold l; now rewrite lower_bytes_ascii).
  assert (Hls : no_space_at_start l = true) by (unfold l; now rewrite lower_bytes_start).
  assert (Hle : no_space_at_end l = true) by (unfold l; now rewrite lower_bytes_end).
  assert (Hlu : hasUpper l = false) by apply lower_bytes_hasUpper.
  set (f := FormatAddress' address).
  assert (Hf : f = if negb (HasPrefix l "0x") then "0x" +:+ l else l)
    by (unfold f, FormatAddress; fold t; now rewrite Hl).
  assert (Hshape : HasPrefix f "0x" = true /\ isASCII f = true /\
                   no_space_at_start f = true /\ no_space_at_end f = true /\
                   hasUpper f = false).
  { rewrite Hf. destruct (HasPrefix l "0x") eqn:Hp; cbn [negb]; [auto|].
    rewrite !app_cons, app_nil. cbn [HasPrefix isASCII no_space_at_start hasUpper].
    rewrite Hla, Hlu. repeat split; try reflexivity.
    destruct l as [|c l']; [reflexivity | exact Hle]. }
  destruct Hshape as (Hfp & Hfa & Hfs & Hfe & Hfu).
  split; [exact Hfp|]. split; [exact Hfu|].
  unfold FormatAddress. rewrite TrimSpace_fixed by assumption.
  unfold ToLower. rewrite Hfa, Hfu. cbn [negb]. now rewrite Hfp.
Qed.

(** On a valid address the result is the lower-case form, which is valid and
    its own lower-case form. *)
Lemma FormatAddress_canonical (address : string) :
  IsValidAddress address = true ->
  IsValidAddress (FormatAddress' address) = true /\
  lowercase (FormatAddress' address) = FormatAddress' address /\
  FormatAddress' address = lowercase address.
Proof.
  intros Hv. apply IsValidAddress_iff in Hv as (d & -> & Hl & Hh).
  rewrite !app_cons, app_nil.
  assert (Hp : all_plain (String "0" (String "x" d))).
  { cbn [all_plain]. repeat split; try reflexivity. now apply all_hex_plain. }
  assert (Hf : FormatAddress' (String "0" (String "x" d))
               = lower_bytes (String "0" (String "x" d))).
  { unfold FormatAddress.
    rewrite (TrimSpace_plain TrimFunc_IsSpace TrimRightFunc_IsSpace _ _ Hp).
    rewrite (ToLower_plain Map_ToLower _ Hp). reflexivity. }
  rewrite Hf. split; [|split].
  - apply IsValidAddress_iff. exists (lower_bytes d). repeat split.
    + now rewrite length_lower_bytes.
    + now apply all_hex_lower.
  - rewrite lower_bytes_lowercase. apply lowercase_idem.
  - apply lower_bytes_lowercase.
Qed.

End unicode.

Lemma FormatAddress_idempotent_witness :
  FormatAddress id id id "  742D35Cc6634C0532925a3b844Bc454e4438f44e "
  = "0x742d35cc6634c0532925a3b844bc454e4438f44e" /\
  FormatAddress id id id
    (FormatAddress id id id "  742D35Cc6634C0532925a3b844Bc454e4438f44e ")
  = FormatAddress id id id "  742D35Cc6634C0532925a3b844Bc454e4438f44e ".
Proof.
  split; [reflexivity|].
  apply (FormatAddress_idempotent id id id
           "  742D35Cc6634C0532925a3b844Bc454e4438f44e "). reflexivity.
Defined.

End format_proofs.

Module handler_proofs.

Import gin response handler middleware validator spec timed.

Section handler.

Variable TrimFunc_IsSpace : string -> string.
Variable TrimRightFunc_IsSpace : string -> string.
Variable Map_ToLower : string -> string.
Variable RFC3339 : Time -> string.

Local Abbreviation GetAddressInfo' :=
  (GetAddressInfo TrimFunc_IsSpace TrimRightFunc_IsSpace Map_ToLower RFC3339).

(** X12: the handler validates before anything else: an
    address that is not valid is answered with 400 and the fixed message, with
    no "error" and no "data" member, whatever the use case; and the use case
    is consulted only at valid addresses in lower case, so two use cases that
    agree on those give the same response. *)
Theorem GetAddressInfo_validates_first (c : Context) :
  (IsValidAddress (Param c "address") = false ->
   forall useCase,
     GetAddressInfo' useCase c
     = Returned (JSON 400
                   (JObject [ ("status", JString "error");
                              ("message", JString "Invalid Ethereum address format") ])
                   c)) /\
  (forall useCase1 useCase2 : string -> usecase.outcome,
     (forall a, IsValidAddress a = true -> lowercase a = a ->
                useCase1 a = useCase2 a) ->
     GetAddressInfo' useCase1 c = GetAddressInfo' useCase2 c).
Proof.
  split.
  - intros Hinv useCase. unfold GetAddressInfo. now rewrite Hinv.
  - intros useCase1 useCase2 Hagree. unfold GetAddressInfo.
    destruct (IsValidAddress (Param c "address")) eqn:Hv; [|reflexivity].
    cbn [negb].
    destruct (format_proofs.FormatAddress_canonical TrimFunc_IsSpace
                TrimRightFunc_IsSpace Map_ToLower _ Hv) as (Hv' & Hl' & _).
    now rewrite (Hagree _ Hv' Hl').
Qed.

(** X24: end to end, for a valid address and a node that
    answers the three calls for its lower-case form with amounts below
    [2^256] (so that the gwei and ether fields are finite and the body can be
    encoded): whatever the order in which the calls return and are received,
    if the context is not cancelled the handler answers 200 with the
    populated entity, whose address is the lower-case form of the one
    requested. *)
Theorem GetAddressInfo_end_to_end (denormal : Q -> big.float64)
    (repo : repository.EthereumRepository) (now : Time)
    (events : list usecase.event) (useCase : string -> usecase.outcome)
    (c : Context) :
  let address := lowercase (Param c "address") in
  IsValidAddress (Param c "address") = true ->
  (forall k, exists v, usecase.call_result repo address k = repository.Ok v) ->
  (forall k v, usecase.call_result repo address k = repository.Ok v ->
               0 <= v < 2 ^ 256) ->
  (forall reason, ~ In (usecase.Cancel reason) events) ->
  usecase.GetAddressInfo denormal repo address now events
    = Some (useCase address) ->
  exists info gwei ether,
    aggregation.populated denormal repo address now info /\
    entity.Address info = address /\
    entity.GasPrice_Gwei (entity.Info_GasPrice info) = big.Finite gwei /\
    entity.Balance_Ether (entity.Info_Balance info) = big.Finite ether /\
    GetAddressInfo' useCase c
    = Returned (JSON 200
                  (JObject [ ("status", JString "success");
                             ("data", FormatAddressInfo RFC3339 info) ])
                  c).
Proof.
  intros address Hv Hall Hbound Hno Hrun.
  destruct (usecase_runs.returns_populated denormal repo address now events _
              Hall Hno Hrun) as (info & Hout & Hp).
  pose proof Hp as (g & b & a & Hg & Hb & Ha & Hinfo).
  assert (Hgb : 0 <= g < 2 ^ 256) by (apply (Hbound usecase.gas_price); exact Hg).
  assert (Hab : 0 <= a < 2 ^ 256)
    by (apply (Hbound usecase.address_balance); exact Ha).
  assert (Hfg : exists gwei,
            big.Float64 denormal
              (big.Quo (big.SetInt g) (big.SetInt 1000000000)) = big.Finite gwei).
  { destruct (Z.eq_dec g 0) as [->|Hnz].
    - eexists. apply big_proofs.conversion_zero_gwei.
    - destruct (big_proofs.conversion_accurate denormal g 1000000000)
        as (v & Hfin & _); [lia | lia | eauto]. }
  assert (Hfa : exists ether,
            big.Float64 denormal
              (big.Quo (big.SetInt a) (big.SetInt 1000000000000000000))
            = big.Finite ether).
  { destruct (Z.eq_dec a 0) as [->|Hnz].
    - eexists. apply big_proofs.conversion_zero_ether.
    - destruct (big_proofs.conversion_accurate denormal a 1000000000000000000)
        as (v & Hfin & _); [lia | lia | eauto]. }
  destruct Hfg as [gwei Hgwei]. destruct Hfa as [ether Hether].
  exists info, gwei, ether. split; [exact Hp|].
  split; [now rewrite Hinfo|]. split; [now rewrite Hinfo|].
  split; [now rewrite Hinfo|].
  unfold GetAddressInfo. rewrite Hv. cbn [negb].
  destruct (format_proofs.FormatAddress_canonical TrimFunc_IsSpace
              TrimRightFunc_IsSpace Map_ToLower _ Hv) as (_ & _ & ->).
  fold address. now rewrite Hout.
Qed.

End handler.

Lemma GetAddressInfo_end_to_end_witness :
  let c := disclosure.request "0x742D35CC6634C0532925A3B844BC454E4438F44E" in
  let useCase := fun a =>
    default usecase.Panic
      (usecase.GetAddressInfo aggregation.no_denormal aggregation.node_ok a 0
         (aggregation.calls_first aggregation.node_ok a)) in
  exists info,
    entity.Address info = "0x742d35cc6634c0532925a3b844bc454e4438f44e" /\
    GetAddressInfo id id id disclosure.a_timestamp useCase c
    = Returned (JSON 200
                  (JObject [ ("status", JString "success");
                             ("data", FormatAddressInfo disclosure.a_timestamp info) ])
                  c).
Proof.
  intros c useCase.
  destruct (GetAddressInfo_end_to_end id id id disclosure.a_timestamp
              aggregation.no_denormal aggregation.node_ok 0
              (aggregation.calls_first aggregation.node_ok
                 "0x742d35cc6634c0532925a3b844bc454e4438f44e")
              useCase c) as (info & gwei & ether & _ & Ha & _ & _ & Hr).
  - reflexivity.
  - intros k. destruct k; cbn; eauto.
  - intros k v. destruct k; cbn; intros [= <-]; lia.
  - intros reason H. cbn in H. decompose [or] H; discriminate || contradiction.
  - reflexivity.
  - exists info. split; [exact Ha | exact Hr].
Defined.

Lemma GetAddressInfo_validates_first_witness :
  let c := disclosure.request "0x742d35Cc6634C0532925a3b844Bc454e4438f44" in
  GetAddressInfo id id id disclosure.a_timestamp disclosure.succeeding_useCase c
  = Returned (JSON 400
                (JObject [ ("status", JString "error");
                           ("message", JString "Invalid Ethereum address format") ])
                c).
Proof.
  intros c.
  apply (proj1 (GetAddressInfo_validates_first id id id disclosure.a_timestamp c)).
  reflexivity.
Defined.

(** * More on the timeout *)

Lemma timeout_step_cases next e st st' :
  timeout_step next e st = Some st' ->
  match e with
  | Dispatch =>
      goroutine st = Spawned /\
      st' = mkTimeout (ctx st) (if aborted (ctx st) then Closed else Running)
              (ctx_done st) (returned st)
  | Complete =>
      goroutine st = Running /\ ctx st' = context_of (next (ctx st)) /\
      goroutine st' = (match next (ctx st) with
                       | Returned _ => Closed
                       | Panicked _ _ _ => Crashed
                       end) /\
      ctx_done st' = ctx_done st /\ returned st' = returned st
  | Expire =>
      ctx_done st = false /\
      st' = mkTimeout (ctx st) (goroutine st) true (returned st)
  | SelectDone =>
      goroutine st = Closed /\ returned st = false /\
      st' = mkTimeout (ctx st) Closed true true
  | SelectCtxDone =>
      ctx_done st = true /\ returned st = false /\
      st' = mkTimeout (timed_out (ctx st)) (goroutine st) true true
  end.
Proof.
  destruct e; cbn [timeout_step].
  - destruct (goroutine st); try discriminate. intros [= <-]. auto.
  - destruct (goroutine st); try discriminate.
    destruct (next (ctx st)); intros [= <-]; cbn; auto.
  - destruct (ctx_done st); try discriminate. intros [= <-]. auto.
  - destruct (goroutine st), (returned st); try discriminate. intros [= <-]. auto.
  - destruct (ctx_done st), (returned st); try discriminate. intros [= <-]. auto.
Qed.

Lemma Timeout_snoc next evs e : forall st,
  Timeout next (evs ++ [e]) st
  = match Timeout next evs st with
    | Some st' => timeout_step next e st'
    | None => None
    end.
Proof.
  induction evs as [|e0 evs IH]; intros st; cbn [app Timeout].
  - now destruct (timeout_step next e st).
  - destruct (timeout_step next e0 st); [apply IH | reflexivity].
Qed.

Lemma stopped_not_running k : stopped k <> Running /\ stopped k <> Spawned.
Proof. destruct k; split; discriminate. Qed.

Lemma Timeout_run_shape next c evs : forall st,
  Timeout next evs (timeout_init c) = Some st -> run_shape next c evs st.
Proof.
  induction evs as [|e evs IH] using rev_ind; intros st Hrun.
  - injection Hrun as <-. left. cbn. auto 10.
  - rewrite Timeout_snoc in Hrun.
    destruct (Timeout next evs (timeout_init c)) as [st0|]; [|discriminate].
    specialize (IH st0 eq_refl). apply timeout_step_cases in Hrun.
    unfold run_shape in *. rewrite !in_app_iff. cbn [In].
    destruct (stopped_not_running (next c)) as [Hn1 Hn2].
    destruct (stopped_not_running (next (timed_out c))) as [Hn3 Hn4].
    assert (Hab : aborted (timed_out c) = true) by reflexivity.
    destruct e.
    + destruct Hrun as [Hg ->]. cbn [ctx goroutine returned ctx_done].
      destruct IH as [(HD & HC & Hr & Hs)|[(HD & HC & Hr & Hg' & Hs)
                                          |(HD & HC & Hr & Hs)]].
      * left. do 3 (split; [intuition discriminate|]).
        destruct Hs as [[_ Hc]|[[Hc _]|[[Hc _]|[Hc _]]]]; try congruence.
        rewrite Hc. destruct (aborted c) eqn:Ha; auto 10.
      * congruence.
      * right. right. do 3 (split; [intuition discriminate|]).
        destruct Hs as [[_ Hc]|[[Hc _]|[[Hc _]|[[Hc _]|[Hc _]]]]]; try congruence.
        rewrite Hc, Hab. auto 10.
    + destruct Hrun as (Hg & Hctx & Hg' & _ & Hret). rewrite Hctx, Hg', Hret.
      destruct IH as [(HD & HC & Hr & Hs)|[(HD & HC & Hr & Hg0 & Hs)
                                          |(HD & HC & Hr & Hs)]].
      * left. do 3 (split; [intuition discriminate|]).
        destruct Hs as [[Hc _]|[(_ & Hc & Ha)|[[Hc _]|[Hc _]]]]; try congruence.
        rewrite Hc. auto 10.
      * congruence.
      * right. right. do 3 (split; [intuition discriminate|]).
        destruct Hs as [[Hc _]|[(_ & Hc & Ha)|[[Hc _]|[[Hc _]|[Hc _]]]]];
          try congruence.
        rewrite Hc. auto 10.
    + destruct Hrun as [_ ->]. cbn [ctx goroutine returned ctx_done].
      destruct IH as [(HD & HC & Hr & Hs)|[(HD & HC & Hr & Hs)
                                          |(HD & HC & Hr & Hs)]].
      * left. do 3 (split; [intuition discriminate|]). exact Hs.
      * right. left. do 3 (split; [intuition discriminate|]). exact Hs.
      * right. right. do 3 (split; [intuition discriminate|]). exact Hs.
    + destruct Hrun as (Hg & Hret & ->). cbn [ctx goroutine returned ctx_done].
      destruct IH as [(HD & HC & Hr & Hs)|[(HD & HC & Hr & Hs)
                                          |(HD & HC & Hr & Hs)]]; try congruence.
      right. left. split; [auto|]. split; [intuition discriminate|].
      split; [reflexivity|]. split; [reflexivity|].
      destruct Hs as [[Hc _]|[[Hc _]|[(_ & Hc & Ha)|(Hc & Hx & Ha)]]];
        try congruence; [now left|]. right. split; [exact Ha|].
      rewrite Hx. unfold context_of. rewrite Hg in Hc.
      destruct (next c); [reflexivity | discriminate Hc].
    + destruct Hrun as (_ & Hret & ->). cbn [ctx goroutine returned ctx_done].
      destruct IH as [(HD & HC & Hr & Hs)|[(HD & HC & Hr & Hs)
                                          |(HD & HC & Hr & Hs)]]; try congruence.
      right. right. split; [intuition discriminate|]. split; [auto|].
      split; [reflexivity|].
      destruct Hs as [[Hg Hc]|[(Hg & Hc & Ha)|[(Hg & Hc & Ha)|(Hg & Hc & Ha)]]];
        rewrite Hc; auto 10.
Qed.

(** X15: when the select of [Timeout] takes [case <-done],
    the handler has returned without panicking (or was not dispatched because
    the request came in aborted), no 408 was written, and the context is
    exactly the one the handler left. *)
Theorem Timeout_in_time (next : HandlerFunc) (c : Context)
    (events : list timeout_event) (st : timeout_state) :
  Timeout next events (timeout_init c) = Some st ->
  In SelectDone events ->
  returned st = true /\ ~ In SelectCtxDone events /\
  (aborted c = true /\ ctx st = c \/
   aborted c = false /\ next c = Returned (ctx st)).
Proof.
  intros Hrun HD. apply Timeout_run_shape in Hrun.
  destruct Hrun as [(HD' & _)|[(_ & HC & Hr & Hg & Hs)|(HD' & _)]];
    [contradiction| |contradiction].
  repeat (split; [assumption|]). tauto.
Qed.

Lemma Timeout_in_time_witness :
  let c := disclosure.request aggregation.zero_address in
  let next := GetAddressInfo id id id disclosure.a_timestamp
                disclosure.succeeding_useCase in
  exists st,
    Timeout next [Dispatch; Expire; Complete; SelectDone] (timeout_init c) = Some st /\
    next c = Returned (ctx st).
Proof.
  intros c next.
  set (events := [Dispatch; Expire; Complete; SelectDone]).
  assert (E : exists st, Timeout next events (timeout_init c) = Some st)
    by (eexists; reflexivity).
  destruct E as [st E]. exists st. split; [exact E|].
  destruct (Timeout_in_time next c events st E) as (_ & _ & [[H _]|[_ H]]);
    [cbn; auto | discriminate H | exact H].
Defined.

End handler_proofs.

(** * More on the conversions: quotients that a float64 holds *)

Module exact_proofs.

Import big entity repository usecase aggregation big_proofs.

Local Open Scope Q_scope.

Lemma ilog2_unique x a :
  0 < x -> 2 ^ a <= x -> x < 2 ^ (a + 1) -> ilog2 x = a.
Proof.
  intros Hx Hlo Hhi. destruct (ilog2_spec x Hx) as [Hlo' Hhi'].
  assert (H1 : 2 ^ a < 2 ^ (ilog2 x + 1)) by lra.
  assert (H2 : 2 ^ ilog2 x < 2 ^ (a + 1)) by lra.
  apply pow2_lt_inv in H1, H2. lia.
Qed.

Lemma nearest_even_int y n : y == inject_Z n -> nearest_even y = n.
Proof.
  intros Hy. unfold nearest_even.
  assert (Hf : Qfloor y = n) by (rewrite Hy; apply Qfloor_Z).
  rewrite Hf.
  assert (Hc : Qcompare (y - inject_Z n) (1 # 2) = Lt).
  { apply -> Qlt_alt. lra. }
  now rewrite Hc.
Qed.

Lemma pow2_sub a b : 2 ^ (a - b) * 2 ^ b == 2 ^ a.
Proof. rewrite <- pow2_add. now replace (a - b + b)%Z with a by lia. Qed.

(** A value with at most [p] significant bits is not changed by rounding to
    [p] bits. *)
Lemma round_pos_exact p x m j :
  (0 < m < 2 ^ p)%Z -> x == inject_Z m * 2 ^ j -> round_pos p x = Qred x.
Proof.
  intros [Hm0 Hm1] Hx.
  assert (Hp : (0 <= p)%Z).
  { destruct (Z.lt_ge_cases p 0) as [Hneg|]; [|assumption].
    rewrite Z.pow_neg_r in Hm1 by assumption. lia. }
  assert (Hmq : 1 <= inject_Z m /\ inject_Z m < 2 ^ p).
  { split; [change 1 with (inject_Z 1); rewrite <- Zle_Qle; lia|].
    rewrite <- pow2_inject, <- Zlt_Qlt by assumption. exact Hm1. }
  pose proof (pow2_pos j) as Pj.
  assert (Hx0 : 0 < x).
  { rewrite Hx. generalize dependent (inject_Z m). generalize dependent (2 ^ j).
    intros. nra. }
  destruct (ilog2_spec x Hx0) as [Hlo _].
  assert (Hlt : 2 ^ ilog2 x < 2 ^ (p + j)).
  { rewrite pow2_add. eapply Qle_lt_trans; [exact Hlo|]. rewrite Hx.
    generalize dependent (inject_Z m). generalize dependent (2 ^ j).
    generalize dependent (2 ^ p). intros. nra. }
  apply pow2_lt_inv in Hlt.
  unfold round_pos. set (e := (ilog2 x - (p - 1))%Z).
  assert (He : (0 <= j - e)%Z) by (subst e; lia).
  pose proof (pow2_pos e) as Pe.
  assert (Hy : x / 2 ^ e == inject_Z (m * 2 ^ (j - e))).
  { rewrite inject_Z_mult, pow2_inject, Hx by assumption.
    rewrite <- (pow2_sub j e). field. lra. }
  rewrite (nearest_even_int _ _ Hy). apply Qred_complete.
  rewrite inject_Z_mult, pow2_inject, Hx by assumption.
  rewrite <- (pow2_sub j e). ring.
Qed.

Section Float64.

Variable denormal : Q -> float64.

(** The conversion of a positive amount whose quotient by the divisor has at
    most 53 significant bits is exact. *)
Lemma conversion_exact (wei D m j : Z) :
  (0 < wei < 2 ^ 256)%Z -> (1 <= D <= 10 ^ 18)%Z -> (0 < m < 2 ^ 53)%Z ->
  inject_Z wei / inject_Z D == inject_Z m * 2 ^ j ->
  Float64 denormal (Quo (SetInt wei) (SetInt D))
  = Finite (Qred (inject_Z wei / inject_Z D)).
Proof.
  intros [Hw0 Hw1] [HD0 HD1] Hm Hq.
  set (x := inject_Z wei / inject_Z D) in *.
  assert (HDq : 1 <= inject_Z D <= 1000000000000000000).
  { split; [change 1 with (inject_Z 1) | change 1000000000000000000 with (inject_Z (10 ^ 18))];
      rewrite <- Zle_Qle; lia. }
  assert (Hwq : 1 <= inject_Z wei < 2 ^ 256).
  { split; [change 1 with (inject_Z 1); rewrite <- Zle_Qle; lia|].
    rewrite <- pow2_inject, <- Zlt_Qlt by lia. exact Hw1. }
  assert (HxD : x * inject_Z D == inject_Z wei) by (unfold x; field; lra).
  assert (Hx0 : 0 < x).
  { apply (Qmult_lt_r _ _ (inject_Z D)); [lra|]. rewrite HxD. lra. }
  assert (Hxlo : 1 # 1000000000000000000 <= x).
  { apply (Qmult_le_r _ _ (inject_Z D)); [lra|]. rewrite HxD.
    generalize dependent (inject_Z D). intros. nra. }
  assert (Hxhi : x < 2 ^ 256).
  { apply Qle_lt_trans with (inject_Z wei); [|tauto]. rewrite <- HxD.
    generalize dependent (inject_Z D). intros. nra. }
  set (p := Z.max (prec (SetInt wei)) (prec (SetInt D))).
  assert (Hp : (64 <= p)%Z) by (subst p; unfold SetInt; cbn [prec]; lia).
  assert (Hm' : (0 < m < 2 ^ p)%Z).
  { split; [lia|]. apply Z.lt_le_trans with (2 ^ 53)%Z; [lia|].
    apply Z.pow_le_mono_r; lia. }
  assert (Hr1 : round p x = Qred x).
  { rewrite round_positive by assumption. now apply (round_pos_exact p x m j). }
  assert (Hred : Qred x == x) by apply Qred_correct.
  assert (Hr0 : 0 < Qred x) by lra.
  assert (Hr2 : round 53 (Qred x) = Qred x).
  { rewrite round_positive by assumption.
    rewrite (round_pos_exact 53 (Qred x) m j Hm) by (now rewrite Hred).
    apply Qred_complete, Qred_correct. }
  assert (Hval : val (Quo (SetInt wei) (SetInt D)) = Qred x) by exact Hr1.
  unfold Float64. rewrite Hval, Hr2.
  assert (Hnz : Qeq_bool (Qred x) 0 = false).
  { destruct (Qeq_bool (Qred x) 0) eqn:E; [|reflexivity].
    apply Qeq_bool_iff in E. lra. }
  rewrite Hnz.
  pose proof (Qabs_positive (Qred x) Hr0) as Hab.
  assert (Ha : 0 < Qabs (Qred x)) by lra.
  destruct (ilog2_spec _ Ha) as [Hlo Hhi].
  assert (Hmin : (ilog2 (Qabs (Qred x)) <? emin)%Z = false).
  { apply Z.ltb_ge.
    assert (Hlt : 2 ^ emin < 2 ^ (ilog2 (Qabs (Qred x)) + 1)).
    { apply Qle_lt_trans with (2 ^ (- 62)); [apply pow2_le; unfold emin; lia|].
      change (2 ^ (- 62)) with (1 # 4611686018427387904). lra. }
    apply pow2_lt_inv in Hlt. lia. }
  assert (Hmax : (emax <? ilog2 (Qabs (Qred x)))%Z = false).
  { apply Z.ltb_ge.
    assert (Hlt : 2 ^ ilog2 (Qabs (Qred x)) < 2 ^ 256) by lra.
    apply pow2_lt_inv in Hlt. unfold emax. lia. }
  now rewrite Hmin, Hmax.
Qed.

Lemma Qred_inject_Z k : Qred (inject_Z k) = inject_Z k.
Proof.
  unfold Qred, inject_Z.
  pose proof (Z.ggcd_gcd k 1) as Hg.
  pose proof (Z.ggcd_correct_divisors k 1) as Hd.
  destruct (Z.ggcd k 1) as [g [aa bb]]. cbn [fst snd] in *.
  rewrite Z.gcd_1_r in Hg. subst g. destruct Hd as [Ha Hb].
  assert (Ea : aa = k) by lia. assert (Eb : bb = 1%Z) by lia.
  rewrite Ea, Eb. reflexivity.
Qed.

Lemma Qred_whole k D :
  (0 < D)%Z -> Qred (inject_Z (k * D) / inject_Z D) = inject_Z k.
Proof.
  intros HD.
  assert (HDq : 0 < inject_Z D) by (change 0 with (inject_Z 0); now rewrite <- Zlt_Qlt).
  rewrite <- (Qred_inject_Z k).
  apply Qred_complete. rewrite inject_Z_mult. field. lra.
Qed.

(** X16: on success, a gas price or a balance whose
    quotient by [10^9], resp. [10^18], has at most 53 significant bits is
    reported exactly; so is every whole number of gwei, resp. of ether, below
    [2^53]. *)
Theorem GetAddressInfo_exact_conversions (repo : EthereumRepository)
    (address : string) (now : Time) (events : list event) (info : AddressInfo) :
  GetAddressInfo denormal repo address now events
    = Some (Return (Some info) None) ->
  exists g a : Z,
    GetGasPrice repo = Ok g /\ GetAddressBalance repo address = Ok a /\
    (forall m j : Z,
       (0 < g < 2 ^ 256)%Z -> (0 < m < 2 ^ 53)%Z ->
       inject_Z g / 1000000000 == inject_Z m * 2 ^ j ->
       GasPrice_Gwei (Info_GasPrice info)
       = Finite (Qred (inject_Z g / 1000000000))) /\
    (forall m j : Z,
       (0 < a < 2 ^ 256)%Z -> (0 < m < 2 ^ 53)%Z ->
       inject_Z a / 1000000000000000000 == inject_Z m * 2 ^ j ->
       Balance_Ether (Info_Balance info)
       = Finite (Qred (inject_Z a / 1000000000000000000))) /\
    (forall k : Z,
       (0 < k < 2 ^ 53)%Z -> g = (k * 1000000000)%Z ->
       GasPrice_Gwei (Info_GasPrice info) = Finite (inject_Z k)) /\
    (forall k : Z,
       (0 < k < 2 ^ 53)%Z -> a = (k * 1000000000000000000)%Z ->
       Balance_Ether (Info_Balance info) = Finite (inject_Z k)).
Proof.
  intros Hrun. apply usecase_proofs.GetAddressInfo_run in Hrun.
  destruct (usecase_proofs.run_outcome denormal repo address now events _ _
              (usecase_proofs.init_inv repo address) Hrun)
    as [[(info' & [= <-] & g & b & a & Hg & Hb & Ha & ->)
        |(e & [=] & _)]
       |(r & _ & [=])].
  exists g, a. cbn [Info_GasPrice Info_Balance GasPrice_Gwei Balance_Ether].
  split; [exact Hg|]. split; [exact Ha|].
  assert (Hgen : forall wei D m j,
    (1 <= D <= 10 ^ 18)%Z -> (0 < wei < 2 ^ 256)%Z -> (0 < m < 2 ^ 53)%Z ->
    inject_Z wei / inject_Z D == inject_Z m * 2 ^ j ->
    Float64 denormal (Quo (SetInt wei) (SetInt D))
    = Finite (Qred (inject_Z wei / inject_Z D)))
    by (intros; now apply (conversion_exact wei D m j)).
  assert (Hwhole : forall k D,
    (1 <= D <= 10 ^ 18)%Z -> (0 < k < 2 ^ 53)%Z ->
    Float64 denormal (Quo (SetInt (k * D)) (SetInt D)) = Finite (inject_Z k)).
  { intros k D HD Hk.
    assert (HDq : 0 < inject_Z D)
      by (change 0 with (inject_Z 0); rewrite <- Zlt_Qlt; lia).
    rewrite (conversion_exact (k * D) D k 0); [| |assumption|assumption|].
    - f_equal. apply Qred_whole. lia.
    - split; [nia|]. apply Z.lt_le_trans with (2 ^ 53 * 10 ^ 18)%Z; [nia|].
      vm_compute. discriminate.
    - rewrite inject_Z_mult. change (2 ^ 0) with 1. field. lra. }
  split; [|split; [|split]].
  - intros m j Hgr Hm Hq. apply (Hgen g 1000000000%Z m j); [lia | | |]; assumption.
  - intros m j Har Hm Hq.
    apply (Hgen a 1000000000000000000%Z m j); [lia | | |]; assumption.
  - intros k Hk ->. apply (Hwhole k 1000000000%Z); [lia | assumption].
  - intros k Hk ->. apply (Hwhole k 1000000000000000000%Z); [lia | assumption].
Qed.

End Float64.

Lemma GetAddressInfo_exact_conversions_witness :
  GasPrice_Gwei (Info_GasPrice entity_ok) = Finite (inject_Z 12) /\
  Balance_Ether (Info_Balance entity_ok)
  = Finite (Qred (inject_Z 2500000000000000000 / 1000000000000000000)).
Proof.
  destruct (GetAddressInfo_exact_conversions no_denormal node_ok zero_address 0
              (calls_first node_ok zero_address) entity_ok eq_refl)
    as (g & a & [= <-] & [= <-] & _ & He & Hk & _).
  split.
  - apply (Hk 12%Z); [lia | reflexivity].
  - apply (He 5%Z (-1)%Z); [lia | lia | reflexivity].
Defined.

End exact_proofs.

(** * The API keys of the configuration *)

Module config_proofs.

Import strings strings_more config validator_proofs.

Lemma string_app_assoc (a b c : string) : (a +:+ b) +:+ c = a +:+ (b +:+ c).
Proof.
  induction a as [|x a IH]; rewrite ?app_nil, ?app_cons; [reflexivity|].
  now rewrite IH.
Qed.

Lemma Split_avoids sep s : avoids sep s -> Split s sep = [s].
Proof.
  induction s as [|c s IH]; cbn [avoids Split]; [reflexivity|].
  intros [Hc Hs]. rewrite (proj2 (Ascii.eqb_neq c sep) Hc), IH by assumption.
  reflexivity.
Qed.

Lemma Split_app sep a b :
  avoids sep a -> Split (a +:+ String sep b) sep = a :: Split b sep.
Proof.
  induction a as [|c a IH]; cbn [avoids]; rewrite ?app_nil, ?app_cons.
  - intros _. cbn [Split]. now rewrite Ascii.eqb_refl.
  - intros [Hc Ha]. cbn [Split].
    rewrite (proj2 (Ascii.eqb_neq c sep) Hc), IH by assumption. reflexivity.
Qed.

Lemma avoids_app sep a b : avoids sep a -> avoids sep b -> avoids sep (a +:+ b).
Proof.
  induction a as [|c a IH]; rewrite ?app_nil, ?app_cons; cbn [avoids]; [auto|].
  intros [Hc Ha] Hb. auto.
Qed.

Lemma plain_word_avoids s :
  plain_word s -> avoids "," s /\ avoids ":" s /\ spec.all_plain s.
Proof.
  induction s as [|c s IH]; cbn [plain_word avoids spec.all_plain]; [auto|].
  intros [(Ha & Hsp & Hc1 & Hc2) Hs]. destruct (IH Hs) as (H1 & H2 & H3). auto 10.
Qed.

Section LoadConfig.

Variable TrimFunc_IsSpace : string -> string.
Variable TrimRightFunc_IsSpace : string -> string.
Variable Map_ToLower : string -> string.

Lemma TrimSpace_word s :
  plain_word s -> TrimSpace TrimFunc_IsSpace TrimRightFunc_IsSpace s = s.
Proof.
  intros H. destruct s as [|c s]; [reflexivity|].
  apply TrimSpace_plain. now apply plain_word_avoids.
Qed.

Lemma add_pair_plain m k u :
  plain_word k -> plain_word u ->
  add_pair TrimFunc_IsSpace TrimRightFunc_IsSpace m (k +:+ ":" +:+ u)
  = <[k := u]> m.
Proof.
  intros Hk Hu. unfold add_pair.
  destruct (plain_word_avoids k Hk) as (_ & Hk2 & _).
  destruct (plain_word_avoids u Hu) as (_ & Hu2 & _).
  change (k +:+ ":" +:+ u) with (k +:+ String ":" u).
  rewrite (Split_app ":" k u Hk2), (Split_avoids ":" u Hu2).
  now rewrite !TrimSpace_word.
Qed.

Lemma render_cons k u p pairs :
  render ((k, u) :: p :: pairs)
  = (k +:+ ":" +:+ u) +:+ String "," (render (p :: pairs)).
Proof.
  cbn [render]. destruct p as [k' u'].
  now rewrite !string_app_assoc.
Qed.

Lemma render_not_empty p pairs : String.eqb (render (p :: pairs)) EmptyString = false.
Proof.
  destruct p as [k u].
  assert (H : exists rest, render ((k, u) :: pairs) = k +:+ String ":" rest).
  { destruct pairs as [|p pairs]; [now exists u|].
    rewrite render_cons, string_app_assoc. eexists. reflexivity. }
  destruct H as [rest ->]. now destruct k.
Qed.

Lemma Split_render pairs :
  Forall (fun p => plain_word p.1 /\ plain_word p.2) pairs ->
  pairs <> [] ->
  Split (render pairs) "," = map (fun p => p.1 +:+ ":" +:+ p.2) pairs.
Proof.
  induction pairs as [|[k u] pairs IH]; [congruence|].
  intros Hall _. apply Forall_cons in Hall as [[Hk Hu] Hall]. cbn [fst snd] in *.
  assert (Hav : avoids "," (k +:+ ":" +:+ u)).
  { apply avoids_app; [now apply plain_word_avoids|].
    change (":" +:+ u) with (String ":" u). cbn [avoids].
    split; [discriminate | now apply plain_word_avoids]. }
  destruct pairs as [|p pairs].
  - cbn [render map fst snd]. now apply Split_avoids.
  - rewrite render_cons, (Split_app "," _ _ Hav), IH by (assumption || discriminate).
    reflexivity.
Qed.

Lemma foldl_add_pair pairs : forall m,
  Forall (fun p => plain_word p.1 /\ plain_word p.2) pairs ->
  foldl (add_pair TrimFunc_IsSpace TrimRightFunc_IsSpace) m
    (map (fun p => p.1 +:+ ":" +:+ p.2) pairs)
  = foldl (fun m p => <[p.1 := p.2]> m) m pairs.
Proof.
  induction pairs as [|[k u] pairs IH]; intros m Hall; [reflexivity|].
  apply Forall_cons in Hall as [[Hk Hu] Hall]. cbn [map foldl fst snd] in *.
  rewrite add_pair_plain by assumption. now apply IH.
Qed.

(** X19: a list of pairs of plain words (ASCII, without
    spaces, commas and colons) written as key:user,key:user,... in API_KEYS
    is read back by [LoadConfig] pair by pair, in order, a later pair
    replacing an earlier one with the same key. *)
Theorem LoadAuthConfig_reads_back (environ : gmap string string)
    (pairs : list (string * string)) :
  Forall (fun p => plain_word p.1 /\ plain_word p.2) pairs ->
  environ !! "API_KEYS" = Some (render pairs) ->
  APIKeys (LoadAuthConfig TrimFunc_IsSpace TrimRightFunc_IsSpace Map_ToLower
             environ)
  = foldl (fun m p => <[p.1 := p.2]> m) ∅ pairs.
Proof.
  intros Hall Henv. unfold LoadAuthConfig, getEnv. cbn [APIKeys].
  rewrite Henv. cbn [default from_option]. unfold id.
  destruct pairs as [|p pairs]; [reflexivity|].
  rewrite render_not_empty, Split_render by (assumption || discriminate).
  now apply foldl_add_pair.
Qed.

End LoadConfig.

Lemma Atoi_Int_String (n : Z) :
  - 2 ^ 63 <= n <= 2 ^ 63 - 1 -> Atoi (response.Int_String (Some n)) = Some n.
Proof.
  intros Hn. unfold Atoi, response.Int_String.
  set (str := NilZero.string_of_int (Z.to_int n)).
  assert (Hstr : match str with
                 | EmptyString => None
                 | String c s' =>
                     if Ascii.eqb c "+"
                     then option_map Decimal.Pos (NilZero.uint_of_string s')
                     else NilZero.int_of_string str
                 end
                 = match str with
                   | EmptyString => None
                   | String c s' =>
                       if Ascii.eqb c "+"
                       then option_map Decimal.Pos (NilZero.uint_of_string s')
                       else NilZero.int_of_string (String c s')
                   end) by (now destruct str).
  rewrite Hstr. subst str.
  assert (Hnn : Z.to_int n <> Decimal.Pos Decimal.Nil /\
                Z.to_int n <> Decimal.Neg Decimal.Nil).
  { destruct n; cbn; split; try discriminate;
      intros [= H]; now apply DecimalPos.Unsigned.to_uint_nonnil in H. }
  destruct Hnn as [H1 H2].
  pose proof (NilZero.isi (Z.to_int n) H1 H2) as Hisi.
  assert (Hhead : match NilZero.string_of_int (Z.to_int n) with
                  | EmptyString => None
                  | String c s' =>
                      if Ascii.eqb c "+"
                      then option_map Decimal.Pos (NilZero.uint_of_string s')
                      else NilZero.int_of_string (String c s')
                  end = Some (Z.to_int n)).
  { rewrite <- Hisi. destruct (Z.to_int n) as [d|d]; [|reflexivity].
    destruct d; reflexivity. }
  rewrite Hhead, DecimalZ.of_to.
  destruct (Z.leb_spec (- 2 ^ 63) n); [|lia].
  destruct (Z.leb_spec n (2 ^ 63 - 1)); [reflexivity | lia].
Qed.

(** X25: an integer setting is read back as written: an
    [int] written in decimal in the variable is the value [getIntEnv] gives,
    negative numbers included; when the variable is not set, the default is
    given. *)
Theorem getIntEnv_reads_back (environ : gmap string string) (key : string)
    (defaultValue n : Z) :
  (environ !! key = None -> getIntEnv environ key defaultValue = defaultValue) /\
  (- 2 ^ 63 <= n <= 2 ^ 63 - 1 ->
   environ !! key = Some (response.Int_String (Some n)) ->
   getIntEnv environ key defaultValue = n).
Proof.
  unfold getIntEnv, getEnv. split.
  - intros ->. reflexivity.
  - intros Hn ->. cbn [default from_option]. unfold id.
    now rewrite Atoi_Int_String.
Qed.

Lemma getIntEnv_reads_back_witness :
  getIntEnv {["RATE_LIMIT" := "-1"]} "RATE_LIMIT" 100 = -1.
Proof.
  apply (proj2 (getIntEnv_reads_back {["RATE_LIMIT" := "-1"]} "RATE_LIMIT"
                  100 (-1))); [lia | reflexivity].
Defined.

Lemma LoadAuthConfig_reads_back_witness :
  let keys := APIKeys (LoadAuthConfig id id id
                         {["API_KEYS" := "k1:alice,k2:bob,k1:carol"]}) in
  keys !! "k1" = Some "carol" /\ keys !! "k2" = Some "bob".
Proof.
  intros keys. unfold keys.
  rewrite (LoadAuthConfig_reads_back id id id _
             [("k1", "alice"); ("k2", "bob"); ("k1", "carol")]).
  - split; reflexivity.
  - repeat constructor; cbn; intuition discriminate.
  - reflexivity.
Defined.

End config_proofs.

(** * API keys: the registry, the configuration, the router *)

Module auth_proofs.

Import gin chain middleware auth.

Lemma eqb_empty s : String.eqb s EmptyString = false <-> s <> EmptyString.
Proof.
  destruct (String.eqb_spec s EmptyString); split; congruence.
Qed.

Lemma apiKeys_foldl k ops : forall a,
  apiKeys (foldl apply_op a ops) !! k =
  match last_about k ops with
  | Some (Add _ userID) => Some userID
  | Some (Remove _) => None
  | None => apiKeys a !! k
  end.
Proof.
  induction ops as [|o ops IH]; intros a; [reflexivity|].
  cbn [foldl last_about]. rewrite IH.
  destruct (last_about k ops) as [o'|]; [reflexivity|].
  destruct o as [k' u|k']; cbn [about apply_op AddAPIKey RemoveAPIKey apiKeys];
    destruct (String.eqb_spec k' k) as [->|Hne].
  - apply lookup_insert_eq.
  - now apply lookup_insert_ne.
  - apply lookup_delete_eq.
  - now apply lookup_delete_ne.
Qed.

(** X17: a request that presents no key (neither header nor
    query parameter, or empty ones) is answered 401 "API key is required"
    whatever the registry holds, even a user registered under the empty key;
    a request that presents a key is decided by the last operation on that
    key: after [AddAPIKey] the request goes on with the user of that call in
    the context, after [RemoveAPIKey] or with no operation at all it is
    answered 401 "Invalid API key".  The next handler does not run on a
    rejected request. *)
Theorem Authenticate_last_operation (ops : list key_op) (next : Handler)
    (e : Exchange) :
  let a := foldl apply_op NewAPIKeyAuth ops in
  let apiKey := presented (chain.Request e) in
  Authenticate a next e =
  if String.eqb apiKey EmptyString then
    Done (with_context e
            (gin.AbortWithStatusJSON 401 (error_H "API key is required")
               (context e)))
  else
    match last_about apiKey ops with
    | Some (Add _ userID) => chain.Next next (Set_ "userID" userID e)
    | _ =>
        Done (with_context e
                (gin.AbortWithStatusJSON 401 (error_H "Invalid API key")
                   (context e)))
    end.
Proof.
  intros a apiKey. unfold Authenticate. fold apiKey.
  destruct (String.eqb apiKey EmptyString); [reflexivity|].
  unfold a. rewrite apiKeys_foldl.
  destruct (last_about apiKey ops) as [[k u|k]|]; reflexivity.
Qed.

End auth_proofs.

Module router_proofs.

Import gin chain middleware auth guards router ratelimiter_proofs limiter_runs.

Lemma AddAPIKey_foldl order : forall a,
  NoDup order.*1 ->
  apiKeys (foldl (fun a kv => AddAPIKey a kv.1 kv.2) a order)
  = list_to_map order ∪ apiKeys a.
Proof.
  induction order as [|[k u] order IH]; intros a Hnd; cbn [foldl].
  - cbn. now rewrite (left_id_L ∅ (∪)).
  - rewrite fmap_cons in Hnd. apply NoDup_cons in Hnd as [Hk Hnd].
    rewrite IH by assumption. cbn [AddAPIKey apiKeys fst snd list_to_map foldr].
    cbn. apply map_eq. intros i.
    rewrite !lookup_union. destruct (decide (i = k)) as [->|Hne].
    + rewrite !lookup_insert_eq.
      rewrite (not_elem_of_list_to_map_1 _ _ Hk).
      now destruct (apiKeys a !! k).
    + now rewrite !lookup_insert_ne by congruence.
Qed.

(** X18: the registry that [registerRoutes] builds holds
    exactly the configured keys, together with the development key in debug
    mode unless the configuration gives that key to another user; the order
    in which [range] visits the configured keys does not matter. *)
Theorem apiKeyAuth_registry (debug : bool) (configured : gmap string string)
    (order : list (string * string)) :
  order ≡ₚ map_to_list configured ->
  apiKeys (apiKeyAuth debug order)
  = configured ∪ (if debug then {["development-api-key" := "dev-user"]} else ∅).
Proof.
  intros Hperm. unfold apiKeyAuth. rewrite AddAPIKey_foldl.
  - rewrite (list_to_map_proper order (map_to_list configured)); [| |exact Hperm].
    + rewrite list_to_map_to_list. now destruct debug.
    + rewrite Hperm. apply NoDup_fst_map_to_list.
  - rewrite Hperm. apply NoDup_fst_map_to_list.
Qed.

Lemma apiKeyAuth_registry_witness :
  let configured : gmap string string :=
    {["development-api-key" := "ops"; "k1" := "alice"]} in
  apiKeys (apiKeyAuth true (map_to_list configured)) !! "development-api-key"
  = Some "ops".
Proof.
  intros configured.
  rewrite (apiKeyAuth_registry true configured) by reflexivity.
  reflexivity.
Defined.

Section limiter.

Variable spare : nat -> nat.

Lemma serve_keeps_exempt ip ops : forall rl adm,
  run_ok rl adm -> 0 <= limit rl ->
  whitelistIPs rl !! ip = Some true -> timestamps rl ip = [] ->
  ~ In (Unwhitelist ip) ops ->
  whitelistIPs (serve spare ops rl adm).1 !! ip = Some true /\
  timestamps (serve spare ops rl adm).1 ip = [].
Proof.
  induction ops as [|o ops IH]; intros rl adm Hrun Hlim Hw Hts Hnu; [auto|].
  rewrite serve_cons.
  pose proof (run_run_ok spare [o] rl adm Hrun) as Hrun'.
  destruct (run_limit spare [o] rl adm) as [Hl' _].
  pose proof (run_ok_unlocked rl adm Hrun Hlim) as Hmu.
  assert (Hnu' : ~ In (Unwhitelist ip) ops) by (intros H; apply Hnu; now right).
  assert (Hno : o <> Unwhitelist ip) by (intros ->; apply Hnu; now left).
  destruct Hrun as (Hok & _ & _).
  apply IH; [exact Hrun' | lia | | | exact Hnu'].
  - destruct o as [ip' now|now|ip'|ip']; cbn [serve].
    + destruct (Limit_spec spare rl ip' now Hok) as (_ & _ & _ & Hwl & _).
      destruct (Limit spare rl ip' now) as [[] rl']; cbn [fst snd] in *;
        now rewrite Hwl.
    + cbn [fst]. unfold cleanup. now rewrite Hmu.
    + cbn [fst]. unfold AddToWhitelist. rewrite Hmu.
      cbn [set_whitelistIPs whitelistIPs].
      destruct (decide (ip' = ip)) as [->|Hne];
        [apply lookup_insert_eq | now rewrite lookup_insert_ne].
    + cbn [fst]. unfold RemoveFromWhitelist. rewrite Hmu.
      cbn [set_whitelistIPs whitelistIPs].
      rewrite lookup_delete_ne by congruence. exact Hw.
  - destruct o as [ip' now|now|ip'|ip']; cbn [serve].
    + destruct (Limit_spec spare rl ip' now Hok) as (_ & _ & _ & _ & Hframe & Hv).
      destruct (decide (ip' = ip)) as [->|Hne].
      * assert (HL : Limit spare rl ip now = (middleware.Next, rl))
          by (unfold Limit, whitelisted; now rewrite Hmu, Hw).
        now rewrite HL.
      * destruct (Limit spare rl ip' now) as [[] rl']; cbn [fst snd] in *;
          rewrite Hframe by congruence; exact Hts.
    + cbn [fst]. rewrite cleanup_timestamps by assumption. now rewrite Hts.
    + cbn [fst]. unfold timestamps, AddToWhitelist in *. now rewrite Hmu.
    + cbn [fst]. unfold timestamps, RemoveFromWhitelist in *. now rewrite Hmu.
Qed.

(** X23: for a limit from 0 to [MaxLimit] (one for which
    [make] returns, so that no request of another address leaves the mutex
    held) and a window other than the least duration: the limiter that
    [registerRoutes] builds in debug mode never limits the local addresses
    127.0.0.1 and ::1: whatever requests and sweeps came before, their
    requests go on, the limiter is left as it is and no timestamp is ever
    stored for them.  In release mode the whitelist is empty. *)
Theorem localhost_exempt_in_debug (limit : Z) (window : Duration)
    (ops : list op) (ip : string) (now : Time) :
  0 <= limit <= runtime.MaxLimit -> runtime.MinDuration < window ->
  ip = "127.0.0.1" \/ ip = "::1" ->
  ~ In (Unwhitelist ip) ops ->
  let r := serve spare ops (rateLimiter true limit window) [] in
  Limit spare r.1 ip now = (middleware.Next, r.1) /\
  timestamps r.1 ip = [] /\
  whitelistIPs (rateLimiter false limit window) = ∅.
Proof.
  intros [Hlim _] _ Hip Hnu r.
  assert (Hinit : rateLimiter true limit window
                  = (serve spare [Whitelist "127.0.0.1"; Whitelist "::1"]
                       (NewRateLimiter limit window) []).1) by reflexivity.
  assert (Hrun0 : run_ok (rateLimiter true limit window) []).
  { rewrite Hinit.
    apply (run_run_ok spare [Whitelist "127.0.0.1"; Whitelist "::1"] _ []
             (New_run_ok limit window)). }
  assert (Hw0 : whitelistIPs (rateLimiter true limit window) !! ip = Some true)
    by (destruct Hip as [-> | ->]; reflexivity).
  assert (Hl0 : middleware.limit (rateLimiter true limit window) = limit)
    by reflexivity.
  destruct (serve_keeps_exempt ip ops _ [] Hrun0 ltac:(lia) Hw0 eq_refl Hnu)
    as [Hw Hts].
  fold r in Hw, Hts.
  pose proof (run_run_ok spare ops _ [] Hrun0) as Hrun. fold r in Hrun.
  destruct (run_limit spare ops (rateLimiter true limit window) []) as [Hl _].
  fold r in Hl.
  assert (Hmu : mu r.1 = false)
    by (apply (run_ok_unlocked _ _ Hrun); lia).
  split; [|split; [exact Hts | reflexivity]].
  unfold Limit, whitelisted. now rewrite Hmu, Hw.
Qed.

(** X26: [LoadConfig] accepts a negative RATE_LIMIT, and
    with the limiter that [registerRoutes] builds from it the first request
    of an address that is not whitelisted panics in [make]: on the route the
    result of the handlers is that panic, raised before the authentication
    and the handler are reached, whatever the use case.  (The route runs in
    the goroutine that Timeout starts, where nothing recovers a panic.) *)
Theorem negative_RATE_LIMIT_panics (environ : gmap string string) (debug : bool)
    (window : Duration) (n : Z) (enabled : bool) (a : APIKeyAuth)
    (useCase : string -> usecase.outcome) (e : Exchange) (now now' : Time)
    (TrimFunc_IsSpace TrimRightFunc_IsSpace Map_ToLower : string -> string)
    (RFC3339 : Time -> string) (Seconds : Duration -> Z)
    (TimeFormat : Time -> string) :
  - 2 ^ 63 <= n < 0 ->
  environ !! "RATE_LIMIT" = Some (response.Int_String (Some n)) ->
  let rl := rateLimiter debug (config.RateLimit_Limit environ) window in
  let ip := http.ClientIP (chain.Request e) in
  whitelisted rl ip = false ->
  (Limit spare rl ip now).1 = MakePanics /\
  exists rl',
    ethereum_route spare TrimFunc_IsSpace TrimRightFunc_IsSpace Map_ToLower
      RFC3339 Seconds TimeFormat rl enabled a useCase now now' e
    = Some (Panics "runtime error: makeslice: cap out of range" "" e, rl').
Proof.
  intros Hn Henv rl ip Hw.
  assert (Hl : config.RateLimit_Limit environ = n).
  { unfold config.RateLimit_Limit, config.getIntEnv, config.getEnv.
    rewrite Henv. cbn [default from_option]. unfold id.
    rewrite config_proofs.Atoi_Int_String by lia. reflexivity. }
  assert (Hrl : mu rl = false /\ ips rl = ∅ /\ middleware.limit rl = n).
  { unfold rl, rateLimiter. rewrite Hl. destruct debug; auto. }
  destruct Hrl as (Hmu & Hips & Hlim).
  assert (Hneg : (middleware.limit rl <? 0) = true) by (apply Z.ltb_lt; lia).
  assert (HL : Limit spare rl ip now = (MakePanics, hold_mu rl)).
  { unfold Limit. now rewrite Hmu, Hw, Hips, lookup_empty, Hneg. }
  split; [now rewrite HL|].
  exists (hold_mu rl). unfold ethereum_route, Limit_HandlerFunc. fold ip.
  now rewrite HL.
Qed.

End limiter.

Lemma negative_RATE_LIMIT_panics_witness :
  let rl := rateLimiter true (config.RateLimit_Limit {["RATE_LIMIT" := "-1"]})
              Second in
  let e := a_request EmptyString aggregation.zero_address in
  (Limit id rl "10.0.0.7" 1).1 = MakePanics /\
  exists rl',
    ethereum_route id id id id disclosure.a_timestamp (fun d => d / Second)
      disclosure.a_timestamp rl true NewAPIKeyAuth
      disclosure.succeeding_useCase 1 2 e
    = Some (Panics "runtime error: makeslice: cap out of range" "" e, rl').
Proof.
  intros rl e.
  apply (negative_RATE_LIMIT_panics id {["RATE_LIMIT" := "-1"]} true Second (-1)
           true NewAPIKeyAuth disclosure.succeeding_useCase e 1 2
           id id id disclosure.a_timestamp (fun d => d / Second)
           disclosure.a_timestamp); [lia | reflexivity | reflexivity].
Defined.

Lemma localhost_exempt_in_debug_witness :
  let ops := [Request "::1" 1; Request "::1" 2; Request "10.0.0.7" 3; Sweep 4] in
  let r := serve id ops (rateLimiter true 1 Second) [] in
  Limit id r.1 "::1" 5 = (middleware.Next, r.1) /\
  admitted_for "::1" r.2 = [1; 2].
Proof.
  intros ops r. split; [|reflexivity].
  apply (localhost_exempt_in_debug id 1 Second ops "::1" 5);
    [unfold runtime.MaxLimit; lia | unfold runtime.MinDuration, Second; lia
    | now right|].
  unfold ops. cbn. intros H. decompose [or] H; discriminate || contradiction.
Defined.

End router_proofs.

(** * The route GET /api/ethereum/:address *)

Module route_proofs.

Import gin chain middleware auth guards router ratelimiter_proofs limiter_runs.

Section route.

Variable spare : nat -> nat.
Variable TrimFunc_IsSpace : string -> string.
Variable TrimRightFunc_IsSpace : string -> string.
Variable Map_ToLower : string -> string.
Variable RFC3339 : Time -> string.
Variable Seconds : Duration -> Z.
Variable TimeFormat : Time -> string.

Local Abbreviation route :=
  (ethereum_route spare TrimFunc_IsSpace TrimRightFunc_IsSpace Map_ToLower
     RFC3339 Seconds TimeFormat).
Local Abbreviation GetAddressInfo' :=
  (handler.GetAddressInfo TrimFunc_IsSpace TrimRightFunc_IsSpace Map_ToLower
     RFC3339).

(** X20: for a limiter with a limit from 0 to [MaxLimit]
    (one for which [make] returns) and a window other than the least duration
    (so that [-rl.window] does not wrap): in front of the route the rate
    limiter comes first and the authentication second.  A request over the
    limit is
    answered 429 and nothing is recorded; a request within the limit that
    presents no key or an unknown one is answered 401, and its instant has
    been recorded: it counts against the limit of its address.  In neither
    case does the result depend on the use case, which is not called. *)
Theorem ethereum_route_rejections (rl : RateLimiter) (a : APIKeyAuth)
    (e : Exchange) (now : Time) :
  let ip := http.ClientIP (chain.Request e) in
  let kept := in_window (now - window rl) (timestamps rl ip) in
  let rl' := (Limit spare rl ip now).2 in
  limiter_ok rl -> mu rl = false ->
  0 <= limit rl <= runtime.MaxLimit -> runtime.MinDuration < window rl ->
  whitelisted rl ip = false -> aborted (context e) = false ->
  (limit rl <= Z.of_nat (length kept) ->
   timestamps rl' ip = timestamps rl ip /\
   forall enabled useCase now',
     route rl enabled a useCase now now' e
     = Some (Done (with_context e
                     (Abort (response.TooManyRequests (context e)))), rl')) /\
  (Z.of_nat (length kept) < limit rl ->
   timestamps rl' ip = kept ++ [now] /\
   (presented (chain.Request e) = EmptyString ->
    forall useCase now',
      route rl true a useCase now now' e
      = Some (Done (chain.AbortWithStatusJSON 401
                      (error_H "API key is required") e), rl')) /\
   (presented (chain.Request e) <> EmptyString ->
    apiKeys a !! presented (chain.Request e) = None ->
    forall useCase now',
      route rl true a useCase now now' e
      = Some (Done (chain.AbortWithStatusJSON 401
                      (error_H "Invalid API key") e), rl'))).
Proof.
  intros ip kept rl' Hok Hmu [Hlim _] _ Hwl Hab.
  pose proof (Limit_verdict spare rl ip now Hok Hmu Hlim) as Hv.
  pose proof (Limit_timestamps spare rl ip now Hok Hmu Hlim) as Hts.
  rewrite Hwl in Hv, Hts. fold kept in Hv, Hts. fold rl' in Hts.
  split.
  - intros Hfull. rewrite decide_False in Hv by lia. rewrite decide_False in Hts by lia.
    split; [exact Hts|]. intros enabled useCase now'.
    unfold ethereum_route, Limit_HandlerFunc. fold ip.
    destruct (Limit spare rl ip now) as [v r] eqn:HL. cbn [fst snd] in *.
    now subst v rl'.
  - intros Hroom. rewrite decide_True in Hv by lia. rewrite decide_True in Hts by lia.
    split; [exact Hts|].
    assert (Hroute : forall useCase now',
      route rl true a useCase now now' e
      = Some (Authenticate a
                (ContentTypeEnforcer Map_ToLower
                   (CacheControl Seconds TimeFormat (5 * Second) now'
                      (lift (GetAddressInfo' useCase)))) e, rl')).
    { intros useCase now'. unfold ethereum_route, Limit_HandlerFunc. fold ip.
      destruct (Limit spare rl ip now) as [v r] eqn:HL. cbn [fst snd] in *.
      subst v rl'. unfold chain.Next. now rewrite Hab. }
    split.
    + intros Hnone useCase now'. rewrite Hroute. unfold Authenticate.
      now rewrite Hnone.
    + intros Hsome Hunknown useCase now'. rewrite Hroute. unfold Authenticate.
      rewrite (proj2 (auth_proofs.eqb_empty _) Hsome). now rewrite Hunknown.
Qed.

Lemma lift_Header h e : Header (exchange_of (lift h e)) = Header e.
Proof. unfold lift. now destruct (h (context e)). Qed.

Lemma lift_context h e :
  context (exchange_of (lift h e))
  = match h (context e) with Returned c | Panicked _ _ c => c end.
Proof. unfold lift. now destruct (h (context e)). Qed.

(** X21: a GET request that the limiter lets through and
    that is authenticated (or when authentication is off) reaches the
    handler, with the user of its key in the context; whatever the handler
    then answers (200, but 400 and 500 as well) goes out with the header
    Cache-Control "public, max-age=..." set before the handler ran. *)
Theorem ethereum_route_cached (rl : RateLimiter) (enabled : bool)
    (a : APIKeyAuth) (useCase : string -> usecase.outcome) (e : Exchange)
    (now now' : Time) :
  let ip := http.ClientIP (chain.Request e) in
  let e1 := if enabled
            then match apiKeys a !! presented (chain.Request e) with
                 | Some userID => Set_ "userID" userID e
                 | None => e
                 end
            else e in
  (Limit spare rl ip now).1 = middleware.Next ->
  aborted (context e) = false ->
  http.Method (chain.Request e) = "GET" ->
  (enabled = true ->
   presented (chain.Request e) <> EmptyString /\
   apiKeys a !! presented (chain.Request e) <> None) ->
  exists r,
    route rl enabled a useCase now now' e = Some (r, (Limit spare rl ip now).2) /\
    Header (exchange_of r) !! "Cache-Control"
    = Some ("public, max-age=" +:+ response.Int_String (Some (Seconds (5 * Second)))) /\
    match GetAddressInfo' useCase (context e1) with
    | Returned c' => r = Done (with_context (exchange_of r) c')
    | Panicked value stack c' => r = Panics value stack (with_context (exchange_of r) c')
    end.
Proof.
  intros ip e1 Hv Hab Hget Hauth.
  unfold ethereum_route, Limit_HandlerFunc. fold ip.
  destruct (Limit spare rl ip now) as [v rl'] eqn:HL. cbn [fst snd] in *. subst v.
  set (tail := ContentTypeEnforcer Map_ToLower
                 (CacheControl Seconds TimeFormat (5 * Second) now'
                    (lift (GetAddressInfo' useCase)))).
  exists ((if enabled then Authenticate a tail else tail) e).
  split; [unfold chain.Next; now rewrite Hab|].
  assert (Htail : forall e0, aborted (context e0) = false ->
            http.Method (chain.Request e0) = "GET" ->
            tail e0 = lift (GetAddressInfo' useCase)
                        (SetHeader "Expires" (TimeFormat (now' + 5 * Second))
                           (SetHeader "Cache-Control"
                              ("public, max-age=" +:+
                               response.Int_String (Some (Seconds (5 * Second))))
                              e0))).
  { intros e0 Hab0 Hget0. unfold tail, ContentTypeEnforcer, CacheControl.
    rewrite Hget0. cbn [String.eqb Ascii.eqb orb]. unfold chain.Next.
    rewrite Hab0. cbn [SetHeader context]. now rewrite Hab0. }
  assert (Hcc : forall e0 v,
            Header (SetHeader "Expires" v
                      (SetHeader "Cache-Control"
                         ("public, max-age=" +:+
                          response.Int_String (Some (Seconds (5 * Second))))
                         e0)) !! "Cache-Control"
            = Some ("public, max-age=" +:+
                    response.Int_String (Some (Seconds (5 * Second))))).
  { intros e0 v. unfold SetHeader. cbn [Header].
    change (String.eqb ("public, max-age=" +:+ _) EmptyString) with false.
    cbv iota.
    destruct (String.eqb v EmptyString);
      [rewrite lookup_delete_ne by discriminate
      |rewrite lookup_insert_ne by discriminate]; apply lookup_insert_eq. }
  assert (Hgoal : forall e0, aborted (context e0) = false ->
            http.Method (chain.Request e0) = "GET" ->
            Header (exchange_of (tail e0)) !! "Cache-Control"
            = Some ("public, max-age=" +:+
                    response.Int_String (Some (Seconds (5 * Second)))) /\
            match GetAddressInfo' useCase (context e0) with
            | Returned c' => tail e0 = Done (with_context (exchange_of (tail e0)) c')
            | Panicked value stack c' =>
                tail e0 = Panics value stack (with_context (exchange_of (tail e0)) c')
            end).
  { intros e0 Hab0 Hget0. rewrite (Htail e0 Hab0 Hget0).
    split; [rewrite lift_Header; apply Hcc|].
    unfold lift. cbn [SetHeader context].
    destruct (GetAddressInfo' useCase (context e0)); reflexivity. }
  destruct enabled.
  - destruct (Hauth eq_refl) as [Hsome Hknown]. subst e1.
    destruct (apiKeys a !! presented (chain.Request e)) as [userID|] eqn:Hkey;
      [|congruence].
    assert (Hstep : Authenticate a tail e = tail (Set_ "userID" userID e)).
    { unfold Authenticate. rewrite (proj2 (auth_proofs.eqb_empty _) Hsome), Hkey.
      unfold chain.Next. cbn [Set_ with_context context aborted].
      now rewrite Hab. }
    rewrite Hstep. apply Hgoal; [exact Hab | exact Hget].
  - subst e1. apply Hgoal; assumption.
Qed.

End route.

Lemma ethereum_route_rejections_witness :
  let rl := NewRateLimiter 1 Second in
  let e := a_request EmptyString aggregation.zero_address in
  ethereum_route id id id id disclosure.a_timestamp (fun d => d / Second)
    disclosure.a_timestamp rl true NewAPIKeyAuth disclosure.succeeding_useCase
    7 8 e
  = Some (Done (chain.AbortWithStatusJSON 401
                  (error_H "API key is required") e),
          (Limit id rl "10.0.0.7" 7).2) /\
  timestamps (Limit id rl "10.0.0.7" 7).2 "10.0.0.7" = [7].
Proof.
  intros rl e.
  destruct (New_run_ok 1 Second) as (Hok & _ & _).
  assert (Hlim : 0 <= limit rl <= runtime.MaxLimit)
    by (unfold rl, runtime.MaxLimit; cbn; lia).
  assert (Hwin : runtime.MinDuration < window rl)
    by (unfold rl, runtime.MinDuration, Second; cbn; lia).
  destruct (ethereum_route_rejections id id id id disclosure.a_timestamp
              (fun d => d / Second) disclosure.a_timestamp rl NewAPIKeyAuth e 7
              Hok eq_refl Hlim Hwin eq_refl eq_refl) as [_ H].
  destruct H as (Hts & Hnone & _); [vm_compute; reflexivity|].
  split; [apply Hnone; reflexivity | exact Hts].
Defined.

Lemma ethereum_route_cached_witness :
  let rl := NewRateLimiter 1 Second in
  let e := a_request EmptyString "not an address" in
  exists r,
    ethereum_route id id id id disclosure.a_timestamp (fun d => d / Second)
      disclosure.a_timestamp rl false NewAPIKeyAuth
      disclosure.succeeding_useCase 7 8 e
    = Some (r, (Limit id rl "10.0.0.7" 7).2) /\
    Header (exchange_of r) !! "Cache-Control" = Some "public, max-age=5" /\
    (fst <$> Writer (context (exchange_of r))) = [400].
Proof.
  intros rl e.
  destruct (ethereum_route_cached id id id id disclosure.a_timestamp
              (fun d => d / Second) disclosure.a_timestamp rl false
              NewAPIKeyAuth disclosure.succeeding_useCase e 7 8
              eq_refl eq_refl eq_refl ltac:(discriminate))
    as (r & Hr & Hcc & Hh).
  exists r. split; [exact Hr|]. split; [exact Hcc|].
  cbn in Hh. rewrite Hh. reflexivity.
Defined.

End route_proofs.

(** * The amounts in wei, as the response gives them *)

Module response_proofs.

Import gin response entity.

Lemma Int_String_read (z : Z) : decimal.read (Int_String (Some z)) = Some z.
Proof.
  unfold decimal.read, Int_String.
  rewrite NilZero.isi.
  - cbn. now rewrite DecimalZ.of_to.
  - destruct z; cbn; try discriminate.
    intros [= H]. now apply DecimalPos.Unsigned.to_uint_nonnil in H.
  - destruct z; cbn; try discriminate.
    intros [= H]. now apply DecimalPos.Unsigned.to_uint_nonnil in H.
Qed.

(** X22: the response gives the gas price and the balance
    in wei as decimal strings that read back as exactly the amounts of the
    entity, whatever their size; so two different amounts are never given the
    same string. *)
Theorem FormatAddressInfo_wei_lossless (RFC3339 : Time -> string)
    (info : AddressInfo) (g a : Z) :
  GasPrice_Wei (Info_GasPrice info) = Some g ->
  Balance_Wei (Info_Balance info) = Some a ->
  exists sg sa,
    FormatAddressInfo RFC3339 info
    = JObject
        [ ("address", JString (Address info));
          ("gasPrice",
            JObject [ ("wei", JString sg);
                      ("gwei", JFloat (GasPrice_Gwei (Info_GasPrice info))) ]);
          ("currentBlock", JInt (CurrentBlock info));
          ("balance",
            JObject [ ("wei", JString sa);
                      ("ether", JFloat (Balance_Ether (Info_Balance info))) ]);
          ("timestamp", JString (RFC3339 (Timestamp info))) ] /\
    decimal.read sg = Some g /\ decimal.read sa = Some a.
Proof.
  intros Hg Ha. unfold FormatAddressInfo. rewrite Hg, Ha.
  do 2 eexists. split; [reflexivity|]. split; apply Int_String_read.
Qed.

Lemma FormatAddressInfo_wei_lossless_witness :
  exists sg sa,
    FormatAddressInfo disclosure.a_timestamp aggregation.entity_ok
    = JObject
        [ ("address", JString aggregation.zero_address);
          ("gasPrice",
            JObject [ ("wei", JString sg); ("gwei", JFloat (big.Finite 12)) ]);
          ("currentBlock", JInt 19000000);
          ("balance",
            JObject [ ("wei", JString sa);
                      ("ether", JFloat (big.Finite (5 # 2))) ]);
          ("timestamp", JString "2025-01-01T00:00:00Z") ] /\
    decimal.read sg = Some 12000000000 /\
    decimal.read sa = Some 2500000000000000000.
Proof.
  exact (FormatAddressInfo_wei_lossless disclosure.a_timestamp
           aggregation.entity_ok 12000000000 2500000000000000000
           eq_refl eq_refl).
Defined.

End response_proofs.
